(** * Fair max-min diversification: the MWU solver and the gamma falloff

    A shallow embedding of [mult_weight_upd] and [epsilon_falloff] as they
    are written in [fmmdmwu_nyoom.py] (the variant with the stochastic
    early-stop cadence) and in [TODELETE/multweights.py] (the variant that
    checks every 50 iterations).

    Conventions of the embedding.
    - A Python/NumPy float is an exact rational ([Q]); rounding is not
      modelled.  Equalities between computed values are stated up to [Qeq].
    - A NumPy vector is a [list Q]; points are identified by their position.
    - Python exceptions are the [Raise] results of a small error monad.
    - The collaborators that are not part of the two files (the weighted
      spatial index, the ball tree, [np.argpartition], [math.log] and the
      random generator) are Variables of a Section; concrete versions of
      each are given later and used for closed examples.
    - Wall-clock bookkeeping ([translation_time], [Stopwatch]) is left out:
      it never influences control flow. *)

From Stdlib Require Import String.
From Stdlib Require Import List Bool Arith ZArith QArith Qround Qabs.
From Stdlib Require Import Lia Lqa Psatz Permutation.
Import ListNotations.

(** ** Python results *)

Inductive exn : Set :=
| AssertionError
| ZeroDivisionError
| ValueError
| IndexError
| UnboundLocalError
| NonFinite.   (* NumPy division by an exact zero: inf/nan, no rational value *)

Inductive res (A : Type) : Type :=
| Ok (a : A)
| Raise (e : exn).

Arguments Ok {A} a.
Arguments Raise {A} e.

Definition bind {A B : Type} (m : res A) (f : A -> res B) : res B :=
  match m with
  | Ok a => f a
  | Raise e => Raise e
  end.

Declare Scope py_scope.
Delimit Scope py_scope with py.
Notation "x <- m ;; k" := (bind m (fun x => k))
  (at level 61, m at next level, right associativity) : py_scope.
Notation "' p <- m ;; k" := (bind m (fun x => match x with p => k end))
  (at level 61, p pattern, m at next level, right associativity) : py_scope.

Local Open Scope Q_scope.
Local Open Scope py_scope.

(** ** Vectors *)

Definition vec := list Q.
Definition point := list Q.

(** [np.sum] *)
Definition np_sum (v : vec) : Q := fold_right Qplus 0 v.

(** Scalar float division [a / b] of Python: raises on a zero divisor. *)
Definition pydiv (a b : Q) : res Q :=
  if Qeq_bool b 0 then Raise ZeroDivisionError else Ok (a / b).

(** [a[idx]] with an index array: every index must be in range. *)
Fixpoint take {A : Type} (a : list A) (idx : list nat) : res (list A) :=
  match idx with
  | [] => Ok []
  | i :: rest =>
      match nth_error a i with
      | None => Raise IndexError
      | Some x => xs <- take a rest ;; Ok (x :: xs)
      end
  end.

(** [(color == colors).nonzero()[0]]: the positions holding [color],
    in ascending order. *)
Definition nonzero_eq (color : string) (colors : list string) : list nat :=
  filter (fun i => String.eqb color (nth i colors EmptyString))
         (seq 0 (length colors)).

(** [X[idx] += 1]: NumPy's buffered in-place add; an index listed twice is
    still incremented once. *)
Definition add_one_at (X : vec) (idx : list nat) : res vec :=
  if forallb (fun i => (i <? length X)%nat) idx
  then Ok (map (fun ix => if existsb (Nat.eqb (fst ix)) idx
                          then snd ix + 1 else snd ix)
               (combine (seq 0 (length X)) X))
  else Raise IndexError.

(** [X / (t + 1)] *)
Definition scale_down (X : vec) (t : nat) : vec :=
  map (fun x => x / inject_Z (Z.of_nat t + 1)) X.

(** [np.any(v > bound)] *)
Definition any_above (v : vec) (bound : Q) : bool :=
  existsb (fun x => negb (Qle_bool x bound)) v.

(** [gen.integers(low, high)]: an integer of [low, high), from one raw
    word of the generator. *)
Definition integers (low high : Z) (raw : nat) : Z :=
  (low + Z.of_nat raw mod (high - low))%Z.

(** ** The solver *)

Inductive cadence : Set :=
| Stochastic   (* fmmdmwu_nyoom.py *)
| Every50.     (* TODELETE/multweights.py *)

Record state : Type := mkState {
  st_h : vec;        (* weights *)
  st_X : vec;        (* accumulated selections *)
  st_wait : Z;       (* nextSolutionCheckWait *)
  st_drawn : nat     (* raw words consumed from the generator *)
}.

(** What one pass through the loop body does to the loop. *)
Inductive flow : Type :=
| Continue (st : state)
| Break (st : state)
| ReturnNone.

(** How the [for] loop was left: the range ran out ([last] is the loop
    variable, unbound after zero passes), a [break] at [t], or the
    [return None] at [t]. *)
Inductive loop_exit : Type :=
| Exhausted (last : option nat) (st : state)
| Broke (t : nat) (st : state)
| ReturnedNone (t : nat).

(** The number of passes through the loop body that were started. *)
Definition iterations_run (ex : loop_exit) : nat :=
  match ex with
  | Exhausted None _ => O
  | Exhausted (Some t) _ => S t
  | Broke t _ => S t
  | ReturnedNone t => S t
  end.

Section Solver.

(** [math.log(N, math.e)] *)
Variable math_log : nat -> Q.
(** [c_tree.run_query(radius, weights)] /
    [KDTree2.get_weight_ranges(struct, weights, radius)], for the index
    built over the given features. *)
Variable run_query : list point -> Q -> vec -> vec.
(** [BallTree.get_counts_in_range(BallTree.create(S), features, radius)] *)
Variable get_counts_in_range : list point -> list point -> Q -> list nat.
(** [np.argpartition(a, kth)] for an in-range [kth] *)
Variable argpartition : vec -> nat -> list nat.

(** [np.argpartition(a, kth)] as called: a negative [kth] counts from the
    end, an out-of-range one is a [ValueError]. *)
Definition np_argpartition (a : vec) (kth : Z) : res (list nat) :=
  let n := Z.of_nat (length a) in
  let kth' := if (kth <? 0)%Z then (kth + n)%Z else kth in
  if ((0 <=? kth') && (kth' <? n))%Z
  then Ok (argpartition a (Z.to_nat kth'))
  else Raise ValueError.

(** Lines 81-87: the indices chosen for one color. *)
Definition min_indecies (w_sums : vec) (colors : list string)
           (color : string) (ki : nat) : res (list nat) :=
  let color_sums_ind := nonzero_eq color colors in
  color_sums <- take w_sums color_sums_ind ;;
  partition <- np_argpartition color_sums (Z.of_nat ki - 1) ;;
  let arg_mins := firstn ki partition in
  take color_sums_ind arg_mins.

(** Lines 79-94: one pass of the loop over [kis.keys()]; the accumulator
    is [(X, Sr, W)], [Sr] being the [S] of the source. *)
Definition color_step (features : list point) (colors : list string)
           (w_sums : vec) (acc : vec * list point * Q)
           (entry : string * nat) : res (vec * list point * Q) :=
  let '(X, Sr, W) := acc in
  idx <- min_indecies w_sums colors (fst entry) (snd entry) ;;
  X' <- add_one_at X idx ;;
  pts <- take features idx ;;
  ws <- take w_sums idx ;;
  Ok (X', Sr ++ pts, W + np_sum ws).

Fixpoint color_loop (features : list point) (colors : list string)
         (w_sums : vec) (kis : list (string * nat))
         (acc : vec * list point * Q) : res (vec * list point * Q) :=
  match kis with
  | [] => Ok acc
  | entry :: rest =>
      acc' <- color_step features colors w_sums acc entry ;;
      color_loop features colors w_sums rest acc'
  end.

(** Lines 68-94: the query and the selection of one iteration. *)
Definition selection (gamma : Q) (features : list point)
           (colors : list string) (kis : list (string * nat))
           (h X : vec) : res (vec * list point * Q) :=
  let w_sums := run_query features (gamma / 2) h in
  color_loop features colors w_sums kis (X, [], 0).

(** Lines 101-106: [M[i] = (1.0 / mu) * ((-1 * c) + 1)] over
    [enumerate(Cs)], on [M = zeros_like(h)]. *)
Definition compute_M (n : nat) (mu : Z) (Cs : list nat) : res vec :=
  match Cs with
  | [] => Ok (repeat 0 n)
  | _ :: _ =>
      inv_mu <- pydiv 1 (inject_Z mu) ;;
      if (n <? length Cs)%nat then Raise IndexError
      else Ok (map (fun c => inv_mu * (inject_Z (-1 * Z.of_nat c) + 1)) Cs
                 ++ repeat 0 (n - length Cs))
  end.

(** Lines 109-111: the multiplicative update and the renormalization. *)
Definition update_h (scaled_eps : Q) (h M : vec) : res vec :=
  let h' := map (fun hm => fst hm * (1 - (scaled_eps / 4) * snd hm))
                (combine h M) in
  let total := np_sum h' in
  if Qeq_bool total 0 then Raise NonFinite
  else Ok (map (fun x => x / total) h').

Definition check_due (cad : cadence) (t : nat) (wait : Z) : bool :=
  match cad with
  | Stochastic => (100 <? t)%nat && (wait =? 0)%Z
  | Every50 => (t mod 50 =? 0)%nat
  end.

(** [getNextSolutionCheckWait()]: the next draw of [gen.integers(9, 29)]. *)
Definition getNextSolutionCheckWait (gen : nat -> nat) (drawn : nat) : Z :=
  integers 9 29 (gen drawn).

Section Body.

Variables (cad : cadence) (gen : nat -> nat).
Variables (gamma : Q) (mu : Z) (scaled_eps epsilon : Q).
Variables (features : list point) (colors : list string).
Variable kis : list (string * nat).

(** Lines 115-130 (resp. 94-98): the early-stop test, reached after the
    update of [h]. *)
Definition early_stop (t : nat) (st : state) : flow :=
  if check_due cad t (st_wait st) then
    let st' :=
      match cad with
      | Stochastic =>
          mkState (st_h st) (st_X st)
                  (getNextSolutionCheckWait gen (st_drawn st))
                  (S (st_drawn st))
      | Every50 => st
      end in
    let X_weights :=
      run_query features (gamma / 2) (scale_down (st_X st) t) in
    if negb (any_above X_weights (1 + epsilon)) then Break st'
    else Continue st'
  else
    match cad with
    | Stochastic =>
        Continue (mkState (st_h st) (st_X st) (st_wait st - 1)
                          (st_drawn st))
    | Every50 => Continue st
    end.

(** One pass through the body of the [for] loop. *)
Definition body (t : nat) (st : state) : res flow :=
  '(X', Sr, W) <- selection gamma features colors kis (st_h st) (st_X st) ;;
  if Qle_bool 1 W then Ok ReturnNone
  else
    let Cs := get_counts_in_range Sr features (gamma / 2) in
    M <- compute_M (length (st_h st)) mu Cs ;;
    h' <- update_h scaled_eps (st_h st) M ;;
    Ok (early_stop t (mkState h' X' (st_wait st) (st_drawn st))).

(** [for t in trange(n)], entered at [t] with [n] passes left. *)
Fixpoint for_range (n t : nat) (last : option nat) (st : state)
  : res loop_exit :=
  match n with
  | O => Ok (Exhausted last st)
  | S n' =>
      fl <- body t st ;;
      match fl with
      | ReturnNone => Ok (ReturnedNone t)
      | Break st' => Ok (Broke t st')
      | Continue st' => for_range n' (S t) (Some t) st'
      end
  end.

(** The state with which pass [t] starts, when passes [0 .. t-1] all
    ran to their end without leaving the loop. *)
Fixpoint state_at (t : nat) (st0 : state) : option state :=
  match t with
  | O => Some st0
  | S t' =>
      match state_at t' st0 with
      | Some st =>
          match body t' st with
          | Ok (Continue st') => Some st'
          | _ => None
          end
      | None => None
      end
  end.

(** Lines 132-133 after the loop (resp. 98/79 inside it). *)
Definition finish (ex : loop_exit) : res (option vec) :=
  match ex with
  | ReturnedNone _ => Ok None
  | Broke t st => Ok (Some (scale_down (st_X st) t))
  | Exhausted (Some t) st => Ok (Some (scale_down (st_X st) t))
  | Exhausted None _ => Raise UnboundLocalError
  end.

End Body.

(** The number of passes [trange(math.ceil(T))] makes. *)
Definition passes (T : Q) : nat := Z.to_nat (Qceiling T).

(** Line 58 (resp. 46): [T] before any scaling;
    [math.pow(scaled_eps, 2)] is the square. *)
Definition theoretical_T (N : nat) (mu : Z) (scaled_eps : Q) : res Q :=
  T <- pydiv (inject_Z (8 * mu)) (scaled_eps * scaled_eps) ;;
  Ok (T * math_log N).

Definition initial_state (N : nat) (invN : Q) (wait : Z) (drawn : nat)
  : state :=
  mkState (repeat invN N) (repeat 0 N) wait drawn.

(** Lines 39-130 of fmmdmwu_nyoom.py: [mult_weight_upd] up to the end of
    its loop; [gen] is the generator [np.random.default_rng()] creates
    for this call. *)
Definition mult_weight_upd_loop (gen : nat -> nat) (gamma : Q) (N k : nat)
           (features : list point) (colors : list string)
           (kis : list (string * nat)) (epsilon percent : Q)
  : res loop_exit :=
  let nextSolutionCheckWait := getNextSolutionCheckWait gen 0 in
  if (0 <? k)%nat then
    scaled_eps <- pydiv epsilon (1 + epsilon / 4) ;;
    let mu := (Z.of_nat k - 1)%Z in
    invN <- pydiv 1 (inject_Z (Z.of_nat N)) ;;
    T <- theoretical_T N mu scaled_eps ;;
    let T := T * percent in
    for_range Stochastic gen gamma mu scaled_eps epsilon
              features colors kis (passes T) 0 None
              (initial_state N invN nextSolutionCheckWait 1)
  else Raise AssertionError.

(** [mult_weight_upd] of fmmdmwu_nyoom.py. *)
Definition mult_weight_upd (gen : nat -> nat) (gamma : Q) (N k : nat)
           (features : list point) (colors : list string)
           (kis : list (string * nat)) (epsilon percent : Q)
  : res (option vec) :=
  ex <- mult_weight_upd_loop gen gamma N k features colors kis
                             epsilon percent ;;
  finish ex.

(** Lines 36-98 of TODELETE/multweights.py: no generator, no scaling of
    [T], the check every 50 passes. *)
Definition multweights_mult_weight_upd_loop (gamma : Q) (N k : nat)
           (features : list point) (colors : list string)
           (kis : list (string * nat)) (epsilon : Q)
  : res loop_exit :=
  if (0 <? k)%nat then
    scaled_eps <- pydiv epsilon (1 + epsilon / 4) ;;
    let mu := (Z.of_nat k - 1)%Z in
    invN <- pydiv 1 (inject_Z (Z.of_nat N)) ;;
    T <- theoretical_T N mu scaled_eps ;;
    for_range Every50 (fun _ => O) gamma mu scaled_eps epsilon
              features colors kis (passes T) 0 None
              (initial_state N invN 0 0)
  else Raise AssertionError.

(** [mult_weight_upd] of TODELETE/multweights.py. *)
Definition multweights_mult_weight_upd (gamma : Q) (N k : nat)
           (features : list point) (colors : list string)
           (kis : list (string * nat)) (epsilon : Q)
  : res (option vec) :=
  ex <- multweights_mult_weight_upd_loop gamma N k features colors kis
                                         epsilon ;;
  finish ex.

(** *** The quantities of a call, named

    These are the values the prologue computes when none of its
    divisions fails; the statements below are phrased with them. *)

Definition scaled_epsilon (epsilon : Q) : Q := epsilon / (1 + epsilon / 4).

Definition mu_of (k : nat) : Z := (Z.of_nat k - 1)%Z.

(** [T] as computed on line 58, before any scaling. *)
Definition raw_T (N k : nat) (epsilon : Q) : Q :=
  inject_Z (8 * mu_of k)
  / (scaled_epsilon epsilon * scaled_epsilon epsilon)
  * math_log N.

(** The state in which the loop of fmmdmwu_nyoom.py is entered. *)
Definition start_state (gen : nat -> nat) (N : nat) : state :=
  initial_state N (1 / inject_Z (Z.of_nat N))
                (getNextSolutionCheckWait gen 0) 1.

(** The state in which the loop of multweights.py is entered. *)
Definition multweights_start_state (N : nat) : state :=
  initial_state N (1 / inject_Z (Z.of_nat N)) 0 0.

(** The state with which pass [t] of [mult_weight_upd] starts. *)
Definition mwu_state_at (gen : nat -> nat) (gamma : Q) (N k : nat)
           (features : list point) (colors : list string)
           (kis : list (string * nat)) (epsilon : Q) (t : nat)
  : option state :=
  state_at Stochastic gen gamma (mu_of k) (scaled_epsilon epsilon) epsilon
           features colors kis t (start_state gen N).

(** The same for multweights.py. *)
Definition multweights_state_at (gamma : Q) (N k : nat)
           (features : list point) (colors : list string)
           (kis : list (string * nat)) (epsilon : Q) (t : nat)
  : option state :=
  state_at Every50 (fun _ => O) gamma (mu_of k) (scaled_epsilon epsilon)
           epsilon features colors kis t (multweights_start_state N).

End Solver.

(** ** The driver *)

(** How the search for [gamma] ended: the solver returned [X] at [gamma]
    (the values handed to [rand_round]), an exception escaped, or the
    bounded unrolling of the [while] loop ran out. *)
Inductive driver_exit : Type :=
| Found (gamma : Q) (X : vec)
| Failed (e : exn)
| OutOfFuel.

Section Driver.

Variable math_log : nat -> Q.
Variable run_query : list point -> Q -> vec -> vec.
Variable get_counts_in_range : list point -> list point -> Q -> list nat.
Variable argpartition : vec -> nat -> list nat.
(** [np.random.default_rng()]: the generator of the n-th solver call. *)
Variable default_rng : nat -> nat -> nat.

Variables (features : list point) (colors : list string).
Variable kis : list (string * nat).
Variables (mwu_epsilon falloff_epsilon percent : Q).

(** [sum(kis.values())] *)
Definition kis_total (m : list (string * nat)) : nat :=
  fold_right Nat.add O (map snd m).

(** The solver as the driver calls it (lines 165 and 170). *)
Definition solve (call : nat) (gamma : Q) : res (option vec) :=
  mult_weight_upd math_log run_query get_counts_in_range argpartition
                  (default_rng call) gamma (length features)
                  (kis_total kis) features colors kis mwu_epsilon percent.

(** Lines 168-171: [while X is None], unrolled at most [fuel] times.
    The first component lists the values of [gamma] handed to the solver
    inside the loop, in call order. *)
Fixpoint falloff_while (fuel call : nat) (gamma : Q) (X : option vec)
  : list Q * driver_exit :=
  match X with
  | Some X => ([], Found gamma X)
  | None =>
      match fuel with
      | O => ([], OutOfFuel)
      | S fuel' =>
          let gamma' := gamma * (1 - falloff_epsilon) in
          match solve call gamma' with
          | Raise e => ([gamma'], Failed e)
          | Ok X' =>
              let (tried, ex) := falloff_while fuel' (S call) gamma' X' in
              (gamma' :: tried, ex)
          end
      end
  end.

(** Lines 158-171 of [epsilon_falloff]: the search for [gamma], with the
    list of all values tried. *)
Definition epsilon_falloff (fuel : nat) (gamma_upper : Q)
  : list Q * driver_exit :=
  match solve 0 gamma_upper with
  | Raise e => ([gamma_upper], Failed e)
  | Ok X =>
      let (tried, ex) := falloff_while fuel 1 gamma_upper X in
      (gamma_upper :: tried, ex)
  end.

End Driver.

(** ** The driver of TODELETE/multweights.py *)

Section LegacyDriver.

Variable math_log : nat -> Q.
Variable run_query : list point -> Q -> vec -> vec.
Variable get_counts_in_range : list point -> list point -> Q -> list nat.
Variable argpartition : vec -> nat -> list nat.

Variables (features : list point) (colors : list string).
Variable kis : list (string * nat).
Variables (mwu_epsilon falloff_epsilon : Q).

(** The solver as the driver calls it (lines 123 and 126), with
    [N = len(features)] and [k = sum(kis.values())]. *)
Definition multweights_solve (gamma : Q) : res (option vec) :=
  multweights_mult_weight_upd math_log run_query get_counts_in_range
                              argpartition gamma (length features)
                              (kis_total kis) features colors kis
                              mwu_epsilon.

(** Lines 124-126: [while X is None], unrolled at most [fuel] times, with
    the values of [gamma] handed to the solver inside the loop. *)
Fixpoint multweights_falloff_while (fuel : nat) (gamma : Q) (X : option vec)
  : list Q * driver_exit :=
  match X with
  | Some X => ([], Found gamma X)
  | None =>
      match fuel with
      | O => ([], OutOfFuel)
      | S fuel' =>
          let gamma' := gamma * (1 - falloff_epsilon) in
          match multweights_solve gamma' with
          | Raise e => ([gamma'], Failed e)
          | Ok X' =>
              let (tried, ex) := multweights_falloff_while fuel' gamma' X' in
              (gamma' :: tried, ex)
          end
      end
  end.

(** Lines 116-126 of [epsilon_falloff] in multweights.py: the search for
    [gamma], up to the call of [rand_round]. *)
Definition multweights_epsilon_falloff (fuel : nat) (gamma_upper : Q)
  : list Q * driver_exit :=
  match multweights_solve gamma_upper with
  | Raise e => ([gamma_upper], Failed e)
  | Ok X =>
      let (tried, ex) := multweights_falloff_while fuel gamma_upper X in
      (gamma_upper :: tried, ex)
  end.

End LegacyDriver.

(** ** Concrete collaborators *)

(** Squared Euclidean distance. *)
Fixpoint sqdist (p q : point) : Q :=
  match p, q with
  | a :: p', b :: q' => (a - b) * (a - b) + sqdist p' q'
  | _, _ => 0
  end.

(** [|p - q| <= r] for the Euclidean norm, decided on the squares. *)
Definition within (r : Q) (p q : point) : bool :=
  Qle_bool 0 r && Qle_bool (sqdist p q) (r * r).

(** Modelled from the spec: the weighted spatial index
    ([datastructures.WeightedTree], [KDTree2]) is not among the sources;
    section 4.A gives its query as
    [r[i] = sum of w[j] over the j with |p_i - p_j| <= r]. *)
Definition ball_sum (features : list point) (r : Q) (w : vec) : vec :=
  map (fun p =>
         np_sum (map snd (filter (fun qw => within r p (fst qw))
                                 (combine features w))))
      features.

(** Modelled from the spec: the ball-count index ([BallTree]) is not among
    the sources; section 4.B gives [c[i]] as the number of centers [j]
    with [|q_i - center_j| <= r]. *)
Definition ball_count (centers queries : list point) (r : Q) : list nat :=
  map (fun q => length (filter (within r q) centers)) queries.

(** [a < b] *)
Definition Qlt_bool (a b : Q) : bool := negb (Qle_bool b a).

(** [np.argpartition] made concrete: the [dumb_select] loop that NumPy's
    portable introselect runs for a small [kth] ([kth < 3]; the closed
    examples stay within that).  For each of the first [kth + 1]
    positions it finds the first strictly smallest remaining value and
    swaps it into place.  Here the same loop serves every [kth].

    [first_min] is the inner scan: [minidx] and [minval] are the running
    minimum, [pos] the position of the head of [rest]. *)
Fixpoint first_min (v : vec) (rest : list nat) (pos minidx : nat)
         (minval : Q) : nat * Q :=
  match rest with
  | [] => (minidx, minval)
  | y :: rest' =>
      if Qlt_bool (nth y v 0) minval
      then first_min v rest' (S pos) pos (nth y v 0)
      else first_min v rest' (S pos) minidx minval
  end.

(** Exchange the head with the element [m] places after it. *)
Definition swap_head (l : list nat) (m : nat) : list nat :=
  match l, m with
  | x :: r, S j => nth j r x :: (firstn j r ++ x :: skipn (S j) r)
  | _, _ => l
  end.

(** The outer loop, [steps] positions to go. *)
Fixpoint dumb_select (v : vec) (steps : nat) (tosort : list nat)
  : list nat :=
  match steps, tosort with
  | S s, x :: r =>
      match swap_head (x :: r) (fst (first_min v r 1 0 (nth x v 0))) with
      | y :: r' => y :: dumb_select v s r'
      | [] => []
      end
  | _, _ => tosort
  end.

Definition numpy_argpartition (a : vec) (kth : nat) : list nat :=
  dumb_select a (S kth) (seq 0 (length a)).

(** A rational stand-in for [math.log(n, math.e)]:
    [ln n = e ln 2 + ln m] with [n = 2^e m], [1 <= m < 2], and
    [ln m = 2 atanh ((m-1)/(m+1))] by 20 terms of the series (the
    argument is below 1/3, the remainder below 1e-19). *)
Fixpoint atanh_series (x2 pw : Q) (d : Z) (terms : nat) : Q :=
  match terms with
  | O => 0
  | S n => pw / inject_Z d + atanh_series x2 (pw * x2) (d + 2) n
  end.

Definition atanh_approx (x : Q) : Q := atanh_series (x * x) x 1 20.

Definition ln_approx (n : nat) : Q :=
  let z := Z.of_nat n in
  let e := Z.log2 z in
  let x := inject_Z (z - 2 ^ e) / inject_Z (z + 2 ^ e) in
  Qred (inject_Z e * (2 * atanh_approx (1 # 3)) + 2 * atanh_approx x).

(** A generator whose raw words are all [raw]. *)
Definition constant_rng (raw : nat) : nat -> nat -> nat :=
  fun _ _ => raw.

(** ** The selection as the specification words it

    "The [K(c)] indices with smallest [w_sum] values, ties broken by
    index": the first [K(c)] entries of [I_c] ordered by value, then by
    index.  This follows the specification, not the source. *)

Definition lex_le (w : vec) (i j : nat) : bool :=
  Qlt_bool (nth i w 0) (nth j w 0)
  || (Qeq_bool (nth i w 0) (nth j w 0) && (i <=? j)%nat).

Fixpoint lex_insert (w : vec) (i : nat) (l : list nat) : list nat :=
  match l with
  | [] => [i]
  | j :: l' => if lex_le w i j then i :: l else j :: lex_insert w i l'
  end.

Definition lex_sort (w : vec) (l : list nat) : list nat :=
  fold_right (lex_insert w) [] l.

Definition smallest_by_index (w_sums : vec) (colors : list string)
           (color : string) (ki : nat) : list nat :=
  firstn ki (lex_sort w_sums (nonzero_eq color colors)).

(** ** Inputs used in the closed examples *)

(** Three points far apart, one color, two of them wanted. *)
Definition features3 : list point := [[0; 0]; [10; 0]; [0; 10]].
Definition colors3 : list string := ["a"%string; "a"%string; "a"%string].
Definition kis3 : list (string * nat) := [("a"%string, 2%nat)].

(** Two points of one color, both wanted: [k = N]. *)
Definition features2 : list point := [[0; 0]; [1; 0]].
Definition colors2 : list string := ["a"%string; "a"%string].
Definition kis2 : list (string * nat) := [("a"%string, 2%nat)].

(** Two points close together and a third far away, one color. *)
Definition features_tie : list point := [[0; 0]; [1; 0]; [10; 0]].

(** Two coincident points and a third one apart, one color (scenario E4
    of the specification). *)
Definition features_dup : list point := [[0; 0]; [0; 0]; [5; 0]].

(** The solver and the driver with the concrete collaborators. *)
Definition mwu_concrete :=
  mult_weight_upd ln_approx ball_sum ball_count numpy_argpartition.
Definition mwu_loop_concrete :=
  mult_weight_upd_loop ln_approx ball_sum ball_count numpy_argpartition.
Definition falloff_concrete :=
  epsilon_falloff ln_approx ball_sum ball_count numpy_argpartition
                  (constant_rng 0).

(** ** What is assumed of the collaborators and of the input *)

(** [np.argpartition]: a permutation of the positions in which the
    element at [kth] is in its sorted place, no larger value before it and
    no smaller one after it.  The order inside either part is left open. *)
Definition argpartition_ok (argpartition : vec -> nat -> list nat) : Prop :=
  forall a kth, (kth < length a)%nat ->
    Permutation (argpartition a kth) (seq 0 (length a)) /\
    forall i j, (i <= kth)%nat -> (kth <= j)%nat -> (j < length a)%nat ->
      nth (nth i (argpartition a kth) O) a 0
      <= nth (nth j (argpartition a kth) O) a 0.

(** The weighted index answers with one value per point. *)
Definition run_query_ok (run_query : list point -> Q -> vec -> vec) : Prop :=
  forall features r w, length (run_query features r w) = length features.

(** The ball tree answers with one count per query point. *)
Definition counts_ok
           (get_counts_in_range : list point -> list point -> Q -> list nat)
  : Prop :=
  forall centers queries r,
    length (get_counts_in_range centers queries r) = length queries.

(** [math.log]: zero at 1, positive from 2 on. *)
Definition log_ok (math_log : nat -> Q) : Prop :=
  math_log 1%nat == 0 /\ forall n, (2 <= n)%nat -> 0 < math_log n.

(** Every quota is positive and can be met: [1 <= K(c) <= |I_c|]. *)
Definition quotas_ok (colors : list string) (kis : list (string * nat))
  : Prop :=
  Forall (fun e => (1 <= snd e <= length (nonzero_eq (fst e) colors))%nat)
         kis.

(** A valid call of the solver: [N] and [k] are what the driver computes,
    [kis] is a dictionary (its keys are distinct) of satisfiable quotas
    with [k >= 2], and the two tolerances are in range. *)
Record valid_input (N k : nat) (features : list point)
       (colors : list string) (kis : list (string * nat))
       (epsilon percent : Q) : Prop := {
  vi_N : N = length features;
  vi_colors : length colors = N;
  vi_k : k = kis_total kis;
  vi_k2 : (2 <= k)%nat;
  vi_keys : NoDup (map fst kis);
  vi_quotas : quotas_ok colors kis;
  vi_epsilon : 0 < epsilon /\ epsilon < 1;
  vi_percent : 0 < percent /\ percent <= 1
}.

(** ** The vocabulary of the statements *)

(** The sum of [w] over the positions listed in [idx]. *)
Definition sum_at (w : vec) (idx : list nat) : Q :=
  np_sum (map (fun i => nth i w 0) idx).

(** The value of [min_indecies] on a color whose quota can be met. *)
Definition chosen (argpartition : vec -> nat -> list nat) (w_sums : vec)
           (colors : list string) (c : string) (ki : nat) : list nat :=
  map (fun a => nth a (nonzero_eq c colors) O)
      (firstn ki
              (argpartition
                 (map (fun i => nth i w_sums 0) (nonzero_eq c colors))
                 (ki - 1)%nat)).

(** Every index chosen in one iteration, color after color. *)
Definition chosen_all (argpartition : vec -> nat -> list nat)
           (colors : list string) (w_sums : vec)
           (kis : list (string * nat)) : list nat :=
  flat_map (fun e => chosen argpartition w_sums colors (fst e) (snd e)) kis.

(** The weight of the selection a pass makes from [h]. *)
Definition round_weight (run_query : list point -> Q -> vec -> vec)
           (argpartition : vec -> nat -> list nat) (gamma : Q)
           (features : list point) (colors : list string)
           (kis : list (string * nat)) (h : vec) : Q :=
  let w_sums := run_query features (gamma / 2) h in
  sum_at w_sums (chosen_all argpartition colors w_sums kis).

(** The loop variable after the range ran out at [t]. *)
Definition last_of (t : nat) : option nat :=
  match t with
  | O => None
  | S t' => Some t'
  end.

(** The invariant of the loop: [h] and [X] have one entry per point, [h]
    is positive and sums to one. *)
Definition good_state (N : nat) (st : state) : Prop :=
  length (st_h st) = N /\ length (st_X st) = N /\
  Forall (fun x => 0 < x) (st_h st) /\ np_sum (st_h st) == 1.

(** [h] is positive with sum one. *)
Definition normalised (N : nat) (h : vec) : Prop :=
  length h = N /\ Forall (fun x => 0 < x) h /\ np_sum h == 1.

(** Entries between [lo] and [hi]. *)
Definition entries_within (lo hi : Q) (X : vec) : Prop :=
  Forall (fun x => lo <= x /\ x <= hi) X.

(** Some pass within a range of [n] selects a weight of at least one. *)
Definition weight_reaches_one
           (run_query : list point -> Q -> vec -> vec)
           (get_counts_in_range : list point -> list point -> Q -> list nat)
           (argpartition : vec -> nat -> list nat)
           (cad : cadence) (gen : nat -> nat)
           (gamma : Q) (mu : Z) (scaled_eps epsilon : Q)
           (features : list point) (colors : list string)
           (kis : list (string * nat)) (n : nat) (st0 : state) : Prop :=
  exists t st X' Sr W,
    (t < n)%nat /\
    state_at run_query get_counts_in_range argpartition cad gen gamma mu
             scaled_eps epsilon features colors kis t st0 = Some st /\
    selection run_query argpartition gamma features colors kis
              (st_h st) (st_X st) = Ok (X', Sr, W) /\
    1 <= W.

(** The loop was left through [break]. *)
Definition leaves_by_break (r : res loop_exit) : bool :=
  match r with
  | Ok (Broke _ _) => true
  | _ => false
  end.



(** A ball of radius [r >= 0] holds its own centre (section 4.A: "a point
    includes itself"), so under nonnegative weights the answer for a point
    is at least its own weight. *)
Definition run_query_covers_self
           (run_query : list point -> Q -> vec -> vec) : Prop :=
  forall features r w i,
    0 <= r -> Forall (fun x => 0 <= x) w ->
    length w = length features -> (i < length features)%nat ->
    nth i w 0 <= nth i (run_query features r w) 0.

(** The driver never gets a vector from the solver, however long the
    [while] loop is followed. *)
Definition never_found (run : nat -> list Q * driver_exit) : Prop :=
  forall fuel, snd (run fuel) = OutOfFuel.

(** Below the radius [delta] every ball holds its centre only: the index
    answers with the weights themselves.  Such a [delta > 0] exists when
    the points are pairwise distinct. *)
Definition isolating (run_query : list point -> Q -> vec -> vec)
           (features : list point) (delta : Q) : Prop :=
  forall r w,
    0 <= r -> r < delta -> length w = length features ->
    Forall2 Qeq (run_query features r w) w.

(** [gamma] after [n] falloff steps. *)
Fixpoint decay (falloff_epsilon gamma : Q) (n : nat) : Q :=
  match n with
  | O => gamma
  | S n' => decay falloff_epsilon (gamma * (1 - falloff_epsilon)) n'
  end.

(** ** The search of either driver, over the solver it calls

    [solver i gamma] stands for the answer of the call number [i]; the
    two drivers are the instances [solve] and [multweights_solve]. *)

Fixpoint falloff_loop (solver : nat -> Q -> res (option vec))
         (falloff_epsilon : Q) (fuel call : nat) (gamma : Q)
         (X : option vec) : list Q * driver_exit :=
  match X with
  | Some X => ([], Found gamma X)
  | None =>
      match fuel with
      | O => ([], OutOfFuel)
      | S fuel' =>
          let gamma' := gamma * (1 - falloff_epsilon) in
          match solver call gamma' with
          | Raise e => ([gamma'], Failed e)
          | Ok X' =>
              let (tried, ex) :=
                falloff_loop solver falloff_epsilon fuel' (S call) gamma' X'
              in (gamma' :: tried, ex)
          end
      end
  end.

Definition falloff_search (solver : nat -> Q -> res (option vec))
           (falloff_epsilon : Q) (fuel : nat) (gamma_upper : Q)
  : list Q * driver_exit :=
  match solver 0%nat gamma_upper with
  | Raise e => ([gamma_upper], Failed e)
  | Ok X =>
      let (tried, ex) :=
        falloff_loop solver falloff_epsilon fuel 1 gamma_upper X in
      (gamma_upper :: tried, ex)
  end.

(** Call number [n], at [gamma_upper * (1 - falloff_epsilon)^n], is the
    first one not answered with [None]. *)
Definition first_answer (solver : nat -> Q -> res (option vec))
           (falloff_epsilon gamma_upper : Q) (n : nat)
           (answer : res (option vec)) : Prop :=
  solver n (decay falloff_epsilon gamma_upper n) = answer /\
  answer <> Ok None /\
  forall i, (i < n)%nat ->
            solver i (decay falloff_epsilon gamma_upper i) = Ok None.

(** What the outcome of a search says about the calls that were made. *)
Definition search_outcome (solver : nat -> Q -> res (option vec))
           (falloff_epsilon gamma_upper : Q) (fuel : nat)
           (ex : driver_exit) : Prop :=
  match ex with
  | Found gamma X =>
      exists n, (n <= fuel)%nat /\
                gamma = decay falloff_epsilon gamma_upper n /\
                first_answer solver falloff_epsilon gamma_upper n
                             (Ok (Some X))
  | Failed e =>
      exists n, (n <= fuel)%nat /\
                first_answer solver falloff_epsilon gamma_upper n (Raise e)
  | OutOfFuel =>
      forall i, (i <= fuel)%nat ->
                solver i (decay falloff_epsilon gamma_upper i) = Ok None
  end.

(** ** Counts and fractions *)

(** Every entry is a natural number no larger than [n]. *)
Definition counts_upto (n : nat) (X : vec) : Prop :=
  Forall (fun x => exists m : nat,
              (m <= n)%nat /\ x == inject_Z (Z.of_nat m)) X.

(** Every entry is a natural number no larger than [n], divided by [n]. *)
Definition fractions_of (n : nat) (R : vec) : Prop :=
  Forall (fun x => exists m : nat,
              (m <= n)%nat /\
              x == inject_Z (Z.of_nat m) / inject_Z (Z.of_nat n)) R.

(** * Properties *)

(** ** Index arrays *)

Lemma take_Ok (A : Type) (d : A) (a : list A) (idx : list nat) :
  Forall (fun i => (i < length a)%nat) idx ->
  take a idx = Ok (map (fun i => nth i a d) idx).
Proof.
  induction 1 as [|i rest Hi _ IH]; simpl; [reflexivity|].
  destruct (nth_error a i) as [x|] eqn:E.
  - rewrite IH. simpl. f_equal. f_equal.
    symmetry. now apply nth_error_nth.
  - apply nth_error_None in E. lia.
Qed.

Lemma take_inv (A : Type) (d : A) (a : list A) (idx : list nat) (l : list A) :
  take a idx = Ok l ->
  Forall (fun i => (i < length a)%nat) idx /\
  l = map (fun i => nth i a d) idx.
Proof.
  revert l. induction idx as [|i rest IH]; simpl; intros l H.
  - inversion H. split; [constructor | reflexivity].
  - destruct (nth_error a i) as [x|] eqn:E; [|discriminate].
    destruct (take a rest) as [xs|] eqn:E'; simpl in H; [|discriminate].
    inversion H; subst. destruct (IH xs eq_refl) as [HF ->].
    split.
    + constructor; [|exact HF]. apply nth_error_Some. congruence.
    + f_equal. symmetry. now apply nth_error_nth.
Qed.

Lemma take_length (A : Type) (a : list A) (idx : list nat) (l : list A) :
  take a idx = Ok l -> length l = length idx.
Proof.
  destruct a as [|d a'].
  - destruct idx as [|i rest]; simpl; intros H.
    + now inversion H.
    + now destruct i.
  - intros H. apply (take_inv _ d) in H. destruct H as [_ ->].
    now rewrite length_map.
Qed.

Lemma nonzero_eq_In (c : string) (colors : list string) (i : nat) :
  In i (nonzero_eq c colors) <->
  (i < length colors)%nat /\ nth i colors EmptyString = c.
Proof.
  unfold nonzero_eq. rewrite filter_In, in_seq, String.eqb_eq.
  intuition (auto; lia).
Qed.

Lemma nonzero_eq_NoDup (c : string) (colors : list string) :
  NoDup (nonzero_eq c colors).
Proof. apply NoDup_filter, seq_NoDup. Qed.

Lemma nonzero_eq_bound (c : string) (colors : list string) :
  Forall (fun i => (i < length colors)%nat) (nonzero_eq c colors).
Proof. apply Forall_forall. intros i Hi. now apply nonzero_eq_In in Hi. Qed.

Lemma existsb_eqb_In (i : nat) (l : list nat) :
  existsb (Nat.eqb i) l = true <-> In i l.
Proof.
  rewrite existsb_exists. split.
  - intros (x & Hx & E). apply Nat.eqb_eq in E. now subst.
  - intros H. exists i. split; [exact H | apply Nat.eqb_refl].
Qed.

Lemma add_one_at_length (X : vec) (idx : list nat) (X' : vec) :
  add_one_at X idx = Ok X' -> length X' = length X.
Proof.
  unfold add_one_at. destruct (forallb _ idx); [|discriminate].
  intros H. inversion H.
  now rewrite length_map, length_combine, length_seq, Nat.min_id.
Qed.

Lemma add_one_at_nth (X : vec) (idx : list nat) (X' : vec) (i : nat) :
  add_one_at X idx = Ok X' -> (i < length X)%nat ->
  nth i X' 0 = if existsb (Nat.eqb i) idx then nth i X 0 + 1 else nth i X 0.
Proof.
  unfold add_one_at. destruct (forallb _ idx); [|discriminate].
  intros H Hi. inversion H as [E]. clear H E.
  set (f := fun ix : nat * Q =>
              if existsb (Nat.eqb (fst ix)) idx then snd ix + 1 else snd ix).
  rewrite (nth_indep _ 0 (f (O, 0))).
  - rewrite map_nth, combine_nth by now rewrite length_seq.
    rewrite seq_nth by exact Hi. reflexivity.
  - now rewrite length_map, length_combine, length_seq, Nat.min_id.
Qed.

Lemma add_one_at_Ok (X : vec) (idx : list nat) :
  Forall (fun i => (i < length X)%nat) idx ->
  exists X', add_one_at X idx = Ok X'.
Proof.
  intros H. unfold add_one_at.
  replace (forallb (fun i => (i <? length X)%nat) idx) with true; [eauto|].
  symmetry. apply forallb_forall. intros i Hi.
  apply Nat.ltb_lt. rewrite Forall_forall in H. now apply H.
Qed.

Lemma NoDup_firstn (A : Type) (n : nat) (l : list A) :
  NoDup l -> NoDup (firstn n l).
Proof.
  intros H. rewrite <- (firstn_skipn n l) in H.
  now apply NoDup_app_remove_r in H.
Qed.

Lemma In_firstn (A : Type) (n : nat) (l : list A) (x : A) :
  In x (firstn n l) -> In x l.
Proof.
  intros H. rewrite <- (firstn_skipn n l). apply in_or_app. now left.
Qed.

(** Reading a duplicate-free list at distinct in-range positions gives
    distinct values. *)
Lemma NoDup_map_nth (A : Type) (d : A) (L : list A) (idx : list nat) :
  NoDup L -> NoDup idx -> Forall (fun i => (i < length L)%nat) idx ->
  NoDup (map (fun i => nth i L d) idx).
Proof.
  intros HL Hidx. induction Hidx as [|i rest Hi Hrest IH]; intros HF; simpl.
  - constructor.
  - inversion HF as [|? ? Hlt HF']; subst. constructor; [|now apply IH].
    intros Hin. apply in_map_iff in Hin. destruct Hin as (j & E & Hj).
    rewrite Forall_forall in HF'.
    assert (j = i) by (apply (proj1 (NoDup_nth L d) HL); auto).
    subst. contradiction.
Qed.

(** ** The per-color selection *)

Section Selection.

Variable argpartition : vec -> nat -> list nat.
Hypothesis argpartition_contract : argpartition_ok argpartition.

Variables (w_sums : vec) (colors : list string).
Hypothesis w_sums_long : (length colors <= length w_sums)%nat.

Variables (c : string) (ki : nat).
Hypothesis ki_range : (1 <= ki <= length (nonzero_eq c colors))%nat.

Let I_c := nonzero_eq c colors.
Let color_sums := map (fun i => nth i w_sums 0) I_c.
Let partition := argpartition color_sums (ki - 1).

Lemma color_sums_taken : take w_sums I_c = Ok color_sums.
Proof.
  apply take_Ok. apply Forall_forall. intros i Hi.
  apply nonzero_eq_In in Hi. lia.
Qed.

Lemma color_sums_length : length color_sums = length I_c.
Proof. apply length_map. Qed.

Lemma partition_called :
  np_argpartition argpartition color_sums (Z.of_nat ki - 1) = Ok partition.
Proof.
  unfold np_argpartition. rewrite color_sums_length.
  fold I_c in ki_range.
  replace (Z.of_nat ki - 1 <? 0)%Z with false
    by (symmetry; apply Z.ltb_ge; lia).
  replace (0 <=? Z.of_nat ki - 1)%Z with true
    by (symmetry; apply Z.leb_le; lia).
  replace (Z.of_nat ki - 1 <? Z.of_nat (length I_c))%Z with true
    by (symmetry; apply Z.ltb_lt; lia).
  simpl. unfold partition. do 2 f_equal. lia.
Qed.

Lemma partition_perm : Permutation partition (seq 0 (length I_c)).
Proof.
  rewrite <- color_sums_length. apply argpartition_contract.
  rewrite color_sums_length. fold I_c in ki_range. lia.
Qed.

Lemma partition_length : length partition = length I_c.
Proof.
  rewrite (Permutation_length partition_perm). apply length_seq.
Qed.

Lemma partition_bound :
  Forall (fun i => (i < length I_c)%nat) partition.
Proof.
  apply Forall_forall. intros i Hi.
  apply (Permutation_in _ partition_perm) in Hi.
  apply in_seq in Hi. lia.
Qed.

Lemma partition_NoDup : NoDup partition.
Proof.
  apply (Permutation_NoDup (Permutation_sym partition_perm)), seq_NoDup.
Qed.

Lemma min_indecies_chosen :
  min_indecies argpartition w_sums colors c ki
  = Ok (chosen argpartition w_sums colors c ki).
Proof.
  unfold min_indecies. fold I_c. rewrite color_sums_taken. simpl.
  rewrite partition_called. simpl.
  apply take_Ok. apply Forall_forall. intros a Ha.
  apply In_firstn in Ha.
  pose proof partition_bound as HB. rewrite Forall_forall in HB. auto.
Qed.

Lemma chosen_length : length (chosen argpartition w_sums colors c ki) = ki.
Proof.
  unfold chosen. fold I_c. fold color_sums. fold partition.
  rewrite length_map, length_firstn, partition_length.
  fold I_c in ki_range. lia.
Qed.

Lemma chosen_NoDup : NoDup (chosen argpartition w_sums colors c ki).
Proof.
  apply NoDup_map_nth.
  - apply nonzero_eq_NoDup.
  - apply NoDup_firstn, partition_NoDup.
  - apply Forall_forall. intros a Ha. apply In_firstn in Ha.
    pose proof partition_bound as HB. rewrite Forall_forall in HB. auto.
Qed.

Lemma chosen_incl : incl (chosen argpartition w_sums colors c ki) I_c.
Proof.
  intros i Hi. apply in_map_iff in Hi. destruct Hi as (a & <- & Ha).
  apply nth_In. apply In_firstn in Ha.
  pose proof partition_bound as HB. rewrite Forall_forall in HB. auto.
Qed.

Lemma chosen_color (i : nat) :
  In i (chosen argpartition w_sums colors c ki) ->
  (i < length colors)%nat /\ nth i colors EmptyString = c.
Proof. intros Hi. now apply nonzero_eq_In, chosen_incl. Qed.

Lemma color_sums_nth (a : nat) :
  (a < length I_c)%nat ->
  nth a color_sums 0 = nth (nth a I_c O) w_sums 0.
Proof.
  intros Ha. unfold color_sums.
  rewrite (nth_indep _ 0 (nth O w_sums 0)) by now rewrite length_map.
  now rewrite (map_nth (fun i => nth i w_sums 0)).
Qed.

(** No index of the color that was left out has a smaller sum than one
    that was chosen. *)
Lemma chosen_smallest (i j : nat) :
  In i (chosen argpartition w_sums colors c ki) ->
  In j I_c ->
  ~ In j (chosen argpartition w_sums colors c ki) ->
  nth i w_sums 0 <= nth j w_sums 0.
Proof.
  intros Hi Hj Hnj. unfold chosen in Hi, Hnj.
  fold I_c in Hi, Hnj. fold color_sums in Hi, Hnj. fold partition in Hi, Hnj.
  pose proof partition_bound as HB. rewrite Forall_forall in HB.
  fold I_c in ki_range.
  apply in_map_iff in Hi. destruct Hi as (a & <- & Ha).
  destruct (In_nth _ _ O Ha) as (x & Hx & Ex).
  rewrite length_firstn, partition_length in Hx.
  rewrite nth_firstn in Ex.
  replace (x <? ki)%nat with true in Ex by (symmetry; apply Nat.ltb_lt; lia).
  destruct (In_nth _ _ O Hj) as (b & Hb & Eb).
  assert (Hbp : In b partition).
  { apply (Permutation_in _ (Permutation_sym partition_perm)).
    apply in_seq. lia. }
  destruct (In_nth _ _ O Hbp) as (y & Hy & Ey).
  rewrite partition_length in Hy.
  assert (Hky : (ki <= y)%nat).
  { destruct (le_lt_dec ki y) as [|Hlt]; [assumption|]. exfalso.
    apply Hnj. apply in_map_iff. exists b. split; [exact Eb|].
    rewrite <- Ey.
    replace (nth y partition O) with (nth y (firstn ki partition) O).
    - apply nth_In. rewrite length_firstn, partition_length. lia.
    - rewrite nth_firstn.
      now replace (y <? ki)%nat with true
        by (symmetry; apply Nat.ltb_lt; lia). }
  subst a j b.
  rewrite <- !color_sums_nth;
    [| apply HB, nth_In; rewrite partition_length; lia ..].
  apply argpartition_contract; rewrite ?color_sums_length; lia.
Qed.

End Selection.

(** ** The loop over the colors *)

Lemma np_sum_app (a b : vec) : np_sum (a ++ b) == np_sum a + np_sum b.
Proof.
  induction a as [|x a IH]; simpl.
  - ring.
  - rewrite IH. ring.
Qed.

Lemma sum_at_app (w : vec) (a b : list nat) :
  sum_at w (a ++ b) == sum_at w a + sum_at w b.
Proof. unfold sum_at. rewrite map_app. apply np_sum_app. Qed.

Section ColorLoop.

Variable argpartition : vec -> nat -> list nat.
Variables (features : list point) (colors : list string) (w_sums : vec).

(** Whatever [argpartition] answers, a successful step only touches
    positions of its own color, and adds one there. *)
Lemma color_step_effect (X : vec) (Sr : list point) (W : Q)
      (e : string * nat) (X' : vec) (Sr' : list point) (W' : Q) :
  color_step argpartition features colors w_sums (X, Sr, W) e
    = Ok (X', Sr', W') ->
  length X' = length X /\
  forall i, (i < length X)%nat ->
    (nth i X' 0 = nth i X 0 \/
     (nth i X' 0 = nth i X 0 + 1 /\ nth i colors EmptyString = fst e)).
Proof.
  unfold color_step.
  destruct (min_indecies argpartition w_sums colors (fst e) (snd e))
    as [idx|] eqn:Eidx; simpl; [|discriminate].
  destruct (add_one_at X idx) as [X1|] eqn:EX; simpl; [|discriminate].
  destruct (take features idx) as [pts|]; simpl; [|discriminate].
  destruct (take w_sums idx) as [ws|]; simpl; [|discriminate].
  intros H. inversion H; subst. split.
  - eapply add_one_at_length; eassumption.
  - intros i Hi. rewrite (add_one_at_nth _ _ _ _ EX Hi).
    destruct (existsb (Nat.eqb i) idx) eqn:Ei; [right|now left].
    split; [reflexivity|].
    apply existsb_eqb_In in Ei.
    unfold min_indecies in Eidx.
    destruct (take w_sums (nonzero_eq (fst e) colors)); simpl in Eidx;
      [|discriminate].
    destruct (np_argpartition argpartition a (Z.of_nat (snd e) - 1));
      simpl in Eidx; [|discriminate].
    apply (take_inv _ O) in Eidx. destruct Eidx as [HF ->].
    apply in_map_iff in Ei. destruct Ei as (x & <- & Hx).
    rewrite Forall_forall in HF.
    apply nonzero_eq_In, nth_In, HF, Hx.
Qed.

Lemma color_loop_effect (kis : list (string * nat)) :
  forall (X : vec) (Sr : list point) (W : Q)
         (X' : vec) (Sr' : list point) (W' : Q),
  color_loop argpartition features colors w_sums kis (X, Sr, W)
    = Ok (X', Sr', W') ->
  length X' = length X /\
  forall i, (i < length X)%nat ->
    nth i X 0 <= nth i X' 0 /\
    (NoDup (map fst kis) -> nth i X' 0 <= nth i X 0 + 1) /\
    (~ In (nth i colors EmptyString) (map fst kis) ->
     nth i X' 0 = nth i X 0).
Proof.
  induction kis as [|e rest IH]; cbn [color_loop];
    intros X Sr W X' Sr' W' H.
  - inversion H; subst. split; [reflexivity|].
    intros i _. repeat split; intros; lra.
  - destruct (color_step argpartition features colors w_sums (X, Sr, W) e)
      as [[[X1 S1] W1]|] eqn:E1; cbn [bind] in H; [|discriminate].
    apply color_step_effect in E1. destruct E1 as [L1 P1].
    apply IH in H. destruct H as [L2 P2].
    split; [congruence|]. intros i Hi.
    assert (Hi1 : (i < length X1)%nat) by congruence.
    destruct (P2 i Hi1) as (Q1 & Q2 & Q3).
    destruct (P1 i Hi) as [E|[E Ec]].
    + repeat split.
      * rewrite <- E. exact Q1.
      * intros ND. inversion ND; subst. rewrite <- E. auto.
      * intros Hn. rewrite <- E. apply Q3. simpl in Hn. tauto.
    + repeat split.
      * rewrite E in Q1. lra.
      * intros ND. inversion ND as [|? ? Hnot ND']; subst.
        rewrite Q3, E; [lra|]. now rewrite Ec.
      * intros Hn. exfalso. apply Hn. left. now rewrite Ec.
Qed.

Hypothesis argpartition_contract : argpartition_ok argpartition.
Hypothesis features_length : length features = length colors.
Hypothesis w_sums_long : (length colors <= length w_sums)%nat.

Lemma color_step_Ok (X : vec) (Sr : list point) (W : Q)
      (e : string * nat) :
  length X = length colors ->
  (1 <= snd e <= length (nonzero_eq (fst e) colors))%nat ->
  exists X' Sr',
    color_step argpartition features colors w_sums (X, Sr, W) e
      = Ok (X', Sr',
            W + sum_at w_sums
                       (chosen argpartition w_sums colors (fst e) (snd e)))
    /\ length X' = length X.
Proof.
  intros LX Hk. unfold color_step.
  rewrite (min_indecies_chosen _ argpartition_contract _ _ w_sums_long _ _ Hk).
  cbn [bind].
  set (sel := chosen argpartition w_sums colors (fst e) (snd e)).
  assert (Hsel : Forall (fun i => (i < length colors)%nat) sel).
  { apply Forall_forall. intros i Hi.
    now apply (chosen_color _ argpartition_contract _ _ w_sums_long _ _ Hk)
      in Hi. }
  destruct (add_one_at_Ok X sel) as [X' EX].
  { now rewrite LX. }
  rewrite EX. cbn [bind].
  rewrite (take_Ok point (@nil Q) features sel)
    by (eapply Forall_impl; [|exact Hsel]; simpl; intros; lia).
  cbn [bind].
  rewrite (take_Ok Q 0 w_sums sel)
    by (eapply Forall_impl; [|exact Hsel]; simpl; intros; lia).
  cbn [bind]. exists X', (Sr ++ map (fun i => nth i features []) sel).
  split; [reflexivity|]. eapply add_one_at_length; eassumption.
Qed.

Lemma color_loop_Ok (kis : list (string * nat)) :
  quotas_ok colors kis ->
  forall (X : vec) (Sr : list point) (W : Q),
    length X = length colors ->
    exists X' Sr' W',
      color_loop argpartition features colors w_sums kis (X, Sr, W)
        = Ok (X', Sr', W')
      /\ W' == W + sum_at w_sums (chosen_all argpartition colors w_sums kis).
Proof.
  induction 1 as [|e rest He _ IH]; cbn [color_loop]; intros X Sr W LX.
  - exists X, Sr, W. split; [reflexivity|]. unfold sum_at. simpl. ring.
  - destruct (color_step_Ok X Sr W e LX He) as (X1 & S1 & E1 & L1).
    rewrite E1. cbn [bind].
    destruct (IH X1 S1
                 (W + sum_at w_sums
                        (chosen argpartition w_sums colors (fst e) (snd e))))
      as (X' & Sr' & W' & E & HW).
    { congruence. }
    exists X', Sr', W'. split; [exact E|].
    change (chosen_all argpartition colors w_sums (e :: rest))
      with (chosen argpartition w_sums colors (fst e) (snd e)
              ++ chosen_all argpartition colors w_sums rest).
    rewrite HW, sum_at_app. ring.
Qed.

Lemma chosen_all_length (kis : list (string * nat)) :
  quotas_ok colors kis ->
  length (chosen_all argpartition colors w_sums kis) = kis_total kis.
Proof.
  induction 1 as [|e rest He _ IH]; simpl; [reflexivity|].
  rewrite length_app, IH.
  now rewrite (chosen_length _ argpartition_contract _ _ w_sums_long _ _ He).
Qed.

Lemma chosen_all_color (kis : list (string * nat)) (i : nat) :
  quotas_ok colors kis -> In i (chosen_all argpartition colors w_sums kis) ->
  (i < length colors)%nat /\ In (nth i colors EmptyString) (map fst kis).
Proof.
  induction 1 as [|e rest He _ IH]; simpl; [tauto|].
  intros Hi. apply in_app_or in Hi. destruct Hi as [Hi|Hi].
  - apply (chosen_color _ argpartition_contract _ _ w_sums_long _ _ He) in Hi.
    intuition.
  - intuition.
Qed.

Lemma chosen_all_NoDup (kis : list (string * nat)) :
  quotas_ok colors kis -> NoDup (map fst kis) ->
  NoDup (chosen_all argpartition colors w_sums kis).
Proof.
  induction 1 as [|e rest He Hrest IH]; simpl; intros ND; [constructor|].
  inversion ND as [|? ? Hnot ND']; subst.
  apply NoDup_app.
  - apply (chosen_NoDup _ argpartition_contract _ _ w_sums_long _ _ He).
  - now apply IH.
  - intros i Hi Hi'.
    apply (chosen_color _ argpartition_contract _ _ w_sums_long _ _ He) in Hi.
    apply (chosen_all_color _ _ Hrest) in Hi'.
    destruct Hi as [_ Ec]. rewrite Ec in Hi'. tauto.
Qed.

End ColorLoop.

(** ** The [for] loop *)

(** The early-stop test changes neither [h] nor [X], and never returns. *)
Lemma early_stop_keeps (run_query : list point -> Q -> vec -> vec)
      (cad : cadence) (gen : nat -> nat) (gamma epsilon : Q)
      (features : list point) (t : nat) (st : state) :
  exists st',
    (early_stop run_query cad gen gamma epsilon features t st = Continue st'
     \/ early_stop run_query cad gen gamma epsilon features t st = Break st')
    /\ st_h st' = st_h st /\ st_X st' = st_X st.
Proof.
  unfold early_stop.
  destruct (check_due cad t (st_wait st)).
  - destruct (negb _); destruct cad; eexists; split; eauto.
  - destruct cad; eexists; split; eauto.
Qed.

Section LoopFacts.

Variable run_query : list point -> Q -> vec -> vec.
Variable get_counts_in_range : list point -> list point -> Q -> list nat.
Variable argpartition : vec -> nat -> list nat.
Variables (cad : cadence) (gen : nat -> nat).
Variables (gamma : Q) (mu : Z) (scaled_eps epsilon : Q).
Variables (features : list point) (colors : list string).
Variable kis : list (string * nat).

Let select := selection run_query argpartition gamma features colors kis.
Let stop := early_stop run_query cad gen gamma epsilon features.
Let pass :=
  body run_query get_counts_in_range argpartition cad gen gamma mu
       scaled_eps epsilon features colors kis.
Let loop :=
  for_range run_query get_counts_in_range argpartition cad gen gamma mu
            scaled_eps epsilon features colors kis.
Let at_pass :=
  state_at run_query get_counts_in_range argpartition cad gen gamma mu
           scaled_eps epsilon features colors kis.

(** What a pass that ends without an exception went through. *)
Lemma body_inv (t : nat) (st : state) (fl : flow) :
  pass t st = Ok fl ->
  exists X' Sr W,
    select (st_h st) (st_X st) = Ok (X', Sr, W) /\
    ((1 <= W /\ fl = ReturnNone) \/
     (~ 1 <= W /\
      exists M h',
        compute_M (length (st_h st)) mu
                  (get_counts_in_range Sr features (gamma / 2)) = Ok M /\
        update_h scaled_eps (st_h st) M = Ok h' /\
        fl = stop t (mkState h' X' (st_wait st) (st_drawn st)))).
Proof.
  unfold pass, body. fold select.
  destruct (select (st_h st) (st_X st)) as [[[X' Sr] W]|];
    cbn [bind]; [|discriminate].
  intros H. exists X', Sr, W. split; [reflexivity|].
  destruct (Qle_bool 1 W) eqn:EW.
  - left. apply Qle_bool_iff in EW. inversion H. auto.
  - right. split.
    + intros HW. apply Qle_bool_iff in HW. congruence.
    + destruct (compute_M _ mu _) as [M|] eqn:EM; cbn [bind] in H;
        [|discriminate].
      destruct (update_h scaled_eps (st_h st) M) as [h'|] eqn:Eh;
        cbn [bind] in H; [|discriminate].
      exists M, h'. inversion H. auto.
Qed.

(** [return None] is taken exactly when the selection went through and
    its weight reached one; nothing after the selection is looked at. *)
Lemma body_ReturnNone_iff (t : nat) (st : state) :
  pass t st = Ok ReturnNone <->
  exists X' Sr W,
    select (st_h st) (st_X st) = Ok (X', Sr, W) /\ 1 <= W.
Proof.
  split.
  - intros H. destruct (body_inv _ _ _ H) as (X' & Sr & W & E & [[HW _]|R]).
    + eauto.
    + destruct R as (_ & M & h' & _ & _ & Efl).
      destruct (early_stop_keeps run_query cad gen gamma epsilon features t
                  (mkState h' X' (st_wait st) (st_drawn st)))
        as (st' & [E'|E'] & _); unfold stop in Efl; congruence.
  - intros (X' & Sr & W & E & HW).
    unfold pass, body. fold select. rewrite E. cbn [bind].
    apply Qle_bool_iff in HW. now rewrite HW.
Qed.

Variable st0 : state.

Lemma state_at_prefix (u : nat) (st_u : state) :
  at_pass u st0 = Some st_u ->
  forall t, (t <= u)%nat -> exists st, at_pass t st0 = Some st.
Proof.
  revert st_u. induction u as [|u IH]; intros st_u H t Ht.
  - replace t with O by lia. eauto.
  - destruct (Nat.eq_dec t (S u)) as [->|Hne]; [eauto|].
    unfold at_pass in H. cbn [state_at] in H. fold at_pass in H.
    destruct (at_pass u st0) as [st|] eqn:E; [|discriminate].
    apply (IH st eq_refl). lia.
Qed.

Lemma state_at_step (t : nat) (st st' : state) :
  at_pass t st0 = Some st ->
  (at_pass (S t) st0 = Some st' <-> pass t st = Ok (Continue st')).
Proof.
  intros H. unfold at_pass. cbn [state_at]. fold at_pass. rewrite H.
  fold pass. split.
  - destruct (pass t st) as [[s|s|]|]; congruence.
  - intros ->. reflexivity.
Qed.

(** How the loop is left, read off the sequence of states. *)
Lemma for_range_exit (n : nat) :
  forall (t : nat) (st : state) (ex : loop_exit),
  at_pass t st0 = Some st ->
  loop n t (last_of t) st = Ok ex ->
  match ex with
  | ReturnedNone u =>
      (t <= u < t + n)%nat /\
      exists st_u, at_pass u st0 = Some st_u /\ pass u st_u = Ok ReturnNone
  | Broke u st' =>
      (t <= u < t + n)%nat /\
      exists st_u,
        at_pass u st0 = Some st_u /\ pass u st_u = Ok (Break st')
  | Exhausted last st' =>
      at_pass (t + n) st0 = Some st' /\ last = last_of (t + n)
  end.
Proof.
  induction n as [|n IH]; intros t st ex Hst H.
  - unfold loop in H. cbn [for_range] in H. inversion H; subst.
    rewrite Nat.add_0_r. auto.
  - unfold loop in H. cbn [for_range] in H. fold pass in H. fold loop in H.
    destruct (pass t st) as [[st'|st'|]|] eqn:Ep; cbn [bind] in H;
      [| | |discriminate].
    + assert (Hst' : at_pass (S t) st0 = Some st')
        by now apply (state_at_step _ _ _ Hst).
      specialize (IH (S t) st' ex Hst' H).
      destruct ex as [last s|u s|u].
      * now rewrite Nat.add_succ_r.
      * destruct IH as [Hu R]. split; [lia|exact R].
      * destruct IH as [Hu R]. split; [lia|exact R].
    + inversion H; subst. split; [lia|eauto].
    + inversion H; subst. split; [lia|eauto].
Qed.

(** Conversely: a pass within the range that returns [None] ends the
    loop there. *)
Lemma for_range_ReturnedNone (n : nat) :
  forall (t : nat) (st : state) (last : option nat) (u : nat) (st_u : state),
  at_pass t st0 = Some st ->
  (t <= u < t + n)%nat ->
  at_pass u st0 = Some st_u ->
  pass u st_u = Ok ReturnNone ->
  loop n t last st = Ok (ReturnedNone u).
Proof.
  induction n as [|n IH]; intros t st last u st_u Hst Hu Hstu Hp; [lia|].
  unfold loop. cbn [for_range]. fold pass. fold loop.
  destruct (Nat.eq_dec u t) as [->|Hne].
  - assert (st_u = st) by congruence. subst. now rewrite Hp.
  - destruct (state_at_prefix _ _ Hstu (S t)) as [st' Hst']; [lia|].
    pose proof (proj1 (state_at_step _ _ _ Hst) Hst') as Ep.
    rewrite Ep. cbn [bind].
    apply (IH (S t) st' (Some t) u st_u); auto. lia.
Qed.

(** [X] never decreases from one pass to the next. *)
Lemma state_at_X_mono (t : nat) (st st' : state) :
  at_pass t st0 = Some st -> at_pass (S t) st0 = Some st' ->
  length (st_X st') = length (st_X st) /\
  forall i, nth i (st_X st) 0 <= nth i (st_X st') 0.
Proof.
  intros H H'. apply (state_at_step _ _ _ H) in H'.
  destruct (body_inv _ _ _ H') as (X' & Sr & W & E & [[_ ?]|R]);
    [discriminate|].
  destruct R as (_ & M & h' & _ & _ & Efl).
  destruct (early_stop_keeps run_query cad gen gamma epsilon features t
              (mkState h' X' (st_wait st) (st_drawn st)))
    as (s & [Es|Es] & _ & EX); unfold stop in Efl; rewrite Es in Efl;
    inversion Efl; subst s.
  cbn [st_X] in EX. rewrite EX.
  unfold select, selection in E.
  apply color_loop_effect in E. destruct E as [L P].
  split; [exact L|]. intros i.
  destruct (lt_dec i (length (st_X st))) as [Hi|Hi].
  - now apply P.
  - rewrite !nth_overflow by lia. lra.
Qed.

End LoopFacts.

(** ** Sums and the update of [h] *)

Lemma np_sum_nonneg (v : vec) : Forall (fun x => 0 <= x) v -> 0 <= np_sum v.
Proof.
  induction 1 as [|x v Hx _ IH]; simpl; lra.
Qed.

Lemma np_sum_pos (v : vec) :
  Forall (fun x => 0 < x) v -> v <> [] -> 0 < np_sum v.
Proof.
  intros H Hne. destruct H as [|x v Hx Hv]; [congruence|]. simpl.
  assert (0 <= np_sum v).
  { apply np_sum_nonneg. eapply Forall_impl; [|exact Hv].
    simpl. intros; lra. }
  lra.
Qed.

Lemma np_sum_div (v : vec) (c : Q) :
  np_sum (map (fun x => x / c) v) == np_sum v / c.
Proof.
  induction v as [|x v IH]; simpl.
  - unfold Qdiv. ring.
  - rewrite IH. unfold Qdiv. ring.
Qed.

Lemma np_sum_repeat (x : Q) (n : nat) :
  np_sum (repeat x n) == inject_Z (Z.of_nat n) * x.
Proof.
  induction n as [|n IH].
  - simpl. ring.
  - cbn [repeat np_sum fold_right]. fold (np_sum (repeat x n)). rewrite IH.
    rewrite Nat2Z.inj_succ. unfold Z.succ. rewrite inject_Z_plus. ring.
Qed.

Lemma inject_Z_pos (z : Z) : (0 < z)%Z -> 0 < inject_Z z.
Proof. intros H. rewrite Zlt_Qlt in H. exact H. Qed.

Lemma inject_Z_le (a b : Z) : (a <= b)%Z -> inject_Z a <= inject_Z b.
Proof. intros H. rewrite Zle_Qle in H. exact H. Qed.

Lemma Qdiv_4 (x : Q) : x / 4 == x * (1 # 4).
Proof. field. Qed.

Lemma Qdiv_2 (x : Q) : x / 2 == x * (1 # 2).
Proof. field. Qed.

Lemma scaled_epsilon_range (epsilon : Q) :
  0 < epsilon ->
  0 < scaled_epsilon epsilon /\ scaled_epsilon epsilon < epsilon.
Proof.
  intros H. unfold scaled_epsilon.
  pose proof (Qdiv_4 epsilon) as Hq. set (q := epsilon / 4) in *.
  split.
  - apply Qlt_shift_div_l; lra.
  - apply Qlt_shift_div_r; [lra|]. nra.
Qed.

Lemma pydiv_Ok (a b : Q) : ~ b == 0 -> pydiv a b = Ok (a / b).
Proof.
  intros H. unfold pydiv. destruct (Qeq_bool b 0) eqn:E; [|reflexivity].
  apply Qeq_bool_iff in E. contradiction.
Qed.

Lemma pydiv_zero (a b : Q) : b == 0 -> pydiv a b = Raise ZeroDivisionError.
Proof. intros H. unfold pydiv. now rewrite (Qeq_eq_bool _ _ H). Qed.

(** An entry of [M] is at most [1/mu <= 1]. *)
Lemma M_entry_le_1 (mu : Z) (c : nat) :
  (1 <= mu)%Z -> 1 / inject_Z mu * (inject_Z (-1 * Z.of_nat c) + 1) <= 1.
Proof.
  intros Hmu.
  assert (Hpos : 0 < inject_Z mu) by (apply inject_Z_pos; lia).
  assert (Ha : 0 < 1 / inject_Z mu) by (apply Qlt_shift_div_l; lra).
  assert (Hb : 1 / inject_Z mu <= 1).
  { apply Qle_shift_div_r; [exact Hpos|].
    assert (inject_Z 1 <= inject_Z mu) by (apply inject_Z_le; lia).
    change (inject_Z 1) with 1 in *. lra. }
  assert (Hc : inject_Z (-1 * Z.of_nat c) <= 0).
  { change 0 with (inject_Z 0). apply inject_Z_le. lia. }
  set (a := 1 / inject_Z mu) in *.
  set (b := inject_Z (-1 * Z.of_nat c)) in *.
  nra.
Qed.

(** [M] has the shape of [h], and no entry above one. *)
Lemma compute_M_inv (n : nat) (mu : Z) (Cs : list nat) (M : vec) :
  (1 <= mu)%Z -> compute_M n mu Cs = Ok M ->
  length M = n /\ Forall (fun m => m <= 1) M.
Proof.
  intros Hmu. unfold compute_M.
  assert (Hrep : forall j, Forall (fun m => m <= 1) (repeat 0 j)).
  { intros j. apply Forall_forall. intros x Hx.
    apply repeat_spec in Hx. subst. lra. }
  destruct Cs as [|c Cs].
  - intros H. injection H as <-. split; [apply repeat_length|apply Hrep].
  - assert (Hpos : 0 < inject_Z mu) by (apply inject_Z_pos; lia).
    rewrite pydiv_Ok by lra. cbn [bind].
    remember (c :: Cs) as L eqn:EL.
    destruct (n <? length L)%nat eqn:E; [discriminate|].
    apply Nat.ltb_ge in E. intros H. injection H as <-. split.
    + rewrite length_app, length_map, repeat_length. lia.
    + apply Forall_app. split; [|apply Hrep].
      apply Forall_forall. intros x Hx. apply in_map_iff in Hx.
      destruct Hx as (c' & <- & _). now apply M_entry_le_1.
Qed.

Lemma compute_M_Ok (n : nat) (mu : Z) (Cs : list nat) :
  (1 <= mu)%Z -> (length Cs <= n)%nat -> exists M, compute_M n mu Cs = Ok M.
Proof.
  intros Hmu HL. unfold compute_M. destruct Cs as [|c Cs]; [eauto|].
  assert (Hpos : 0 < inject_Z mu) by (apply inject_Z_pos; lia).
  rewrite pydiv_Ok by lra. cbn [bind].
  replace (n <? length (c :: Cs))%nat with false; [eauto|].
  symmetry. now apply Nat.ltb_ge.
Qed.

(** The multiplicative update keeps [h] positive and the renormalization
    brings its sum back to one. *)
Lemma update_h_inv (scaled_eps : Q) (h M : vec) :
  0 <= scaled_eps -> scaled_eps < 4 ->
  Forall (fun x => 0 < x) h -> h <> [] ->
  length M = length h -> Forall (fun m => m <= 1) M ->
  exists h',
    update_h scaled_eps h M = Ok h' /\
    length h' = length h /\
    Forall (fun x => 0 < x) h' /\
    np_sum h' == 1.
Proof.
  intros Hs0 Hs4 Hh Hne HL HM. unfold update_h.
  set (h1 := map (fun hm => fst hm * (1 - scaled_eps / 4 * snd hm))
                 (combine h M)).
  assert (L1 : length h1 = length h).
  { unfold h1. rewrite length_map, length_combine. lia. }
  assert (P1 : Forall (fun x => 0 < x) h1).
  { apply Forall_forall. intros y Hy. apply in_map_iff in Hy.
    destruct Hy as ([x m] & <- & Hin). simpl.
    pose proof (in_combine_l _ _ _ _ Hin) as Hx.
    pose proof (in_combine_r _ _ _ _ Hin) as Hm.
    rewrite Forall_forall in Hh, HM.
    specialize (Hh _ Hx). specialize (HM _ Hm). simpl in Hh, HM.
    pose proof (Qdiv_4 scaled_eps) as Hq. set (q := scaled_eps / 4) in *.
    assert (q * m < 1).
    { assert (0 <= q * (1 - m)) by (apply Qmult_le_0_compat; lra).
      lra. }
    apply Qmult_lt_0_compat; lra. }
  assert (T1 : 0 < np_sum h1).
  { apply np_sum_pos; [exact P1|]. destruct h1; [|congruence].
    destruct h; [congruence|discriminate]. }
  destruct (Qeq_bool (np_sum h1) 0) eqn:E.
  { apply Qeq_bool_iff in E. lra. }
  eexists. split; [reflexivity|]. repeat split.
  - now rewrite length_map.
  - apply Forall_forall. intros y Hy. apply in_map_iff in Hy.
    destruct Hy as (x & <- & Hx). rewrite Forall_forall in P1.
    specialize (P1 _ Hx). simpl in P1. apply Qlt_shift_div_l; lra.
  - rewrite np_sum_div. field. lra.
Qed.

(** What an update that went through produced, whatever [M] was. *)
Lemma update_h_sum (scaled_eps : Q) (h M h' : vec) :
  update_h scaled_eps h M = Ok h' -> np_sum h' == 1.
Proof.
  unfold update_h.
  destruct (Qeq_bool _ 0) eqn:E; [discriminate|].
  apply Qeq_bool_neq in E. intros H. inversion H.
  rewrite np_sum_div. now field.
Qed.

(** ** One pass on a valid input *)

Lemma initial_state_good (N : nat) (wait : Z) (drawn : nat) :
  (1 <= N)%nat ->
  good_state N (initial_state N (1 / inject_Z (Z.of_nat N)) wait drawn).
Proof.
  intros HN. unfold good_state, initial_state. cbn [st_h st_X].
  assert (Hpos : 0 < inject_Z (Z.of_nat N)) by (apply inject_Z_pos; lia).
  rewrite !repeat_length. repeat split.
  - apply Forall_forall. intros x Hx. apply repeat_spec in Hx. subst.
    apply Qlt_shift_div_l; lra.
  - rewrite np_sum_repeat. field. lra.
Qed.

(** The color lists of distinct colors are disjoint, so the quotas of a
    valid input add up to at most [N]. *)
Lemma color_lists_NoDup (colors : list string) (kis : list (string * nat)) :
  NoDup (map fst kis) ->
  NoDup (flat_map (fun e => nonzero_eq (fst e) colors) kis).
Proof.
  induction kis as [|e rest IH]; simpl; intros ND; [constructor|].
  inversion ND as [|? ? Hnot ND']; subst.
  apply NoDup_app; [apply nonzero_eq_NoDup | now apply IH |].
  intros i Hi Hi'. apply nonzero_eq_In in Hi. destruct Hi as [_ Ec].
  apply in_flat_map in Hi'. destruct Hi' as (e' & He' & Hi').
  apply nonzero_eq_In in Hi'. destruct Hi' as [_ Ec'].
  apply Hnot. apply in_map_iff. exists e'. split; [congruence|exact He'].
Qed.

Lemma quotas_total_le (colors : list string) (kis : list (string * nat)) :
  NoDup (map fst kis) -> quotas_ok colors kis ->
  (kis_total kis <= length colors)%nat.
Proof.
  intros ND HQ.
  apply Nat.le_trans
    with (length (flat_map (fun e => nonzero_eq (fst e) colors) kis)).
  - clear ND. unfold kis_total.
    induction HQ as [|e rest He _ IH]; simpl; [lia|].
    rewrite length_app. simpl in He. lia.
  - rewrite <- (length_seq (length colors) 0).
    apply NoDup_incl_length; [now apply color_lists_NoDup|].
    intros i Hi. apply in_flat_map in Hi. destruct Hi as (e & _ & Hi).
    apply nonzero_eq_In in Hi. apply in_seq. lia.
Qed.

Section ValidPass.

Variable run_query : list point -> Q -> vec -> vec.
Variable get_counts_in_range : list point -> list point -> Q -> list nat.
Variable argpartition : vec -> nat -> list nat.
Hypothesis run_query_contract : run_query_ok run_query.
Hypothesis counts_contract : counts_ok get_counts_in_range.
Hypothesis argpartition_contract : argpartition_ok argpartition.

Variables (cad : cadence) (gen : nat -> nat).
Variables (gamma : Q) (mu : Z) (scaled_eps epsilon : Q).
Variables (features : list point) (colors : list string).
Variable kis : list (string * nat).
Variable N : nat.

Hypothesis features_N : length features = N.
Hypothesis colors_N : length colors = N.
Hypothesis quotas : quotas_ok colors kis.
Hypothesis mu_pos : (1 <= mu)%Z.
Hypothesis scaled_eps_range : 0 <= scaled_eps /\ scaled_eps < 4.
Hypothesis N_pos : (1 <= N)%nat.

Let pass :=
  body run_query get_counts_in_range argpartition cad gen gamma mu
       scaled_eps epsilon features colors kis.
Let loop :=
  for_range run_query get_counts_in_range argpartition cad gen gamma mu
            scaled_eps epsilon features colors kis.

(** A pass from a good state raises nothing: it returns [None] when the
    weight of its selection reaches one, and otherwise hands a good
    state on. *)
Lemma body_progress (t : nat) (st : state) :
  good_state N st ->
  (1 <= round_weight run_query argpartition gamma features colors kis
                     (st_h st)
   /\ pass t st = Ok ReturnNone) \/
  (~ 1 <= round_weight run_query argpartition gamma features colors kis
                       (st_h st) /\
   exists st',
     (pass t st = Ok (Continue st') \/ pass t st = Ok (Break st')) /\
     good_state N st').
Proof.
  intros (Lh & LX & Hpos & Hsum).
  set (w_sums := run_query features (gamma / 2) (st_h st)).
  assert (Lw : (length colors <= length w_sums)%nat).
  { unfold w_sums. rewrite run_query_contract. lia. }
  assert (Lf : length features = length colors) by congruence.
  assert (LX' : length (st_X st) = length colors) by congruence.
  destruct (color_loop_Ok argpartition features colors w_sums
              argpartition_contract Lf Lw kis quotas (st_X st) [] 0 LX')
    as (X' & Sr & W & E & HW).
  assert (EW : W == round_weight run_query argpartition gamma features colors
                                 kis (st_h st)).
  { rewrite HW. unfold round_weight. fold w_sums. ring. }
  pose proof (color_loop_effect _ _ _ _ _ _ _ _ _ _ _ E) as [LX1 _].
  unfold pass, body, selection. fold w_sums. rewrite E. cbn [bind].
  destruct (Qle_bool 1 W) eqn:EB.
  - left. apply Qle_bool_iff in EB. split; [now rewrite <- EW|reflexivity].
  - right. split.
    { intros HC. rewrite <- EW in HC. apply Qle_bool_iff in HC. congruence. }
    set (Cs := get_counts_in_range Sr features (gamma / 2)).
    assert (LCs : length Cs = length (st_h st)).
    { unfold Cs. rewrite counts_contract. congruence. }
    destruct (compute_M_Ok (length (st_h st)) mu Cs mu_pos) as [M EM];
      [lia|].
    rewrite EM. cbn [bind].
    destruct (compute_M_inv _ _ _ _ mu_pos EM) as [LM HM].
    destruct (update_h_inv scaled_eps (st_h st) M)
      as (h' & Eh & Lh' & Ph' & Sh');
      try tauto.
    { intros Hnil. rewrite Hnil in Lh. simpl in Lh. lia. }
    rewrite Eh. cbn [bind].
    destruct (early_stop_keeps run_query cad gen gamma epsilon features t
                (mkState h' X' (st_wait st) (st_drawn st)))
      as (st' & Hst' & Eh' & EX').
    exists st'. split.
    + destruct Hst' as [-> | ->]; auto.
    + unfold good_state. rewrite Eh', EX'. cbn [st_h st_X].
      repeat split; try assumption; congruence.
Qed.

(** Started in a good state, the loop ends without an exception. *)
Lemma for_range_total (n : nat) :
  forall t last st, good_state N st -> exists ex, loop n t last st = Ok ex.
Proof.
  induction n as [|n IH]; intros t last st Hgood.
  - eexists. reflexivity.
  - unfold loop. cbn [for_range]. fold pass. fold loop.
    destruct (body_progress t st Hgood)
      as [[_ ->]|(_ & st' & [-> | ->] & Hgood')]; cbn [bind]; eauto.
Qed.

End ValidPass.

(** ** The number of passes *)

Lemma passes_zero (T : Q) : T == 0 -> passes T = O.
Proof. intros H. unfold passes. now rewrite H. Qed.

Lemma passes_pos (T : Q) : 0 < T -> (1 <= passes T)%nat.
Proof.
  intros H. unfold passes.
  pose proof (Qle_ceiling T) as HC.
  assert (HZ : (0 < Qceiling T)%Z).
  { rewrite Zlt_Qlt. change (inject_Z 0) with 0. lra. }
  lia.
Qed.

Section Budget.

Variable math_log : nat -> Q.

Lemma raw_T_pos (N k : nat) (epsilon : Q) :
  (2 <= k)%nat -> 0 < epsilon -> 0 < math_log N ->
  0 < raw_T math_log N k epsilon.
Proof.
  intros Hk He HL. unfold raw_T.
  destruct (scaled_epsilon_range epsilon He) as [Hs _].
  apply Qmult_lt_0_compat; [|exact HL].
  apply Qlt_shift_div_l.
  - now apply Qmult_lt_0_compat.
  - rewrite Qmult_0_l. apply inject_Z_pos. unfold mu_of. lia.
Qed.

Lemma raw_T_zero_k (N : nat) (epsilon : Q) :
  raw_T math_log N 1 epsilon == 0.
Proof.
  unfold raw_T, mu_of. change (inject_Z (8 * (Z.of_nat 1 - 1))) with 0.
  unfold Qdiv. ring.
Qed.

Lemma raw_T_zero_log (N k : nat) (epsilon : Q) :
  math_log N == 0 -> raw_T math_log N k epsilon == 0.
Proof. intros H. unfold raw_T. rewrite H. ring. Qed.

End Budget.

(** ** The prologue *)

Section Prologue.

Variable math_log : nat -> Q.
Variable run_query : list point -> Q -> vec -> vec.
Variable get_counts_in_range : list point -> list point -> Q -> list nat.
Variable argpartition : vec -> nat -> list nat.

Variables (gamma : Q) (N k : nat).
Variables (features : list point) (colors : list string).
Variable kis : list (string * nat).
Variable epsilon : Q.

Hypothesis k_pos : (1 <= k)%nat.
Hypothesis N_pos : (1 <= N)%nat.
Hypothesis epsilon_pos : 0 < epsilon.

Lemma prologue_divisions :
  pydiv epsilon (1 + epsilon / 4) = Ok (scaled_epsilon epsilon) /\
  pydiv 1 (inject_Z (Z.of_nat N)) = Ok (1 / inject_Z (Z.of_nat N)) /\
  theoretical_T math_log N (mu_of k) (scaled_epsilon epsilon)
  = Ok (raw_T math_log N k epsilon).
Proof.
  destruct (scaled_epsilon_range epsilon epsilon_pos) as [Hs _].
  assert (Hn : 0 < inject_Z (Z.of_nat N)) by (apply inject_Z_pos; lia).
  pose proof (Qdiv_4 epsilon) as Hq.
  repeat split.
  - apply pydiv_Ok. set (q := epsilon / 4) in *. lra.
  - apply pydiv_Ok. lra.
  - unfold theoretical_T. rewrite pydiv_Ok; [reflexivity|].
    assert (0 < scaled_epsilon epsilon * scaled_epsilon epsilon)
      by now apply Qmult_lt_0_compat.
    lra.
Qed.

(** With [k > 0], [N > 0] and [epsilon > 0] the prologue raises nothing
    and the loop is entered. *)
Lemma mult_weight_upd_loop_eq (gen : nat -> nat) (percent : Q) :
  mult_weight_upd_loop math_log run_query get_counts_in_range argpartition
                       gen gamma N k features colors kis epsilon percent
  = for_range run_query get_counts_in_range argpartition Stochastic gen
              gamma (mu_of k) (scaled_epsilon epsilon) epsilon
              features colors kis
              (passes (raw_T math_log N k epsilon * percent)) 0 None
              (start_state gen N).
Proof.
  unfold mult_weight_upd_loop.
  replace (0 <? k)%nat with true by (symmetry; apply Nat.ltb_lt; lia).
  destruct prologue_divisions as (E1 & E2 & E3).
  rewrite E1. cbn [bind]. rewrite E2. cbn [bind].
  fold (mu_of k). rewrite E3. reflexivity.
Qed.

Lemma multweights_loop_eq :
  multweights_mult_weight_upd_loop math_log run_query get_counts_in_range
                                   argpartition gamma N k features colors
                                   kis epsilon
  = for_range run_query get_counts_in_range argpartition Every50
              (fun _ => O) gamma (mu_of k) (scaled_epsilon epsilon) epsilon
              features colors kis
              (passes (raw_T math_log N k epsilon)) 0 None
              (multweights_start_state N).
Proof.
  unfold multweights_mult_weight_upd_loop.
  replace (0 <? k)%nat with true by (symmetry; apply Nat.ltb_lt; lia).
  destruct prologue_divisions as (E1 & E2 & E3).
  rewrite E1. cbn [bind]. rewrite E2. cbn [bind].
  fold (mu_of k). rewrite E3. reflexivity.
Qed.

End Prologue.

(** ** The result of a run of the loop *)

Section Run.

Variable run_query : list point -> Q -> vec -> vec.
Variable get_counts_in_range : list point -> list point -> Q -> list nat.
Variable argpartition : vec -> nat -> list nat.
Variables (cad : cadence) (gen : nat -> nat).
Variables (gamma : Q) (mu : Z) (scaled_eps epsilon : Q).
Variables (features : list point) (colors : list string).
Variable kis : list (string * nat).
Variables (n : nat) (st0 : state).

Let result : res (option vec) :=
  ex <- for_range run_query get_counts_in_range argpartition cad gen gamma
                  mu scaled_eps epsilon features colors kis n 0 None st0 ;;
  finish ex.

Lemma run_None_iff :
  result = Ok None <->
  weight_reaches_one run_query get_counts_in_range argpartition cad gen
                     gamma mu scaled_eps epsilon features colors kis n st0.
Proof.
  unfold result, weight_reaches_one. split.
  - destruct (for_range _ _ _ _ _ _ _ _ _ _ _ _ n 0 None st0)
      as [ex|] eqn:E; cbn [bind]; [|discriminate].
    intros Hf.
    pose proof (for_range_exit run_query get_counts_in_range argpartition
                  cad gen gamma mu scaled_eps epsilon features colors kis
                  st0 n 0 st0 ex eq_refl E) as Hex.
    destruct ex as [[t|] st|t st|t]; cbn in Hf; try discriminate.
    destruct Hex as (Ht & st_u & Hst & Hp).
    apply body_ReturnNone_iff in Hp.
    destruct Hp as (X' & Sr & W & Hsel & HW).
    exists t, st_u, X', Sr, W. repeat split; auto. lia.
  - intros (t & st & X' & Sr & W & Ht & Hst & Hsel & HW).
    rewrite (for_range_ReturnedNone run_query get_counts_in_range
               argpartition cad gen gamma mu scaled_eps epsilon features
               colors kis st0 n 0 st0 None t st eq_refl); cbn [bind finish].
    + reflexivity.
    + lia.
    + exact Hst.
    + apply body_ReturnNone_iff. eauto.
Qed.

Hypothesis run_query_contract : run_query_ok run_query.
Hypothesis counts_contract : counts_ok get_counts_in_range.
Hypothesis argpartition_contract : argpartition_ok argpartition.

Variable N : nat.
Hypothesis features_N : length features = N.
Hypothesis colors_N : length colors = N.
Hypothesis quotas : quotas_ok colors kis.
Hypothesis mu_pos : (1 <= mu)%Z.
Hypothesis scaled_eps_range : 0 <= scaled_eps /\ scaled_eps < 4.
Hypothesis N_pos : (1 <= N)%nat.
Hypothesis start_good : good_state N st0.
Hypothesis n_pos : (1 <= n)%nat.

(** On a valid input the run ends with [None] or with a vector. *)
Lemma run_no_raise : result = Ok None \/ exists X, result = Ok (Some X).
Proof.
  unfold result.
  destruct (for_range_total run_query get_counts_in_range argpartition
              run_query_contract counts_contract argpartition_contract
              cad gen gamma mu scaled_eps epsilon features colors kis N
              features_N colors_N quotas mu_pos scaled_eps_range N_pos
              n 0 None st0 start_good) as [ex E].
  rewrite E. cbn [bind].
  pose proof (for_range_exit run_query get_counts_in_range argpartition
                cad gen gamma mu scaled_eps epsilon features colors kis
                st0 n 0 st0 ex eq_refl E) as Hex.
  destruct ex as [last st|t st|t]; cbn [finish].
  - destruct Hex as [_ ->]. destruct n as [|n']; [lia|].
    cbn. right. eauto.
  - right. eauto.
  - now left.
Qed.

End Run.

(** ** The concrete collaborators meet what is assumed *)

Lemma ball_sum_ok : run_query_ok ball_sum.
Proof. intros features r w. apply length_map. Qed.

Lemma ball_count_ok : counts_ok ball_count.
Proof. intros centers queries r. apply length_map. Qed.

Lemma Qlt_bool_iff (a b : Q) : Qlt_bool a b = true <-> a < b.
Proof.
  unfold Qlt_bool. rewrite negb_true_iff. split.
  - intros H. apply Qnot_le_lt. intros HC.
    apply Qle_bool_iff in HC. congruence.
  - intros H. destruct (Qle_bool b a) eqn:E; [|reflexivity].
    apply Qle_bool_iff in E. lra.
Qed.

Lemma Qlt_bool_false (a b : Q) : Qlt_bool a b = false -> b <= a.
Proof.
  unfold Qlt_bool. rewrite negb_false_iff. apply Qle_bool_iff.
Qed.

(** The scan returns a smallest value of the candidates, with a position
    that holds it. *)
Lemma first_min_spec (v : vec) (rest : list nat) :
  forall (pos minidx : nat) (minval : Q) (m : nat) (val : Q),
  first_min v rest pos minidx minval = (m, val) ->
  val <= minval /\
  Forall (fun y => val <= nth y v 0) rest /\
  ((m = minidx /\ val = minval) \/
   ((pos <= m < pos + length rest)%nat /\
    val = nth (nth (m - pos) rest O) v 0)).
Proof.
  induction rest as [|y rest IH]; intros pos minidx minval m val H.
  - simpl in H. inversion H; subst. repeat split; [lra|constructor|now left].
  - cbn [first_min] in H.
    destruct (Qlt_bool (nth y v 0) minval) eqn:E.
    + apply Qlt_bool_iff in E.
      destruct (IH _ _ _ _ _ H) as (H1 & H2 & H3).
      repeat split; [lra | constructor; assumption |].
      right. destruct H3 as [[-> ->]|[Hm ->]].
      * split; [simpl; lia|]. now rewrite Nat.sub_diag.
      * split; [simpl; lia|].
        replace (m - pos)%nat with (S (m - S pos)) by lia. reflexivity.
    + apply Qlt_bool_false in E.
      destruct (IH _ _ _ _ _ H) as (H1 & H2 & H3).
      repeat split; [lra | constructor; [lra|assumption] |].
      destruct H3 as [H3|[Hm ->]]; [now left|right].
      split; [simpl; lia|].
      replace (m - pos)%nat with (S (m - S pos)) by lia. reflexivity.
Qed.

Lemma nth_split_at (j : nat) (r : list nat) (x : nat) :
  (j < length r)%nat -> firstn j r ++ nth j r x :: skipn (S j) r = r.
Proof.
  revert j. induction r as [|a r IH]; intros j Hj; simpl in Hj; [lia|].
  destruct j as [|j]; [reflexivity|]. simpl. f_equal. apply IH. lia.
Qed.

Lemma swap_head_perm (x : nat) (r : list nat) (m : nat) :
  (m <= length r)%nat -> Permutation (swap_head (x :: r) m) (x :: r).
Proof.
  intros Hm. destruct m as [|j]; simpl; [apply Permutation_refl|].
  pose proof (nth_split_at j r x Hm) as Hr.
  set (A := firstn j r) in *. set (C := skipn (S j) r) in *.
  set (b := nth j r x) in *.
  apply Permutation_trans with (b :: x :: A ++ C).
  - apply perm_skip. apply Permutation_sym, Permutation_middle.
  - apply Permutation_trans with (x :: b :: A ++ C); [apply perm_swap|].
    apply perm_skip. rewrite <- Hr. apply Permutation_middle.
Qed.

Lemma swap_head_head (x : nat) (r : list nat) (m : nat) :
  exists y r', swap_head (x :: r) m = y :: r' /\ y = nth m (x :: r) x.
Proof.
  destruct m as [|j]; simpl; eauto.
Qed.

(** One step of the selection puts a smallest element in front. *)
Lemma select_step (v : vec) (x : nat) (r : list nat) :
  exists y r',
    swap_head (x :: r) (fst (first_min v r 1 0 (nth x v 0))) = y :: r' /\
    Permutation (y :: r') (x :: r) /\
    Forall (fun z => nth y v 0 <= nth z v 0) (x :: r).
Proof.
  destruct (first_min v r 1 0 (nth x v 0)) as [m val] eqn:E.
  destruct (first_min_spec _ _ _ _ _ _ _ E) as (H1 & H2 & H3). cbn [fst].
  assert (Hm : (m <= length r)%nat) by (destruct H3 as [[-> _]|[? _]]; lia).
  destruct (swap_head_head x r m) as (y & r' & Es & Ey).
  exists y, r'. split; [exact Es|]. split.
  - rewrite <- Es. now apply swap_head_perm.
  - assert (Ev : nth y v 0 = val).
    { subst y. destruct H3 as [[-> ->]|[Hp ->]]; [reflexivity|].
      destruct m as [|j]; [lia|]. cbn [nth].
      replace (S j - 1)%nat with j by lia.
      f_equal. apply nth_indep. lia. }
    rewrite Ev. constructor; assumption.
Qed.

Lemma dumb_select_perm (v : vec) (steps : nat) :
  forall l, Permutation (dumb_select v steps l) l.
Proof.
  induction steps as [|s IH]; intros l; [apply Permutation_refl|].
  destruct l as [|x r]; [apply Permutation_refl|]. cbn [dumb_select].
  destruct (select_step v x r) as (y & r' & Es & Hp & _). rewrite Es.
  apply Permutation_trans with (y :: r'); [|exact Hp].
  apply perm_skip, IH.
Qed.

(** Each of the first [steps] places holds a value no larger than any
    placed after it. *)
Lemma dumb_select_sorted (v : vec) (steps : nat) :
  forall l i j,
    (i < steps)%nat -> (i <= j < length l)%nat ->
    nth (nth i (dumb_select v steps l) O) v 0
    <= nth (nth j (dumb_select v steps l) O) v 0.
Proof.
  induction steps as [|s IH]; intros l i j Hi Hj; [lia|].
  destruct l as [|x r]; [simpl in Hj; lia|]. cbn [dumb_select].
  destruct (select_step v x r) as (y & r' & Es & Hp & Hmin). rewrite Es.
  assert (Lr : length r' = length r).
  { apply Permutation_length in Hp. simpl in Hp. lia. }
  destruct i as [|i].
  - destruct j as [|j]; [simpl; lra|]. cbn [nth].
    rewrite Forall_forall in Hmin. apply Hmin.
    apply (Permutation_in _ Hp). right.
    apply (Permutation_in _ (dumb_select_perm v s r')).
    apply nth_In. rewrite (Permutation_length (dumb_select_perm v s r')).
    simpl in Hj. lia.
  - destruct j as [|j]; [lia|]. cbn [nth]. apply IH; [lia|].
    simpl in Hj. lia.
Qed.

Lemma numpy_argpartition_ok : argpartition_ok numpy_argpartition.
Proof.
  intros a kth Hk. unfold numpy_argpartition. split.
  - apply dumb_select_perm.
  - intros i j Hi Hj Hlt. apply dumb_select_sorted; [lia|].
    rewrite length_seq. lia.
Qed.

Lemma atanh_series_nonneg (x2 : Q) (terms : nat) :
  0 <= x2 ->
  forall pw d, 0 <= pw -> (0 < d)%Z -> 0 <= atanh_series x2 pw d terms.
Proof.
  intros Hx. induction terms as [|n IH]; intros pw d Hp Hd; simpl; [lra|].
  assert (0 <= pw / inject_Z d).
  { apply Qle_shift_div_l; [now apply inject_Z_pos|]. lra. }
  assert (0 <= atanh_series x2 (pw * x2) (d + 2) n).
  { apply IH; [|lia]. now apply Qmult_le_0_compat. }
  lra.
Qed.

Lemma ln_approx_ok : log_ok ln_approx.
Proof.
  split; [reflexivity|].
  intros n Hn. unfold ln_approx. rewrite Qred_correct.
  set (z := Z.of_nat n). set (e := Z.log2 z).
  assert (Hz : (2 <= z)%Z) by (unfold z; lia).
  assert (He : (1 <= e)%Z).
  { unfold e. change 1%Z with (Z.log2 2). now apply Z.log2_le_mono. }
  assert (Hpow : (2 ^ e <= z)%Z).
  { unfold e. apply Z.log2_spec. lia. }
  assert (Hpos : (0 < 2 ^ e)%Z) by (apply Z.pow_pos_nonneg; lia).
  assert (Hln2 : 0 < 2 * atanh_approx (1 # 3)) by reflexivity.
  assert (Hx : 0 <= inject_Z (z - 2 ^ e) / inject_Z (z + 2 ^ e)).
  { apply Qle_shift_div_l; [apply inject_Z_pos; lia|].
    rewrite Qmult_0_l. change 0 with (inject_Z 0). apply inject_Z_le. lia. }
  set (x := inject_Z (z - 2 ^ e) / inject_Z (z + 2 ^ e)) in *.
  assert (Ha : 0 <= atanh_approx x).
  { unfold atanh_approx. apply atanh_series_nonneg; [|exact Hx|lia].
    now apply Qmult_le_0_compat. }
  assert (Hie : 1 <= inject_Z e).
  { change 1 with (inject_Z 1). apply inject_Z_le. lia. }
  set (c := 2 * atanh_approx (1 # 3)) in *.
  nra.
Qed.

(** ** The example inputs are valid *)

Lemma quotas3_ok : quotas_ok colors3 kis3.
Proof. repeat constructor. Qed.

Lemma valid3 (percent : Q) :
  0 < percent /\ percent <= 1 ->
  valid_input 3 2 features3 colors3 kis3 (1 # 2) percent.
Proof.
  intros Hp. apply Build_valid_input.
  - reflexivity.
  - reflexivity.
  - reflexivity.
  - apply Nat.le_refl.
  - repeat constructor. simpl. tauto.
  - exact quotas3_ok.
  - split; reflexivity.
  - exact Hp.
Qed.

Lemma valid2 : valid_input 2 2 features2 colors2 kis2 (1 # 2) 1.
Proof.
  apply Build_valid_input.
  - reflexivity.
  - reflexivity.
  - reflexivity.
  - apply Nat.le_refl.
  - repeat constructor. simpl. tauto.
  - repeat constructor.
  - split; reflexivity.
  - split; [reflexivity|]. apply Qle_refl.
Qed.

(** * The properties of the specification *)

Section SolverProperties.

Variable math_log : nat -> Q.
Variable run_query : list point -> Q -> vec -> vec.
Variable get_counts_in_range : list point -> list point -> Q -> list nat.
Variable argpartition : vec -> nat -> list nat.
Hypothesis log_contract : log_ok math_log.
Hypothesis run_query_contract : run_query_ok run_query.
Hypothesis counts_contract : counts_ok get_counts_in_range.
Hypothesis argpartition_contract : argpartition_ok argpartition.

Variables (gen : nat -> nat) (gamma : Q) (N k : nat).
Variables (features : list point) (colors : list string).
Variable kis : list (string * nat).
Variables (epsilon percent : Q).
Hypothesis valid : valid_input N k features colors kis epsilon percent.

Lemma valid_N_ge_2 : (2 <= N)%nat.
Proof.
  destruct valid as [_ HC Hk Hk2 HND HQ _ _].
  pose proof (quotas_total_le colors kis HND HQ). lia.
Qed.

Lemma valid_passes :
  (1 <= passes (raw_T math_log N k epsilon * percent))%nat /\
  (1 <= passes (raw_T math_log N k epsilon))%nat.
Proof.
  pose proof valid_N_ge_2 as HN.
  destruct valid as [_ _ _ Hk2 _ _ [He _] [Hp _]].
  assert (HT : 0 < raw_T math_log N k epsilon).
  { apply raw_T_pos; auto. now apply log_contract. }
  split; apply passes_pos; [now apply Qmult_lt_0_compat | exact HT].
Qed.

Lemma valid_scaled_eps :
  0 <= scaled_epsilon epsilon /\ scaled_epsilon epsilon < 4.
Proof.
  destruct valid as [_ _ _ _ _ _ [He He1] _].
  destruct (scaled_epsilon_range epsilon He). lra.
Qed.

(** On a valid input neither variant raises. *)
Lemma solver_raises_nothing :
  (mult_weight_upd math_log run_query get_counts_in_range argpartition
                   gen gamma N k features colors kis epsilon percent
   = Ok None
   \/ exists X,
        mult_weight_upd math_log run_query get_counts_in_range
                        argpartition gen gamma N k features colors kis
                        epsilon percent
        = Ok (Some X))
  /\ (multweights_mult_weight_upd math_log run_query get_counts_in_range
                                  argpartition gamma N k features colors
                                  kis epsilon
      = Ok None
      \/ exists X,
           multweights_mult_weight_upd math_log run_query
                                       get_counts_in_range argpartition
                                       gamma N k features colors kis
                                       epsilon
           = Ok (Some X)).
Proof.
  pose proof valid_N_ge_2 as HN.
  pose proof valid_passes as [HP1 HP2].
  pose proof valid_scaled_eps as HS.
  destruct valid as [HF HC Hk Hk2 HND HQ [He He1] Hp].
  assert (Hmu : (1 <= mu_of k)%Z) by (unfold mu_of; lia).
  unfold mult_weight_upd, multweights_mult_weight_upd.
  rewrite mult_weight_upd_loop_eq, multweights_loop_eq by (auto; lia).
  split.
  - apply run_no_raise with (N := N); auto; try lia.
    apply initial_state_good. lia.
  - apply run_no_raise with (N := N); auto; try lia.
    apply initial_state_good. lia.
Qed.

(** C1.  On a valid input [mult_weight_upd] returns [None] exactly when
    some pass of its loop selects indices whose [w_sums] add up to at
    least one (the test reads only the selection of that pass, so it
    comes before the update of [h]); otherwise it returns a vector, and
    it raises nothing.  The same holds for the variant in
    multweights.py. *)
Theorem infeasible_iff_weight_reaches_one :
  (mult_weight_upd math_log run_query get_counts_in_range argpartition
                   gen gamma N k features colors kis epsilon percent
   = Ok None
   <-> weight_reaches_one run_query get_counts_in_range argpartition
         Stochastic gen gamma (mu_of k) (scaled_epsilon epsilon) epsilon
         features colors kis
         (passes (raw_T math_log N k epsilon * percent))
         (start_state gen N))
  /\ (mult_weight_upd math_log run_query get_counts_in_range argpartition
                      gen gamma N k features colors kis epsilon percent
      = Ok None
      \/ exists X,
           mult_weight_upd math_log run_query get_counts_in_range
                           argpartition gen gamma N k features colors kis
                           epsilon percent
           = Ok (Some X))
  /\ (multweights_mult_weight_upd math_log run_query get_counts_in_range
                                  argpartition gamma N k features colors
                                  kis epsilon
      = Ok None
      <-> weight_reaches_one run_query get_counts_in_range argpartition
            Every50 (fun _ => O) gamma (mu_of k) (scaled_epsilon epsilon)
            epsilon features colors kis
            (passes (raw_T math_log N k epsilon))
            (multweights_start_state N))
  /\ (multweights_mult_weight_upd math_log run_query get_counts_in_range
                                  argpartition gamma N k features colors
                                  kis epsilon
      = Ok None
      \/ exists X,
           multweights_mult_weight_upd math_log run_query
                                       get_counts_in_range argpartition
                                       gamma N k features colors kis
                                       epsilon
           = Ok (Some X)).
Proof.
  destruct solver_raises_nothing as [R1 R2].
  split; [|split; [exact R1|split; [|exact R2]]].
  - pose proof valid_N_ge_2 as HN.
    destruct valid as [HF HC Hk Hk2 HND HQ [He He1] Hp].
    unfold mult_weight_upd.
    rewrite mult_weight_upd_loop_eq by (auto; lia).
    apply run_None_iff.
  - pose proof valid_N_ge_2 as HN.
    destruct valid as [HF HC Hk Hk2 HND HQ [He He1] Hp].
    unfold multweights_mult_weight_upd.
    rewrite multweights_loop_eq by (auto; lia).
    apply run_None_iff.
Qed.

End SolverProperties.

(** The three far-apart points, [epsilon = 1/2], one percent of the
    theoretical limit, [gamma = 1]. *)
Lemma infeasible_iff_weight_reaches_one_witness :
  valid_input 3 2 features3 colors3 kis3 (1 # 2) (1 # 100) /\
  (mwu_concrete (fun _ => O) 1 3 2 features3 colors3 kis3 (1 # 2) (1 # 100)
   = Ok None
   \/ exists X,
        mwu_concrete (fun _ => O) 1 3 2 features3 colors3 kis3 (1 # 2)
                     (1 # 100)
        = Ok (Some X)).
Proof.
  assert (Hp : 0 < 1 # 100 /\ 1 # 100 <= 1)
    by (split; [reflexivity|discriminate]).
  split; [exact (valid3 (1 # 100) Hp)|].
  exact (proj1 (proj2
    (infeasible_iff_weight_reaches_one
       ln_approx ball_sum ball_count numpy_argpartition
       ln_approx_ok ball_sum_ok ball_count_ok numpy_argpartition_ok
       (fun _ => O) 1 3 2 features3 colors3 kis3 (1 # 2) (1 # 100)
       (valid3 (1 # 100) Hp)))).
Defined.

(** ** The stochastic cadence *)

Lemma integers_range (low high : Z) (raw : nat) :
  (low < high)%Z -> (low <= integers low high raw < high)%Z.
Proof.
  intros H. unfold integers.
  pose proof (Z.mod_pos_bound (Z.of_nat raw) (high - low)). lia.
Qed.

Section StochasticCadence.

Variable run_query : list point -> Q -> vec -> vec.
Variable get_counts_in_range : list point -> list point -> Q -> list nat.
Variable argpartition : vec -> nat -> list nat.
Variable gen : nat -> nat.
Variables (gamma : Q) (mu : Z) (scaled_eps epsilon : Q).
Variables (features : list point) (colors : list string).
Variable kis : list (string * nat).
Variable st0 : state.
Hypothesis first_wait : (st_wait st0 <= 100)%Z.

Let pass :=
  body run_query get_counts_in_range argpartition Stochastic gen gamma mu
       scaled_eps epsilon features colors kis.
Let at_pass :=
  state_at run_query get_counts_in_range argpartition Stochastic gen gamma
           mu scaled_eps epsilon features colors kis.

Lemma not_due (t : nat) :
  check_due Stochastic t (st_wait st0 - Z.of_nat t) = false.
Proof.
  unfold check_due. destruct (100 <? t)%nat eqn:E; [|reflexivity].
  apply Nat.ltb_lt in E. simpl. apply Z.eqb_neq. lia.
Qed.

(** A pass only counts the wait down: the test is not due. *)
Lemma stochastic_pass (t : nat) (st : state) (fl : flow) :
  st_wait st = (st_wait st0 - Z.of_nat t)%Z ->
  pass t st = Ok fl ->
  fl = ReturnNone \/
  exists st',
    fl = Continue st' /\
    st_wait st' = (st_wait st0 - Z.of_nat (S t))%Z /\
    st_drawn st' = st_drawn st.
Proof.
  intros Hw Hp.
  destruct (body_inv _ _ _ _ _ _ _ _ _ _ _ _ _ _ _ Hp)
    as (X' & Sr & W & _ & [[_ ->]|(_ & M & h' & _ & _ & ->)]);
    [now left|right].
  unfold early_stop. cbn [st_wait st_drawn st_h st_X].
  rewrite Hw, not_due. eexists. split; [reflexivity|].
  cbn [st_wait st_drawn]. split; [lia|reflexivity].
Qed.

Lemma stochastic_wait (t : nat) (st : state) :
  at_pass t st0 = Some st ->
  st_wait st = (st_wait st0 - Z.of_nat t)%Z /\ st_drawn st = st_drawn st0.
Proof.
  revert st. induction t as [|t IH]; intros st H.
  - inversion H; subst. split; [simpl; lia|reflexivity].
  - unfold at_pass in H. cbn [state_at] in H. fold at_pass in H.
    destruct (at_pass t st0) as [s|] eqn:Es; [|discriminate].
    destruct (IH s eq_refl) as [Hw Hd]. fold pass in H.
    destruct (pass t s) as [[st'|st'|]|] eqn:Ep; try discriminate.
    inversion H; subst st'.
    destruct (stochastic_pass t s _ Hw Ep) as [?|(s' & E & Hw' & Hd')];
      [discriminate|].
    inversion E; subst s'. split; [exact Hw'|congruence].
Qed.

Lemma stochastic_never_breaks (n : nat) :
  leaves_by_break
    (for_range run_query get_counts_in_range argpartition Stochastic gen
               gamma mu scaled_eps epsilon features colors kis
               n 0 None st0) = false.
Proof.
  destruct (for_range _ _ _ _ _ _ _ _ _ _ _ _ n 0 None st0)
    as [ex|] eqn:E; [|reflexivity].
  pose proof (for_range_exit run_query get_counts_in_range argpartition
                Stochastic gen gamma mu scaled_eps epsilon features colors
                kis st0 n 0 st0 ex eq_refl E) as Hex.
  destruct ex as [last st|u st|u]; try reflexivity.
  destruct Hex as (_ & st_u & Hst & Hp). exfalso.
  destruct (stochastic_wait u st_u Hst) as [Hw _].
  destruct (stochastic_pass u st_u _ Hw Hp) as [?|(s' & ? & _)];
    discriminate.
Qed.

End StochasticCadence.

(** The loop of fmmdmwu_nyoom.py is never left through [break]. *)
Lemma mult_weight_upd_loop_never_breaks
      (math_log : nat -> Q) (run_query : list point -> Q -> vec -> vec)
      (get_counts_in_range : list point -> list point -> Q -> list nat)
      (argpartition : vec -> nat -> list nat)
      (gen : nat -> nat) (gamma : Q) (N k : nat)
      (features : list point) (colors : list string)
      (kis : list (string * nat)) (epsilon percent : Q) :
  leaves_by_break
    (mult_weight_upd_loop math_log run_query get_counts_in_range
                          argpartition gen gamma N k features colors kis
                          epsilon percent) = false.
Proof.
  assert (Hd : (9 <= getNextSolutionCheckWait gen 0 <= 28)%Z).
  { unfold getNextSolutionCheckWait.
    pose proof (integers_range 9 29 (gen O)). lia. }
  unfold mult_weight_upd_loop.
  destruct (0 <? k)%nat; [|reflexivity].
  destruct (pydiv epsilon (1 + epsilon / 4)) as [se|]; [|reflexivity].
  cbn [bind].
  destruct (pydiv 1 (inject_Z (Z.of_nat N))) as [invN|]; [|reflexivity].
  cbn [bind].
  destruct (theoretical_T math_log N (Z.of_nat k - 1) se) as [T|];
    [|reflexivity].
  cbn [bind]. apply stochastic_never_breaks. simpl. lia.
Qed.

(** C3.  In fmmdmwu_nyoom.py the early-stop test is never reached.  The
    wait drawn before the loop, between 9 and 28, is counted down on every
    pass from the first one on, so at pass [t] it stands at that draw minus
    [t]: it passes zero during the warm-up and is negative once [t > 100].
    Hence no second draw is made, the query on [X / (t + 1)] is never
    issued, and the loop is never left through [break]. *)
Theorem early_stop_never_runs
        (math_log : nat -> Q) (run_query : list point -> Q -> vec -> vec)
        (get_counts_in_range : list point -> list point -> Q -> list nat)
        (argpartition : vec -> nat -> list nat)
        (gen : nat -> nat) (gamma : Q) (N k : nat)
        (features : list point) (colors : list string)
        (kis : list (string * nat)) (epsilon percent : Q) (t : nat) :
  (9 <= getNextSolutionCheckWait gen 0 <= 28)%Z /\
  match mwu_state_at run_query get_counts_in_range argpartition gen gamma
                     N k features colors kis epsilon t with
  | Some st =>
      st_wait st = (getNextSolutionCheckWait gen 0 - Z.of_nat t)%Z /\
      st_drawn st = 1%nat /\
      check_due Stochastic t (st_wait st) = false
  | None => True
  end /\
  leaves_by_break
    (mult_weight_upd_loop math_log run_query get_counts_in_range
                          argpartition gen gamma N k features colors kis
                          epsilon percent) = false.
Proof.
  assert (Hd : (9 <= getNextSolutionCheckWait gen 0 <= 28)%Z).
  { unfold getNextSolutionCheckWait.
    pose proof (integers_range 9 29 (gen O)). lia. }
  split; [exact Hd|]. split.
  - unfold mwu_state_at.
    destruct (state_at _ _ _ _ _ _ _ _ _ _ _ _ t (start_state gen N))
      as [st|] eqn:E; [|exact I].
    assert (H100 : (st_wait (start_state gen N) <= 100)%Z) by (simpl; lia).
    destruct (stochastic_wait _ _ _ _ _ _ _ _ _ _ _ _ H100 t st E) as [Hw Hdr].
    simpl in Hw, Hdr. repeat split; try assumption.
    rewrite Hw.
    apply (not_due (start_state gen N) H100 t).
  - apply mult_weight_upd_loop_never_breaks.
Qed.

(** ** The accumulator [X] *)

Section Accumulator.

Variable run_query : list point -> Q -> vec -> vec.
Variable get_counts_in_range : list point -> list point -> Q -> list nat.
Variable argpartition : vec -> nat -> list nat.
Variables (cad : cadence) (gen : nat -> nat).
Variables (gamma : Q) (mu : Z) (scaled_eps epsilon : Q).
Variables (features : list point) (colors : list string).
Variable kis : list (string * nat).
Hypothesis keys_distinct : NoDup (map fst kis).

Let pass :=
  body run_query get_counts_in_range argpartition cad gen gamma mu
       scaled_eps epsilon features colors kis.
Let at_pass :=
  state_at run_query get_counts_in_range argpartition cad gen gamma mu
           scaled_eps epsilon features colors kis.

Lemma entries_within_nth (lo hi : Q) (X : vec) :
  entries_within lo hi X <->
  forall i, (i < length X)%nat -> lo <= nth i X 0 /\ nth i X 0 <= hi.
Proof.
  unfold entries_within. rewrite Forall_forall. split.
  - intros H i Hi. apply H. now apply nth_In.
  - intros H x Hx. destruct (In_nth _ _ 0 Hx) as (i & Hi & <-). auto.
Qed.

(** A pass that goes on adds at most one to each entry. *)
Lemma pass_adds_at_most_one (t : nat) (st st' : state) (b : Q) :
  pass t st = Ok (Continue st') \/ pass t st = Ok (Break st') ->
  entries_within 0 b (st_X st) ->
  length (st_X st') = length (st_X st) /\
  entries_within 0 (b + 1) (st_X st').
Proof.
  intros Hp HX.
  assert (Hfl : exists fl, pass t st = Ok fl /\
                           (fl = Continue st' \/ fl = Break st'))
    by (destruct Hp; eauto).
  destruct Hfl as (fl & Efl & Hfl).
  destruct (body_inv _ _ _ _ _ _ _ _ _ _ _ _ _ _ _ Efl)
    as (X' & Sr & W & E & [[_ ->]|(_ & M & h' & _ & _ & Es)]).
  { destruct Hfl; discriminate. }
  destruct (early_stop_keeps run_query cad gen gamma epsilon features t
              (mkState h' X' (st_wait st) (st_drawn st)))
    as (s & Hs & _ & EX).
  assert (s = st').
  { rewrite Es in Hfl. destruct Hs as [Hs|Hs]; rewrite Hs in Hfl;
      destruct Hfl as [Hfl|Hfl]; congruence. }
  subst s. cbn [st_X] in EX. rewrite EX.
  unfold selection in E. apply color_loop_effect in E.
  destruct E as [L P]. split; [exact L|].
  apply entries_within_nth. intros i Hi. rewrite L in Hi.
  destruct (P i Hi) as (P1 & P2 & _). specialize (P2 keys_distinct).
  apply entries_within_nth with (i := i) in HX; [|exact Hi]. lra.
Qed.

Variables (N : nat) (st0 : state).
Hypothesis start_X : st_X st0 = repeat 0 N.

(** When pass [t] starts no entry of [X] exceeds [t]. *)
Lemma X_bound_at (t : nat) (st : state) :
  at_pass t st0 = Some st ->
  length (st_X st) = N /\
  entries_within 0 (inject_Z (Z.of_nat t)) (st_X st).
Proof.
  revert st. induction t as [|t IH]; intros st H.
  - inversion H; subst. rewrite start_X, repeat_length.
    split; [reflexivity|]. apply Forall_forall. intros x Hx.
    apply repeat_spec in Hx. subst. split; apply Qle_refl.
  - unfold at_pass in H. cbn [state_at] in H. fold at_pass in H.
    destruct (at_pass t st0) as [s|] eqn:Es; [|discriminate].
    destruct (IH s eq_refl) as [L B]. fold pass in H.
    destruct (pass t s) as [[st'|st'|]|] eqn:Ep; try discriminate.
    inversion H; subst st'.
    destruct (pass_adds_at_most_one t s st (inject_Z (Z.of_nat t)))
      as [L' B']; auto.
    split; [congruence|].
    rewrite Nat2Z.inj_succ. unfold Z.succ. unfold entries_within in *.
    eapply Forall_impl; [|exact B']. simpl. intros x. rewrite inject_Z_plus.
    tauto.
Qed.

Lemma scale_down_unit (X : vec) (t : nat) :
  entries_within 0 (inject_Z (Z.of_nat t) + 1) X ->
  entries_within 0 1 (scale_down X t).
Proof.
  unfold entries_within, scale_down. intros H.
  apply Forall_forall. intros y Hy. apply in_map_iff in Hy.
  destruct Hy as (x & <- & Hx). rewrite Forall_forall in H.
  specialize (H x Hx). simpl in H.
  assert (Hpos : 0 < inject_Z (Z.of_nat t + 1)) by (apply inject_Z_pos; lia).
  rewrite inject_Z_plus in *. change (inject_Z 1) with 1 in *. split.
  - apply Qle_shift_div_l; [exact Hpos|]. lra.
  - apply Qle_shift_div_r; [exact Hpos|]. lra.
Qed.

(** What the run returns when it returns a vector. *)
Lemma run_returns_scaled (n : nat) (R : vec) :
  (ex <- for_range run_query get_counts_in_range argpartition cad gen gamma
                   mu scaled_eps epsilon features colors kis n 0 None st0 ;;
   finish ex) = Ok (Some R) ->
  exists t st_t st,
    (t < n)%nat /\
    at_pass t st0 = Some st_t /\
    (pass t st_t = Ok (Break st) \/
     (pass t st_t = Ok (Continue st) /\ S t = n)) /\
    R = scale_down (st_X st) t /\
    length R = N /\
    entries_within 0 1 R.
Proof.
  destruct (for_range _ _ _ _ _ _ _ _ _ _ _ _ n 0 None st0)
    as [ex|] eqn:E; cbn [bind]; [|discriminate].
  pose proof (for_range_exit run_query get_counts_in_range argpartition
                cad gen gamma mu scaled_eps epsilon features colors kis
                st0 n 0 st0 ex eq_refl E) as Hex.
  destruct ex as [[t|] st|t st|t]; cbn [finish]; intros HR;
    inversion HR; subst R; clear HR.
  - destruct Hex as [Hst Hlast]. simpl in Hst, Hlast.
    destruct n as [|n']; [discriminate|]. simpl in Hlast.
    inversion Hlast; subst t.
    destruct (state_at_prefix _ _ _ _ _ _ _ _ _ _ _ _ _ _ _ Hst n')
      as [st_t Hst_t]; [lia|].
    pose proof (proj1 (state_at_step _ _ _ _ _ _ _ _ _ _ _ _ _ _ _ _ Hst_t)
                      Hst) as Hp.
    destruct (X_bound_at n' st_t Hst_t) as [L B].
    destruct (pass_adds_at_most_one n' st_t st _ (or_introl Hp) B)
      as [L' B'].
    exists n', st_t, st. repeat split; auto.
    + unfold scale_down. rewrite length_map. congruence.
    + now apply scale_down_unit.
  - destruct Hex as (Ht & st_t & Hst_t & Hp).
    destruct (X_bound_at t st_t Hst_t) as [L B].
    destruct (pass_adds_at_most_one t st_t st _ (or_intror Hp) B)
      as [L' B'].
    exists t, st_t, st. repeat split; auto; try lia.
    + unfold scale_down. rewrite length_map. congruence.
    + now apply scale_down_unit.
Qed.

End Accumulator.

Lemma pydiv_inv (a b q : Q) : pydiv a b = Ok q -> q = a / b.
Proof.
  unfold pydiv. destruct (Qeq_bool b 0); [discriminate|]. congruence.
Qed.

(** Whenever the loop of [mult_weight_upd] is left normally, it was run
    with the named quantities. *)
Lemma mult_weight_upd_loop_inv
      (math_log : nat -> Q) (run_query : list point -> Q -> vec -> vec)
      (get_counts_in_range : list point -> list point -> Q -> list nat)
      (argpartition : vec -> nat -> list nat)
      (gen : nat -> nat) (gamma : Q) (N k : nat)
      (features : list point) (colors : list string)
      (kis : list (string * nat)) (epsilon percent : Q) (ex : loop_exit) :
  mult_weight_upd_loop math_log run_query get_counts_in_range argpartition
                       gen gamma N k features colors kis epsilon percent
  = Ok ex ->
  for_range run_query get_counts_in_range argpartition Stochastic gen
            gamma (mu_of k) (scaled_epsilon epsilon) epsilon
            features colors kis
            (passes (raw_T math_log N k epsilon * percent)) 0 None
            (start_state gen N)
  = Ok ex.
Proof.
  unfold mult_weight_upd_loop.
  destruct (0 <? k)%nat; [|discriminate].
  destruct (pydiv epsilon (1 + epsilon / 4)) as [se|] eqn:E1;
    cbn [bind]; [|discriminate].
  destruct (pydiv 1 (inject_Z (Z.of_nat N))) as [invN|] eqn:E2;
    cbn [bind]; [|discriminate].
  unfold theoretical_T.
  destruct (pydiv (inject_Z (8 * (Z.of_nat k - 1))) (se * se)) as [T|] eqn:E3;
    cbn [bind]; [|discriminate].
  apply pydiv_inv in E1, E2, E3. subst. intros H. exact H.
Qed.

(** C4.  When [mult_weight_upd] returns a vector, it is [X / (t + 1)] for
    the index [t] of the last pass that was run (the pass that broke out,
    or the last one of the range), [X] being the accumulator after that
    pass; it has one entry per point, each between 0 and 1.  ([kis] is a
    dictionary: its keys are distinct.) *)
Theorem returned_vector_scaled_and_bounded
        (math_log : nat -> Q) (run_query : list point -> Q -> vec -> vec)
        (get_counts_in_range : list point -> list point -> Q -> list nat)
        (argpartition : vec -> nat -> list nat)
        (gen : nat -> nat) (gamma : Q) (N k : nat)
        (features : list point) (colors : list string)
        (kis : list (string * nat)) (epsilon percent : Q) (R : vec) :
  NoDup (map fst kis) ->
  mult_weight_upd math_log run_query get_counts_in_range argpartition
                  gen gamma N k features colors kis epsilon percent
  = Ok (Some R) ->
  exists t st_t st,
    (t < passes (raw_T math_log N k epsilon * percent))%nat /\
    mwu_state_at run_query get_counts_in_range argpartition gen gamma N k
                 features colors kis epsilon t = Some st_t /\
    (body run_query get_counts_in_range argpartition Stochastic gen gamma
          (mu_of k) (scaled_epsilon epsilon) epsilon features colors kis
          t st_t = Ok (Break st)
     \/ (body run_query get_counts_in_range argpartition Stochastic gen gamma
              (mu_of k) (scaled_epsilon epsilon) epsilon features colors kis
              t st_t = Ok (Continue st)
         /\ S t = passes (raw_T math_log N k epsilon * percent))) /\
    R = scale_down (st_X st) t /\
    length R = N /\
    entries_within 0 1 R.
Proof.
  intros ND. unfold mult_weight_upd.
  destruct (mult_weight_upd_loop _ _ _ _ _ _ _ _ _ _ _ _ _) as [ex|] eqn:E;
    cbn [bind]; [|discriminate].
  apply mult_weight_upd_loop_inv in E. intros HR.
  apply (run_returns_scaled run_query get_counts_in_range argpartition
           Stochastic gen gamma (mu_of k) (scaled_epsilon epsilon) epsilon
           features colors kis ND N (start_state gen N) eq_refl).
  rewrite E. exact HR.
Qed.

(** The three far-apart points, one pass: the first two are chosen. *)
Lemma returned_vector_scaled_and_bounded_witness :
  exists t st_t st,
    (t < passes (raw_T ln_approx 3 2 (1 # 2) * (1 # 100)))%nat /\
    mwu_state_at ball_sum ball_count numpy_argpartition (fun _ => O) 1 3 2
                 features3 colors3 kis3 (1 # 2) t = Some st_t /\
    (body ball_sum ball_count numpy_argpartition Stochastic (fun _ => O) 1
          (mu_of 2) (scaled_epsilon (1 # 2)) (1 # 2) features3 colors3 kis3
          t st_t = Ok (Break st)
     \/ (body ball_sum ball_count numpy_argpartition Stochastic (fun _ => O) 1
              (mu_of 2) (scaled_epsilon (1 # 2)) (1 # 2) features3 colors3
              kis3 t st_t = Ok (Continue st)
         /\ S t = passes (raw_T ln_approx 3 2 (1 # 2) * (1 # 100)))) /\
    [1; 1; 0] = scale_down (st_X st) t /\
    length [1; 1; 0] = 3%nat /\
    entries_within 0 1 [1; 1; 0].
Proof.
  apply (returned_vector_scaled_and_bounded
           ln_approx ball_sum ball_count numpy_argpartition
           (fun _ => O) 1 3 2 features3 colors3 kis3 (1 # 2) (1 # 100)).
  - repeat constructor. simpl. tauto.
  - vm_compute. reflexivity.
Defined.

(** ** The selection of one color, as a whole *)

Lemma color_step_X (argpartition : vec -> nat -> list nat)
      (features : list point) (colors : list string) (w_sums : vec)
      (X : vec) (Sr : list point) (W : Q) (e : string * nat)
      (X' : vec) (Sr' : list point) (W' : Q) (sel : list nat) :
  color_step argpartition features colors w_sums (X, Sr, W) e
  = Ok (X', Sr', W') ->
  min_indecies argpartition w_sums colors (fst e) (snd e) = Ok sel ->
  forall i, (i < length X)%nat ->
    nth i X' 0 = if existsb (Nat.eqb i) sel then nth i X 0 + 1
                 else nth i X 0.
Proof.
  unfold color_step. intros H Hsel. rewrite Hsel in H. cbn [bind] in H.
  destruct (add_one_at X sel) as [X1|] eqn:EX; cbn [bind] in H;
    [|discriminate].
  destruct (take features sel) as [pts|]; cbn [bind] in H; [|discriminate].
  destruct (take w_sums sel) as [ws|]; cbn [bind] in H; [|discriminate].
  inversion H; subst. intros i Hi. now apply add_one_at_nth.
Qed.

(** C5.  In every pass, for a color [c] with [1 <= K(c) <= |I_c|], the
    selection step chooses exactly [K(c)] distinct indices, all of color
    [c], and adds one to [X] at exactly those indices; and from one pass
    to the next no entry of [X] decreases. *)
Theorem selection_exact_and_X_monotone
        (run_query : list point -> Q -> vec -> vec)
        (get_counts_in_range : list point -> list point -> Q -> list nat)
        (argpartition : vec -> nat -> list nat)
        (features : list point) (colors : list string) :
  run_query_ok run_query ->
  argpartition_ok argpartition ->
  length features = length colors ->
  (forall (gamma : Q) (h X : vec) (Sr : list point) (W : Q)
          (c : string) (ki : nat),
      length X = length colors ->
      (1 <= ki <= length (nonzero_eq c colors))%nat ->
      exists sel X' Sr' W',
        min_indecies argpartition (run_query features (gamma / 2) h)
                     colors c ki = Ok sel /\
        color_step argpartition features colors
                   (run_query features (gamma / 2) h) (X, Sr, W) (c, ki)
        = Ok (X', Sr', W') /\
        length sel = ki /\
        NoDup sel /\
        (forall i, In i sel ->
                   (i < length colors)%nat /\
                   nth i colors EmptyString = c) /\
        length X' = length X /\
        forall i, (i < length X)%nat ->
          nth i X' 0 = if existsb (Nat.eqb i) sel then nth i X 0 + 1
                       else nth i X 0)
  /\
  (forall (cad : cadence) (gen : nat -> nat) (gamma : Q) (mu : Z)
          (scaled_eps epsilon : Q) (kis : list (string * nat))
          (st0 : state) (t : nat) (st st' : state),
      state_at run_query get_counts_in_range argpartition cad gen gamma mu
               scaled_eps epsilon features colors kis t st0 = Some st ->
      state_at run_query get_counts_in_range argpartition cad gen gamma mu
               scaled_eps epsilon features colors kis (S t) st0 = Some st' ->
      length (st_X st') = length (st_X st) /\
      forall i, nth i (st_X st) 0 <= nth i (st_X st') 0).
Proof.
  intros Hrq Hap Lf. split.
  - intros gamma h X Sr W c ki LX Hki.
    set (w_sums := run_query features (gamma / 2) h).
    assert (Lw : (length colors <= length w_sums)%nat).
    { unfold w_sums. rewrite Hrq. lia. }
    pose proof (min_indecies_chosen argpartition Hap w_sums colors Lw c ki Hki)
      as Hsel.
    destruct (color_step_Ok argpartition features colors w_sums Hap Lf Lw
                X Sr W (c, ki) LX Hki) as (X' & Sr' & Es & LX').
    exists (chosen argpartition w_sums colors c ki), X', Sr'.
    eexists. split; [exact Hsel|]. split; [exact Es|].
    split; [now apply chosen_length|].
    split; [now apply chosen_NoDup|].
    split; [intros i Hi; now apply (chosen_color argpartition Hap w_sums
                                      colors Lw c ki Hki)|].
    split; [exact LX'|].
    intros i Hi. now apply (color_step_X _ _ _ _ _ _ _ _ _ _ _ _ Es Hsel).
  - intros cad gen gamma mu se eps kis st0 t st st'.
    apply state_at_X_mono.
Qed.

(** The three far-apart points under uniform weights: two of the three
    indices of color "a" are chosen. *)
Lemma selection_exact_and_X_monotone_witness :
  exists sel X' Sr' W',
    min_indecies numpy_argpartition
                 (ball_sum features3 (1 / 2) [1 # 3; 1 # 3; 1 # 3])
                 colors3 "a"%string 2 = Ok sel /\
    color_step numpy_argpartition features3 colors3
               (ball_sum features3 (1 / 2) [1 # 3; 1 # 3; 1 # 3])
               ([0; 0; 0], [], 0) ("a"%string, 2%nat)
    = Ok (X', Sr', W') /\
    length sel = 2%nat /\
    NoDup sel /\
    (forall i, In i sel ->
               (i < length colors3)%nat /\
               nth i colors3 EmptyString = "a"%string) /\
    length X' = length [0; 0; 0] /\
    forall i, (i < length [0; 0; 0])%nat ->
      nth i X' 0 = if existsb (Nat.eqb i) sel then nth i [0; 0; 0] 0 + 1
                   else nth i [0; 0; 0] 0.
Proof.
  apply (proj1 (selection_exact_and_X_monotone
                  ball_sum ball_count numpy_argpartition features3 colors3
                  ball_sum_ok numpy_argpartition_ok eq_refl)
               1 [1 # 3; 1 # 3; 1 # 3] [0; 0; 0] [] 0 "a"%string 2%nat).
  - reflexivity.
  - simpl. lia.
Defined.

(** ** Ties in the selection *)

(** C6, as the code has it.  For a color with [1 <= K(c) <= |I_c|] the
    selection returns [K(c)] distinct indices of [I_c] that hold smallest
    [w_sum] values: no index of [I_c] that was left out has a smaller
    [w_sum] than one that was chosen.  Which of several equal values is
    taken is up to [np.argpartition]. *)
Theorem selection_takes_smallest
        (argpartition : vec -> nat -> list nat)
        (w_sums : vec) (colors : list string) (c : string) (ki : nat) :
  argpartition_ok argpartition ->
  (length colors <= length w_sums)%nat ->
  (1 <= ki <= length (nonzero_eq c colors))%nat ->
  exists sel,
    min_indecies argpartition w_sums colors c ki = Ok sel /\
    length sel = ki /\
    NoDup sel /\
    incl sel (nonzero_eq c colors) /\
    forall i j,
      In i sel -> In j (nonzero_eq c colors) -> ~ In j sel ->
      nth i w_sums 0 <= nth j w_sums 0.
Proof.
  intros Hap Lw Hki.
  exists (chosen argpartition w_sums colors c ki).
  split; [now apply min_indecies_chosen|].
  split; [now apply chosen_length|].
  split; [now apply chosen_NoDup|].
  split; [now apply chosen_incl|].
  now apply chosen_smallest.
Qed.

Lemma selection_takes_smallest_witness :
  exists sel,
    min_indecies numpy_argpartition
                 (ball_sum features_tie 2 [1 # 3; 1 # 3; 1 # 3])
                 colors3 "a"%string 2 = Ok sel /\
    length sel = 2%nat /\
    NoDup sel /\
    incl sel (nonzero_eq "a"%string colors3) /\
    forall i j,
      In i sel -> In j (nonzero_eq "a"%string colors3) -> ~ In j sel ->
      nth i (ball_sum features_tie 2 [1 # 3; 1 # 3; 1 # 3]) 0
      <= nth j (ball_sum features_tie 2 [1 # 3; 1 # 3; 1 # 3]) 0.
Proof.
  apply (selection_takes_smallest numpy_argpartition
           (ball_sum features_tie 2 [1 # 3; 1 # 3; 1 # 3])
           colors3 "a"%string 2 numpy_argpartition_ok).
  - simpl. lia.
  - simpl. lia.
Defined.

(** C6, as stated, fails.  Points 0 and 1 lie within the radius of each
    other and point 2 is alone, so under uniform weights the sums are
    2/3, 2/3 and 1/3.  With two indices wanted, the selection takes 2 and
    then 1, where breaking the tie by index takes 2 and then 0. *)
Lemma tie_not_broken_by_index :
  map Qred (ball_sum features_tie 2 [1 # 3; 1 # 3; 1 # 3])
  = [2 # 3; 2 # 3; 1 # 3] /\
  min_indecies numpy_argpartition
               (ball_sum features_tie 2 [1 # 3; 1 # 3; 1 # 3])
               colors3 "a"%string 2 = Ok [2; 1]%nat /\
  smallest_by_index (ball_sum features_tie 2 [1 # 3; 1 # 3; 1 # 3])
                    colors3 "a"%string 2 = [2; 0]%nat.
Proof.
  repeat split; vm_compute; reflexivity.
Qed.

(** ** The weights [h] *)

Section Weights.

Variable run_query : list point -> Q -> vec -> vec.
Variable get_counts_in_range : list point -> list point -> Q -> list nat.
Variable argpartition : vec -> nat -> list nat.
Variables (cad : cadence) (gen : nat -> nat).
Variables (gamma : Q) (mu : Z) (scaled_eps epsilon : Q).
Variables (features : list point) (colors : list string).
Variable kis : list (string * nat).
Variable N : nat.
Hypothesis mu_pos : (1 <= mu)%Z.
Hypothesis scaled_eps_range : 0 <= scaled_eps /\ scaled_eps < 4.
Hypothesis N_pos : (1 <= N)%nat.

Let pass :=
  body run_query get_counts_in_range argpartition cad gen gamma mu
       scaled_eps epsilon features colors kis.
Let at_pass :=
  state_at run_query get_counts_in_range argpartition cad gen gamma mu
           scaled_eps epsilon features colors kis.

Lemma pass_keeps_normalised (t : nat) (st st' : state) :
  normalised N (st_h st) ->
  pass t st = Ok (Continue st') \/ pass t st = Ok (Break st') ->
  normalised N (st_h st').
Proof.
  intros (Lh & Ph & Sh) Hp.
  assert (Hfl : exists fl, pass t st = Ok fl /\
                           (fl = Continue st' \/ fl = Break st'))
    by (destruct Hp; eauto).
  destruct Hfl as (fl & Efl & Hfl).
  destruct (body_inv _ _ _ _ _ _ _ _ _ _ _ _ _ _ _ Efl)
    as (X' & Sr & W & E & [[_ ->]|(_ & M & h' & EM & Eh & Es)]).
  { destruct Hfl; discriminate. }
  destruct (early_stop_keeps run_query cad gen gamma epsilon features t
              (mkState h' X' (st_wait st) (st_drawn st)))
    as (s & Hs & Eh' & _).
  assert (s = st').
  { rewrite Es in Hfl. destruct Hs as [Hs|Hs]; rewrite Hs in Hfl;
      destruct Hfl as [Hfl|Hfl]; congruence. }
  subst s. cbn [st_h] in Eh'. rewrite Eh'.
  destruct (compute_M_inv _ _ _ _ mu_pos EM) as [LM HM].
  destruct (update_h_inv scaled_eps (st_h st) M) as (h2 & Eh2 & L2 & P2 & S2);
    try tauto.
  { intros Hnil. rewrite Hnil in Lh. simpl in Lh. lia. }
  assert (h2 = h') by congruence. subst h2.
  unfold normalised. repeat split; try assumption. congruence.
Qed.

Variable st0 : state.
Hypothesis start_normalised : normalised N (st_h st0).

Lemma normalised_at (t : nat) (st : state) :
  at_pass t st0 = Some st -> normalised N (st_h st).
Proof.
  revert st. induction t as [|t IH]; intros st H.
  - inversion H; subst. exact start_normalised.
  - unfold at_pass in H. cbn [state_at] in H. fold at_pass in H.
    destruct (at_pass t st0) as [s|] eqn:Es; [|discriminate].
    fold pass in H.
    destruct (pass t s) as [[st'|st'|]|] eqn:Ep; try discriminate.
    inversion H; subst st'.
    apply (pass_keeps_normalised t s st); auto.
Qed.

End Weights.

Lemma normalised_nonneg (N : nat) (h : vec) :
  normalised N h -> Forall (fun x => 0 <= x) h /\ np_sum h == 1.
Proof.
  intros (_ & P & S). split; [|exact S].
  eapply Forall_impl; [|exact P]. simpl. intros; lra.
Qed.

(** C7.  [h] starts as the uniform vector [1/N]; with [k >= 2] and
    [0 < epsilon < 1], at the start of every pass, and again after the
    multiplicative update and the renormalization of every pass that gets
    that far, every entry of [h] is nonnegative and the entries add up to
    one.  This holds for either cadence, so for both source files. *)
Theorem h_nonnegative_and_sums_to_one
        (run_query : list point -> Q -> vec -> vec)
        (get_counts_in_range : list point -> list point -> Q -> list nat)
        (argpartition : vec -> nat -> list nat)
        (cad : cadence) (gen : nat -> nat) (gamma : Q) (N k : nat)
        (features : list point) (colors : list string)
        (kis : list (string * nat)) (epsilon : Q) (wait : Z) (drawn : nat) :
  (2 <= k)%nat -> 0 < epsilon /\ epsilon < 1 -> (1 <= N)%nat ->
  st_h (initial_state N (1 / inject_Z (Z.of_nat N)) wait drawn)
  = repeat (1 / inject_Z (Z.of_nat N)) N
  /\
  forall t st,
    state_at run_query get_counts_in_range argpartition cad gen gamma
             (mu_of k) (scaled_epsilon epsilon) epsilon features colors kis
             t (initial_state N (1 / inject_Z (Z.of_nat N)) wait drawn)
    = Some st ->
    (Forall (fun x => 0 <= x) (st_h st) /\ np_sum (st_h st) == 1) /\
    forall st',
      body run_query get_counts_in_range argpartition cad gen gamma
           (mu_of k) (scaled_epsilon epsilon) epsilon features colors kis
           t st = Ok (Continue st')
      \/ body run_query get_counts_in_range argpartition cad gen gamma
              (mu_of k) (scaled_epsilon epsilon) epsilon features colors kis
              t st = Ok (Break st') ->
      Forall (fun x => 0 <= x) (st_h st') /\ np_sum (st_h st') == 1.
Proof.
  intros Hk [He He1] HN. split; [reflexivity|].
  assert (Hmu : (1 <= mu_of k)%Z) by (unfold mu_of; lia).
  assert (Hs : 0 <= scaled_epsilon epsilon /\ scaled_epsilon epsilon < 4).
  { destruct (scaled_epsilon_range epsilon He). lra. }
  assert (H0 : normalised N
                 (st_h (initial_state N (1 / inject_Z (Z.of_nat N))
                                      wait drawn))).
  { destruct (initial_state_good N wait drawn HN) as (L & _ & P & S).
    now repeat split. }
  intros t st Hst.
  pose proof (normalised_at run_query get_counts_in_range argpartition cad
                gen gamma (mu_of k) (scaled_epsilon epsilon) epsilon features
                colors kis N Hmu Hs HN _ H0 t st Hst) as Hn.
  split; [now apply (normalised_nonneg N)|].
  intros st' Hp. apply (normalised_nonneg N).
  apply (pass_keeps_normalised run_query get_counts_in_range argpartition
           cad gen gamma (mu_of k) (scaled_epsilon epsilon) epsilon features
           colors kis N Hmu Hs HN t st st' Hn Hp).
Qed.

(** The three far-apart points: the first pass of the loop leaves [h]
    nonnegative with sum one. *)
Lemma h_nonnegative_and_sums_to_one_witness :
  exists st st',
    mwu_state_at ball_sum ball_count numpy_argpartition (fun _ => O) 1 3 2
                 features3 colors3 kis3 (1 # 2) 0 = Some st /\
    body ball_sum ball_count numpy_argpartition Stochastic (fun _ => O) 1
         (mu_of 2) (scaled_epsilon (1 # 2)) (1 # 2) features3 colors3 kis3
         0 st = Ok (Continue st') /\
    Forall (fun x => 0 <= x) (st_h st') /\ np_sum (st_h st') == 1.
Proof.
  eexists. eexists.
  split; [reflexivity|]. split; [vm_compute; reflexivity|].
  assert (Hk : (2 <= 2)%nat) by lia.
  assert (He : 0 < 1 # 2 /\ 1 # 2 < 1) by (split; reflexivity).
  assert (HN : (1 <= 3)%nat) by lia.
  refine (proj2 (proj2 (h_nonnegative_and_sums_to_one
                   ball_sum ball_count numpy_argpartition Stochastic
                   (fun _ => O) 1 3 2 features3 colors3 kis3 (1 # 2)
                   (getNextSolutionCheckWait (fun _ => O) 0) 1 Hk He HN)
                 O _ eq_refl) _ _).
  left. vm_compute. reflexivity.
Defined.

(** ** When the loop body is never run *)

(** C10.  The guard [assert(k > 0)] lets [k = 1] through, but then
    [mu = 0] makes [T] zero: the loop body is never run and the final
    [X / (t + 1)] reads a loop variable that was never bound.  The same
    happens for [N = 1], where the logarithm is zero.  (Inside the loop,
    [mu = 0] would make the computation of [M] divide by zero.)  With
    [k >= 2] and [N >= 2] the loop is entered.  Both source files behave
    alike. *)
Theorem solver_needs_k_and_N_at_least_2
        (math_log : nat -> Q) (run_query : list point -> Q -> vec -> vec)
        (get_counts_in_range : list point -> list point -> Q -> list nat)
        (argpartition : vec -> nat -> list nat)
        (gen : nat -> nat) (gamma : Q) (N k : nat)
        (features : list point) (colors : list string)
        (kis : list (string * nat)) (epsilon percent : Q) :
  log_ok math_log -> (1 <= N)%nat -> (1 <= k)%nat -> 0 < epsilon ->
  (mult_weight_upd math_log run_query get_counts_in_range argpartition
                   gen gamma N 1 features colors kis epsilon percent
   = Raise UnboundLocalError
   /\ multweights_mult_weight_upd math_log run_query get_counts_in_range
                                  argpartition gamma N 1 features colors kis
                                  epsilon
      = Raise UnboundLocalError)
  /\ (mult_weight_upd math_log run_query get_counts_in_range argpartition
                      gen gamma 1 k features colors kis epsilon percent
      = Raise UnboundLocalError
      /\ multweights_mult_weight_upd math_log run_query get_counts_in_range
                                     argpartition gamma 1 k features colors
                                     kis epsilon
         = Raise UnboundLocalError)
  /\ (forall n c Cs,
         compute_M n (mu_of 1) (c :: Cs) = Raise ZeroDivisionError)
  /\ ((2 <= k)%nat -> (2 <= N)%nat -> 0 < percent ->
      (1 <= passes (raw_T math_log N k epsilon * percent))%nat
      /\ (1 <= passes (raw_T math_log N k epsilon))%nat).
Proof.
  intros [Hlog1 Hlog] HN Hk He.
  assert (Z1 : forall p, passes (raw_T math_log N 1 epsilon * p) = O).
  { intros p. apply passes_zero. rewrite raw_T_zero_k. ring. }
  assert (Z2 : forall p, passes (raw_T math_log 1 k epsilon * p) = O).
  { intros p. apply passes_zero. rewrite raw_T_zero_log by exact Hlog1. ring. }
  assert (Z1' : passes (raw_T math_log N 1 epsilon) = O)
    by (apply passes_zero, raw_T_zero_k).
  assert (Z2' : passes (raw_T math_log 1 k epsilon) = O)
    by (apply passes_zero, raw_T_zero_log, Hlog1).
  unfold mult_weight_upd, multweights_mult_weight_upd.
  rewrite !mult_weight_upd_loop_eq, !multweights_loop_eq by (auto; lia).
  rewrite Z1, Z2, Z1', Z2'. cbn [for_range bind finish].
  split; [split; reflexivity|]. split; [split; reflexivity|]. split.
  - intros n c Cs. unfold compute_M. now rewrite pydiv_zero.
  - intros Hk2 HN2 Hp.
    assert (HT : 0 < raw_T math_log N k epsilon)
      by (apply raw_T_pos; auto).
    split; apply passes_pos; [now apply Qmult_lt_0_compat | exact HT].
Qed.

Lemma solver_needs_k_and_N_at_least_2_witness :
  mwu_concrete (fun _ => O) 1 3 1 features3 colors3 [("a"%string, 1%nat)]
               (1 # 2) 1
  = Raise UnboundLocalError
  /\ mwu_concrete (fun _ => O) 1 1 2 [[0; 0]] ["a"%string]
                  [("a"%string, 2%nat)] (1 # 2) 1
     = Raise UnboundLocalError.
Proof.
  assert (H3 : (1 <= 3)%nat) by lia.
  assert (H1 : (1 <= 1)%nat) by lia.
  assert (H2 : (1 <= 2)%nat) by lia.
  assert (He : 0 < 1 # 2) by reflexivity.
  split.
  - exact (proj1 (proj1
      (solver_needs_k_and_N_at_least_2
         ln_approx ball_sum ball_count numpy_argpartition (fun _ => O) 1
         3 1 features3 colors3 [("a"%string, 1%nat)] (1 # 2) 1
         ln_approx_ok H3 H1 He))).
  - exact (proj1 (proj1 (proj2
      (solver_needs_k_and_N_at_least_2
         ln_approx ball_sum ball_count numpy_argpartition (fun _ => O) 1
         1 2 [[0; 0]] ["a"%string] [("a"%string, 2%nat)] (1 # 2) 1
         ln_approx_ok H1 H2 He)))).
Defined.

(** ** The number of passes and the scaling *)

Lemma iterations_run_last_of (n : nat) (st : state) :
  iterations_run (Exhausted (last_of n) st) = n.
Proof. destruct n; reflexivity. Qed.

(** C9, as the code has it.  [T] is the real product
    [(8 mu / eps'^2) * ln N * alpha]; the scaling by [alpha] comes first
    and the ceiling is taken last, by [trange(math.ceil(T))].  The loop
    runs at most that many passes, exactly that many when the range runs
    out, and for [alpha = 1] the bound is the ceiling of
    [(8 mu / eps'^2) * ln N]. *)
Theorem passes_at_most_ceiling_of_scaled_T
        (math_log : nat -> Q) (run_query : list point -> Q -> vec -> vec)
        (get_counts_in_range : list point -> list point -> Q -> list nat)
        (argpartition : vec -> nat -> list nat)
        (gen : nat -> nat) (gamma : Q) (N k : nat)
        (features : list point) (colors : list string)
        (kis : list (string * nat)) (epsilon percent : Q)
        (ex : loop_exit) :
  mult_weight_upd_loop math_log run_query get_counts_in_range argpartition
                       gen gamma N k features colors kis epsilon percent
  = Ok ex ->
  (iterations_run ex
   <= Z.to_nat (Qceiling (inject_Z (8 * mu_of k)
                          / (scaled_epsilon epsilon * scaled_epsilon epsilon)
                          * math_log N * percent)))%nat
  /\ (forall last st,
         ex = Exhausted last st ->
         iterations_run ex
         = Z.to_nat (Qceiling (raw_T math_log N k epsilon * percent)))
  /\ (percent == 1 ->
      (iterations_run ex
       <= Z.to_nat (Qceiling (raw_T math_log N k epsilon)))%nat).
Proof.
  intros H. apply mult_weight_upd_loop_inv in H.
  pose proof (for_range_exit run_query get_counts_in_range argpartition
                Stochastic gen gamma (mu_of k) (scaled_epsilon epsilon)
                epsilon features colors kis (start_state gen N) _ 0
                (start_state gen N) ex eq_refl H) as Hex.
  fold (raw_T math_log N k epsilon).
  fold (passes (raw_T math_log N k epsilon * percent)).
  assert (Hle : (iterations_run ex
                 <= passes (raw_T math_log N k epsilon * percent))%nat).
  { destruct ex as [last st|u st|u].
    - destruct Hex as [_ ->].
      rewrite Nat.add_0_l, iterations_run_last_of. apply Nat.le_refl.
    - simpl. lia.
    - simpl. lia. }
  split; [exact Hle|]. split.
  - intros last st ->. destruct Hex as [_ ->].
    rewrite Nat.add_0_l, iterations_run_last_of. reflexivity.
  - intros Hp.
    assert (E : raw_T math_log N k epsilon * percent
                == raw_T math_log N k epsilon) by (rewrite Hp; ring).
    unfold passes in Hle. now rewrite E in Hle.
Qed.

Lemma passes_at_most_ceiling_of_scaled_T_witness :
  exists ex,
    mwu_loop_concrete (fun _ => O) 1 3 2 features3 colors3 kis3 (1 # 2)
                      (1 # 100) = Ok ex /\
    (iterations_run ex
     <= Z.to_nat (Qceiling (inject_Z (8 * mu_of 2)
                            / (scaled_epsilon (1 # 2) * scaled_epsilon (1 # 2))
                            * ln_approx 3 * (1 # 100))))%nat.
Proof.
  assert (E : exists ex,
             mwu_loop_concrete (fun _ => O) 1 3 2 features3 colors3 kis3
                               (1 # 2) (1 # 100) = Ok ex)
    by (vm_compute; eexists; reflexivity).
  destruct E as [ex E]. exists ex. split; [exact E|].
  exact (proj1 (passes_at_most_ceiling_of_scaled_T
                  ln_approx ball_sum ball_count numpy_argpartition
                  (fun _ => O) 1 3 2 features3 colors3 kis3 (1 # 2)
                  (1 # 100) ex E)).
Defined.

(** C9, as stated, fails.  For the three far-apart points with
    [epsilon = 1/2] the unscaled [T] is about 44.5, with ceiling 45.  At
    [alpha = 1/100] the stated bound, the ceiling scaled by [alpha], is
    0.45; the code takes the ceiling of 0.445 and runs one pass. *)
Lemma ceiling_taken_after_scaling :
  Qceiling (raw_T ln_approx 3 2 (1 # 2)) = 45%Z /\
  exists ex,
    mwu_loop_concrete (fun _ => O) 1 3 2 features3 colors3 kis3 (1 # 2)
                      (1 # 100) = Ok ex /\
    iterations_run ex = 1%nat /\
    (1 # 100) * inject_Z (Qceiling (raw_T ln_approx 3 2 (1 # 2)))
    < inject_Z (Z.of_nat (iterations_run ex)).
Proof.
  split; [vm_compute; reflexivity|].
  eexists. split; [vm_compute; reflexivity|].
  split; vm_compute; reflexivity.
Qed.

(** ** The falloff of [gamma] *)


Section DriverFacts.

Variable math_log : nat -> Q.
Variable run_query : list point -> Q -> vec -> vec.
Variable get_counts_in_range : list point -> list point -> Q -> list nat.
Variable argpartition : vec -> nat -> list nat.
Variable default_rng : nat -> nat -> nat.
Variables (features : list point) (colors : list string).
Variable kis : list (string * nat).
Variables (mwu_epsilon falloff_epsilon percent : Q).

Let call_solver :=
  solve math_log run_query get_counts_in_range argpartition default_rng
        features colors kis mwu_epsilon percent.


End DriverFacts.



(** ** Sums over index lists *)

Lemma sum_at_perm (w : vec) (a b : list nat) :
  Permutation a b -> sum_at w a == sum_at w b.
Proof.
  unfold sum_at. induction 1; simpl.
  - reflexivity.
  - now rewrite IHPermutation.
  - ring.
  - now rewrite IHPermutation1.
Qed.

Lemma map_nth_seq (h : vec) :
  map (fun i => nth i h 0) (seq 0 (length h)) = h.
Proof.
  induction h as [|a h IH]; [reflexivity|].
  cbn [length seq map nth]. f_equal.
  rewrite <- seq_shift, map_map. exact IH.
Qed.

Lemma sum_at_seq (h : vec) : sum_at h (seq 0 (length h)) == np_sum h.
Proof. unfold sum_at. now rewrite map_nth_seq. Qed.

Lemma sum_at_le (h w : vec) (idx : list nat) :
  (forall i, In i idx -> nth i h 0 <= nth i w 0) ->
  sum_at h idx <= sum_at w idx.
Proof.
  unfold sum_at. induction idx as [|i idx IH]; intros H; simpl.
  - apply Qle_refl.
  - assert (nth i h 0 <= nth i w 0) by (apply H; now left).
    assert (np_sum (map (fun i => nth i h 0) idx)
            <= np_sum (map (fun i => nth i w 0) idx))
      by (apply IH; intros; apply H; now right).
    lra.
Qed.

Lemma sum_at_eq (h w : vec) (idx : list nat) :
  (forall i, In i idx -> nth i h 0 == nth i w 0) ->
  sum_at h idx == sum_at w idx.
Proof.
  intros H. apply Qle_antisym; apply sum_at_le; intros i Hi;
    rewrite (H i Hi); apply Qle_refl.
Qed.

Lemma sum_at_middle (h : vec) (a b : list nat) (x : nat) :
  sum_at h (a ++ x :: b) == nth x h 0 + sum_at h (a ++ b).
Proof.
  rewrite !sum_at_app. unfold sum_at at 2. simpl.
  fold (sum_at h b). ring.
Qed.

(** A duplicate-free part of an index list adds up to no more than the
    whole, when no value is negative. *)
Lemma sum_at_incl (h : vec) (a : list nat) :
  NoDup a ->
  forall b, incl a b -> (forall i, In i b -> 0 <= nth i h 0) ->
            sum_at h a <= sum_at h b.
Proof.
  induction 1 as [|x a Hx _ IH]; intros b Hincl Hpos.
  - unfold sum_at at 1. simpl.
    unfold sum_at. apply np_sum_nonneg. apply Forall_forall.
    intros y Hy. apply in_map_iff in Hy. destruct Hy as (i & <- & Hi). auto.
  - assert (Hxb : In x b) by (apply Hincl; now left).
    apply in_split in Hxb. destruct Hxb as (b1 & b2 & ->).
    rewrite sum_at_middle. unfold sum_at at 1. simpl. fold (sum_at h a).
    assert (sum_at h a <= sum_at h (b1 ++ b2)).
    { apply IH.
      - intros i Hi.
        assert (Hib : In i (b1 ++ x :: b2)) by (apply Hincl; now right).
        apply in_app_or in Hib. apply in_or_app.
        destruct Hib as [?|[->|?]]; auto. contradiction.
      - intros i Hi. apply Hpos. apply in_app_or in Hi. apply in_or_app.
        destruct Hi; [left|right; right]; assumption. }
    lra.
Qed.

(** Leaving out an index of a positive vector makes the sum strictly
    smaller. *)
Lemma sum_at_lt_total (h : vec) (sel : list nat) :
  Forall (fun x => 0 < x) h ->
  NoDup sel -> Forall (fun i => (i < length h)%nat) sel ->
  (length sel < length h)%nat ->
  sum_at h sel < np_sum h.
Proof.
  intros Hpos ND Hb Hlen.
  assert (Hj : exists j, (j < length h)%nat /\ ~ In j sel).
  { destruct (Forall_Exists_dec (fun j => In j sel)
                (fun j => in_dec Nat.eq_dec j sel) (seq 0 (length h)))
      as [Hall|Hex].
    - exfalso. rewrite Forall_forall in Hall.
      assert (length (seq 0 (length h)) <= length sel)%nat
        by (apply NoDup_incl_length; [apply seq_NoDup|exact Hall]).
      rewrite length_seq in *. lia.
    - apply Exists_exists in Hex. destruct Hex as (j & Hj & Hn).
      apply in_seq in Hj. exists j. split; [lia|exact Hn]. }
  destruct Hj as (j & Hj & Hn).
  assert (Hnth : forall i, (i < length h)%nat -> 0 < nth i h 0).
  { intros i Hi. rewrite Forall_forall in Hpos. apply Hpos. now apply nth_In. }
  assert (H1 : sum_at h (j :: sel) <= sum_at h (seq 0 (length h))).
  { apply sum_at_incl.
    - now constructor.
    - intros i [<-|Hi]; apply in_seq; [lia|].
      rewrite Forall_forall in Hb. specialize (Hb i Hi). lia.
    - intros i Hi. apply in_seq in Hi. apply Qlt_le_weak, Hnth. lia. }
  rewrite sum_at_seq in H1. unfold sum_at in H1 at 1. simpl in H1.
  fold (sum_at h sel) in H1. specialize (Hnth j Hj). lra.
Qed.

(** ** When every point is wanted *)

Lemma sqdist_self (p : point) : sqdist p p == 0.
Proof.
  induction p as [|a p IH]; simpl; [reflexivity|]. rewrite IH. ring.
Qed.

Lemma within_self (r : Q) (p : point) : 0 <= r -> within r p p = true.
Proof.
  intros Hr. unfold within. apply andb_true_intro. split.
  - now apply Qle_bool_iff.
  - apply Qle_bool_iff. rewrite sqdist_self. now apply Qmult_le_0_compat.
Qed.

Lemma filter_sum_ge (A : Type) (f : A * Q -> bool) (l : list (A * Q))
      (x : A * Q) :
  In x l -> Forall (fun y => 0 <= snd y) l -> f x = true ->
  snd x <= np_sum (map snd (filter f l)).
Proof.
  intros Hin Hpos Hf. induction Hpos as [|y l Hy Hl IH]; [contradiction|].
  assert (Hrest : 0 <= np_sum (map snd (filter f l))).
  { apply np_sum_nonneg. apply Forall_forall. intros z Hz.
    apply in_map_iff in Hz. destruct Hz as (u & <- & Hu).
    apply filter_In in Hu. rewrite Forall_forall in Hl. now apply Hl. }
  simpl. destruct Hin as [->|Hin].
  - rewrite Hf. simpl. lra.
  - specialize (IH Hin). destruct (f y); simpl; lra.
Qed.

Lemma ball_sum_covers_self : run_query_covers_self ball_sum.
Proof.
  intros features r w i Hr Hw HL Hi. unfold ball_sum.
  set (f := fun p : point =>
              np_sum (map snd (filter (fun qw => within r p (fst qw))
                                      (combine features w)))).
  rewrite (nth_indep (map f features) 0 (f [])) by now rewrite length_map.
  rewrite (map_nth f). unfold f.
  set (x := (nth i features [], nth i w 0)).
  change (nth i w 0) with (snd x).
  apply (filter_sum_ge point (fun qw => within r (nth i features []) (fst qw))).
  - unfold x. rewrite <- combine_nth by congruence.
    apply nth_In. rewrite length_combine. lia.
  - apply Forall_forall. intros [p q] Hpq. simpl.
    apply in_combine_r in Hpq. rewrite Forall_forall in Hw. now apply Hw.
  - unfold x. simpl. now apply within_self.
Qed.

Section AllChosen.

Variable run_query : list point -> Q -> vec -> vec.
Variable get_counts_in_range : list point -> list point -> Q -> list nat.
Variable argpartition : vec -> nat -> list nat.
Hypothesis run_query_contract : run_query_ok run_query.
Hypothesis covers_self : run_query_covers_self run_query.
Hypothesis counts_contract : counts_ok get_counts_in_range.
Hypothesis argpartition_contract : argpartition_ok argpartition.

Variables (cad : cadence) (gen : nat -> nat).
Variables (gamma : Q) (mu : Z) (scaled_eps epsilon : Q).
Variables (features : list point) (colors : list string).
Variable kis : list (string * nat).
Variable N : nat.

Hypothesis features_N : length features = N.
Hypothesis colors_N : length colors = N.
Hypothesis quotas : quotas_ok colors kis.
Hypothesis keys_distinct : NoDup (map fst kis).
Hypothesis all_wanted : kis_total kis = N.
Hypothesis mu_pos : (1 <= mu)%Z.
Hypothesis scaled_eps_range : 0 <= scaled_eps /\ scaled_eps < 4.
Hypothesis N_pos : (1 <= N)%nat.
Hypothesis gamma_nonneg : 0 <= gamma.

(** With [k = N] the selection is all of the points, and its weight is at
    least the sum of [h]. *)
Lemma all_chosen_weight (h : vec) :
  length h = N -> Forall (fun x => 0 < x) h -> np_sum h == 1 ->
  1 <= round_weight run_query argpartition gamma features colors kis h.
Proof.
  intros Lh Ph Sh. unfold round_weight.
  set (w_sums := run_query features (gamma / 2) h).
  assert (Lw : (length colors <= length w_sums)%nat).
  { unfold w_sums. rewrite run_query_contract. lia. }
  set (sel := chosen_all argpartition colors w_sums kis).
  assert (Hperm : Permutation sel (seq 0 N)).
  { apply NoDup_Permutation_bis.
    - now apply chosen_all_NoDup.
    - unfold sel. rewrite length_seq, chosen_all_length by assumption. lia.
    - intros i Hi. apply in_seq.
      apply (chosen_all_color argpartition colors w_sums
               argpartition_contract Lw kis i quotas) in Hi. lia. }
  rewrite (sum_at_perm w_sums _ _ Hperm).
  assert (Hge : sum_at h (seq 0 N) <= sum_at w_sums (seq 0 N)).
  { apply sum_at_le. intros i Hi. apply in_seq in Hi. unfold w_sums.
    apply covers_self; try lia.
    - pose proof (Qdiv_2 gamma). set (q := gamma / 2) in *. lra.
    - eapply Forall_impl; [|exact Ph]. simpl. intros; lra. }
  rewrite <- Lh in Hge at 1. rewrite sum_at_seq in Hge. lra.
Qed.

Lemma all_chosen_pass (t : nat) (st : state) :
  good_state N st ->
  body run_query get_counts_in_range argpartition cad gen gamma mu
       scaled_eps epsilon features colors kis t st = Ok ReturnNone.
Proof.
  intros Hgood.
  destruct (body_progress run_query get_counts_in_range argpartition
              run_query_contract counts_contract argpartition_contract
              cad gen gamma mu scaled_eps epsilon features colors kis N
              features_N colors_N quotas mu_pos scaled_eps_range N_pos
              t st Hgood) as [[_ H]|[Hn _]]; [exact H|].
  exfalso. apply Hn. destruct Hgood as (Lh & _ & Ph & Sh).
  now apply all_chosen_weight.
Qed.

End AllChosen.

(** With [k = N] the solver answers [None] at every [gamma >= 0]. *)
Lemma solver_None_when_all_wanted
      (math_log : nat -> Q) (run_query : list point -> Q -> vec -> vec)
      (get_counts_in_range : list point -> list point -> Q -> list nat)
      (argpartition : vec -> nat -> list nat)
      (gen : nat -> nat) (gamma : Q) (N k : nat)
      (features : list point) (colors : list string)
      (kis : list (string * nat)) (epsilon percent : Q) :
  log_ok math_log -> run_query_ok run_query ->
  run_query_covers_self run_query -> counts_ok get_counts_in_range ->
  argpartition_ok argpartition ->
  valid_input N k features colors kis epsilon percent ->
  k = N -> 0 <= gamma ->
  mult_weight_upd math_log run_query get_counts_in_range argpartition
                  gen gamma N k features colors kis epsilon percent
  = Ok None.
Proof.
  intros Hlog Hrq Hself Hcnt Hap Hvalid HkN Hgamma.
  pose proof (valid_N_ge_2 N k features colors kis epsilon percent Hvalid)
    as HN.
  pose proof (valid_passes math_log Hlog N k features colors kis epsilon
                percent Hvalid) as [HP _].
  pose proof (valid_scaled_eps N k features colors kis epsilon percent Hvalid)
    as HS.
  destruct Hvalid as [HF HC Hk Hk2 HND HQ [He He1] Hp].
  unfold mult_weight_upd.
  rewrite mult_weight_upd_loop_eq by (auto; lia).
  destruct (passes (raw_T math_log N k epsilon * percent)) as [|n];
    [lia|].
  cbn [for_range].
  rewrite (all_chosen_pass run_query get_counts_in_range argpartition
             Hrq Hself Hcnt Hap Stochastic gen gamma (mu_of k)
             (scaled_epsilon epsilon) epsilon features colors kis N).
  - reflexivity.
  - congruence.
  - exact HC.
  - exact HQ.
  - exact HND.
  - congruence.
  - unfold mu_of. lia.
  - exact HS.
  - lia.
  - exact Hgamma.
  - apply initial_state_good. lia.
Qed.

Section NeverFound.

Variable math_log : nat -> Q.
Variable run_query : list point -> Q -> vec -> vec.
Variable get_counts_in_range : list point -> list point -> Q -> list nat.
Variable argpartition : vec -> nat -> list nat.
Variable default_rng : nat -> nat -> nat.
Variables (features : list point) (colors : list string).
Variable kis : list (string * nat).
Variables (mwu_epsilon falloff_epsilon percent : Q).

Hypothesis falloff_range : 0 < falloff_epsilon /\ falloff_epsilon < 1.
Hypothesis always_None :
  forall call gamma,
    0 < gamma ->
    solve math_log run_query get_counts_in_range argpartition default_rng
          features colors kis mwu_epsilon percent call gamma = Ok None.

Lemma falloff_while_never (fuel : nat) :
  forall call gamma,
    0 < gamma ->
    snd (falloff_while math_log run_query get_counts_in_range argpartition
                       default_rng features colors kis mwu_epsilon
                       falloff_epsilon percent fuel call gamma None)
    = OutOfFuel.
Proof.
  induction fuel as [|fuel IH]; intros call gamma Hg; [reflexivity|].
  cbn [falloff_while].
  assert (Hg' : 0 < gamma * (1 - falloff_epsilon)) by nra.
  rewrite (always_None call _ Hg').
  specialize (IH (S call) _ Hg').
  destruct (falloff_while _ _ _ _ _ _ _ _ _ _ _ fuel (S call) _ None).
  exact IH.
Qed.

Lemma epsilon_falloff_never (gamma_upper : Q) :
  0 < gamma_upper ->
  never_found
    (fun fuel =>
       epsilon_falloff math_log run_query get_counts_in_range argpartition
                       default_rng features colors kis mwu_epsilon
                       falloff_epsilon percent fuel gamma_upper).
Proof.
  intros Hg fuel. unfold epsilon_falloff.
  rewrite (always_None 0%nat _ Hg).
  pose proof (falloff_while_never fuel 1 gamma_upper Hg) as H.
  destruct (falloff_while _ _ _ _ _ _ _ _ _ _ _ fuel 1 gamma_upper None).
  exact H.
Qed.

End NeverFound.

Lemma valid_dup : valid_input 3 2 features_dup colors3 kis3 (1 # 2) 1.
Proof.
  apply Build_valid_input.
  - reflexivity.
  - reflexivity.
  - reflexivity.
  - apply Nat.le_refl.
  - repeat constructor. simpl. tauto.
  - exact quotas3_ok.
  - split; reflexivity.
  - split; [reflexivity|]. apply Qle_refl.
Qed.

(** Under uniform weights each of the two coincident points sees both of
    them, so any two of the three sums add up to at least one. *)
Lemma dup_first_weight (gamma : Q) :
  0 < gamma ->
  1 <= round_weight ball_sum numpy_argpartition gamma features_dup colors3
                    kis3 (repeat (1 / inject_Z (Z.of_nat 3)) 3).
Proof.
  intros Hg. unfold round_weight.
  assert (Hr : 0 <= gamma / 2).
  { pose proof (Qdiv_2 gamma). set (q := gamma / 2) in *. lra. }
  set (r := gamma / 2) in *.
  set (w := ball_sum features_dup r (repeat (1 / inject_Z (Z.of_nat 3)) 3)).
  assert (W00 : within r [0; 0] [0; 0] = true) by now apply within_self.
  assert (W22 : within r [5; 0] [5; 0] = true) by now apply within_self.
  assert (Hw : w = [(1 # 3) + ((1 # 3) + 0); (1 # 3) + ((1 # 3) + 0);
                    (1 # 3) + 0]
               \/ w = [(1 # 3) + ((1 # 3) + ((1 # 3) + 0));
                       (1 # 3) + ((1 # 3) + ((1 # 3) + 0));
                       (1 # 3) + 0]
               \/ w = [(1 # 3) + ((1 # 3) + 0); (1 # 3) + ((1 # 3) + 0);
                       (1 # 3) + ((1 # 3) + ((1 # 3) + 0))]
               \/ w = [(1 # 3) + ((1 # 3) + ((1 # 3) + 0));
                       (1 # 3) + ((1 # 3) + ((1 # 3) + 0));
                       (1 # 3) + ((1 # 3) + ((1 # 3) + 0))]).
  { unfold w, ball_sum, features_dup.
    change (repeat (1 / inject_Z (Z.of_nat 3)) 3)
      with [1 # 3; 1 # 3; 1 # 3].
    cbn [map combine filter fst].
    rewrite W00, W22.
    destruct (within r [0; 0] [5; 0]); destruct (within r [5; 0] [0; 0]);
      cbn [map snd np_sum fold_right]; tauto. }
  apply Qle_bool_iff.
  destruct Hw as [-> | [-> | [-> | ->]]]; vm_compute; reflexivity.
Qed.

Lemma dup_solver_None (gen : nat -> nat) (gamma : Q) :
  0 < gamma ->
  mwu_concrete gen gamma 3 2 features_dup colors3 kis3 (1 # 2) 1 = Ok None.
Proof.
  intros Hg. unfold mwu_concrete, mult_weight_upd.
  assert (H1 : (1 <= 2)%nat) by lia.
  assert (H3 : (1 <= 3)%nat) by lia.
  assert (He : 0 < 1 # 2) by reflexivity.
  rewrite (mult_weight_upd_loop_eq ln_approx ball_sum ball_count
             numpy_argpartition gamma 3 2 features_dup colors3 kis3 (1 # 2)
             H1 H3 He gen 1).
  destruct (valid_passes ln_approx ln_approx_ok 3 2 features_dup colors3 kis3
              (1 # 2) 1 valid_dup) as [HP _].
  destruct (passes (raw_T ln_approx 3 2 (1 # 2) * 1)) as [|n]; [lia|].
  cbn [for_range].
  destruct (body_progress ball_sum ball_count numpy_argpartition
              ball_sum_ok ball_count_ok numpy_argpartition_ok
              Stochastic gen gamma (mu_of 2) (scaled_epsilon (1 # 2)) (1 # 2)
              features_dup colors3 kis3 3 eq_refl eq_refl quotas3_ok)
    with (t := O) (st := start_state gen 3) as [[_ H]|[Hn _]].
  - unfold mu_of. lia.
  - split; [discriminate|reflexivity].
  - exact H3.
  - now apply initial_state_good.
  - rewrite H. reflexivity.
  - exfalso. apply Hn. now apply dup_first_weight.
Qed.

(** C2, as stated, fails, in two ways.

    Two points of one color, both wanted ([k = N = 2], so the input is
    valid), [gamma_upper = 2], [falloff_epsilon = 1/10]: whatever [gamma]
    is, both points are selected in the first pass and their [w_sums] add
    up to at least the sum of [h], which is one.

    Two coincident points and a third one, two wanted ([k = 2 < N = 3]):
    whatever [gamma] is, the first pass selects the third point and one
    of the coincident ones, with sums 1/3 and 2/3 at least.

    Either way the solver answers [None] every time and the [while] loop
    of the driver never ends. *)
Lemma falloff_never_ends :
  (valid_input 2 2 features2 colors2 kis2 (1 # 2) 1 /\
   never_found
     (fun fuel => falloff_concrete features2 colors2 kis2 (1 # 2) (1 # 10) 1
                                   fuel 2))
  /\
  (valid_input 3 2 features_dup colors3 kis3 (1 # 2) 1 /\
   never_found
     (fun fuel => falloff_concrete features_dup colors3 kis3 (1 # 2)
                                   (1 # 10) 1 fuel 2)).
Proof.
  split; split.
  - exact valid2.
  - apply epsilon_falloff_never.
    + split; reflexivity.
    + intros call gamma Hg. unfold solve.
      apply solver_None_when_all_wanted.
      * exact ln_approx_ok.
      * exact ball_sum_ok.
      * exact ball_sum_covers_self.
      * exact ball_count_ok.
      * exact numpy_argpartition_ok.
      * exact valid2.
      * reflexivity.
      * lra.
    + reflexivity.
  - exact valid_dup.
  - apply epsilon_falloff_never.
    + split; reflexivity.
    + intros call gamma Hg. unfold solve.
      now apply dup_solver_None.
    + reflexivity.
Qed.

(** ** When the points can be isolated *)

Lemma Forall2_Qeq_nth (a b : vec) :
  Forall2 Qeq a b -> forall i, nth i a 0 == nth i b 0.
Proof.
  induction 1 as [|x y a b Hxy _ IH]; intros i.
  - destruct i; reflexivity.
  - destruct i as [|i]; simpl; [exact Hxy | apply IH].
Qed.

Section Isolated.

Variable run_query : list point -> Q -> vec -> vec.
Variable get_counts_in_range : list point -> list point -> Q -> list nat.
Variable argpartition : vec -> nat -> list nat.
Hypothesis run_query_contract : run_query_ok run_query.
Hypothesis counts_contract : counts_ok get_counts_in_range.
Hypothesis argpartition_contract : argpartition_ok argpartition.

Variables (cad : cadence) (gen : nat -> nat).
Variables (gamma : Q) (mu : Z) (scaled_eps epsilon : Q).
Variables (features : list point) (colors : list string).
Variable kis : list (string * nat).
Variable N : nat.

Hypothesis features_N : length features = N.
Hypothesis colors_N : length colors = N.
Hypothesis quotas : quotas_ok colors kis.
Hypothesis keys_distinct : NoDup (map fst kis).
Hypothesis some_left_out : (kis_total kis < N)%nat.
Hypothesis mu_pos : (1 <= mu)%Z.
Hypothesis scaled_eps_range : 0 <= scaled_eps /\ scaled_eps < 4.
Hypothesis N_pos : (1 <= N)%nat.

Variable delta : Q.
Hypothesis isolated : isolating run_query features delta.
Hypothesis radius_small : 0 <= gamma / 2 /\ gamma / 2 < delta.

(** The selection leaves a point out, and that point has weight. *)
Lemma isolated_weight (h : vec) :
  length h = N -> Forall (fun x => 0 < x) h -> np_sum h == 1 ->
  round_weight run_query argpartition gamma features colors kis h < 1.
Proof.
  intros Lh Ph Sh. unfold round_weight.
  set (w_sums := run_query features (gamma / 2) h).
  assert (Lw : (length colors <= length w_sums)%nat).
  { unfold w_sums. rewrite run_query_contract. lia. }
  set (sel := chosen_all argpartition colors w_sums kis).
  assert (Heq : sum_at w_sums sel == sum_at h sel).
  { apply sum_at_eq. intros i _. apply Forall2_Qeq_nth.
    unfold w_sums. apply isolated; try tauto. congruence. }
  rewrite Heq, <- Sh. apply sum_at_lt_total.
  - exact Ph.
  - now apply chosen_all_NoDup.
  - apply Forall_forall. intros i Hi.
    apply (chosen_all_color argpartition colors w_sums
             argpartition_contract Lw kis i quotas) in Hi. lia.
  - unfold sel. rewrite chosen_all_length by assumption. lia.
Qed.

(** From a good state the loop goes on to its end or to a [break]. *)
Lemma isolated_loop (n : nat) :
  forall t last st,
    good_state N st ->
    exists ex,
      for_range run_query get_counts_in_range argpartition cad gen gamma mu
                scaled_eps epsilon features colors kis n t last st = Ok ex
      /\ forall u, ex <> ReturnedNone u.
Proof.
  induction n as [|n IH]; intros t last st Hgood.
  - eexists. split; [reflexivity|]. discriminate.
  - cbn [for_range].
    destruct (body_progress run_query get_counts_in_range argpartition
                run_query_contract counts_contract argpartition_contract
                cad gen gamma mu scaled_eps epsilon features colors kis N
                features_N colors_N quotas mu_pos scaled_eps_range N_pos
                t st Hgood) as [[Hw _]|(_ & st' & [Hp|Hp] & Hgood')].
    + exfalso. destruct Hgood as (Lh & _ & Ph & Sh).
      pose proof (isolated_weight (st_h st) Lh Ph Sh). lra.
    + rewrite Hp. cbn [bind]. apply IH. exact Hgood'.
    + rewrite Hp. cbn [bind]. eexists. split; [reflexivity|]. discriminate.
Qed.

End Isolated.

(** With [k < N] the solver returns a vector once [gamma / 2] is below
    the isolating radius. *)
Lemma solver_feasible_when_isolated
      (math_log : nat -> Q) (run_query : list point -> Q -> vec -> vec)
      (get_counts_in_range : list point -> list point -> Q -> list nat)
      (argpartition : vec -> nat -> list nat)
      (gen : nat -> nat) (gamma : Q) (N k : nat)
      (features : list point) (colors : list string)
      (kis : list (string * nat)) (epsilon percent delta : Q) :
  log_ok math_log -> run_query_ok run_query ->
  counts_ok get_counts_in_range -> argpartition_ok argpartition ->
  valid_input N k features colors kis epsilon percent ->
  (k < N)%nat ->
  isolating run_query features delta ->
  0 < gamma -> gamma < 2 * delta ->
  exists X,
    mult_weight_upd math_log run_query get_counts_in_range argpartition
                    gen gamma N k features colors kis epsilon percent
    = Ok (Some X).
Proof.
  intros Hlog Hrq Hcnt Hap Hvalid HkN Hiso Hg Hgd.
  pose proof (valid_N_ge_2 N k features colors kis epsilon percent Hvalid)
    as HN.
  pose proof (valid_passes math_log Hlog N k features colors kis epsilon
                percent Hvalid) as [HP _].
  pose proof (valid_scaled_eps N k features colors kis epsilon percent Hvalid)
    as HS.
  destruct Hvalid as [HF HC Hk Hk2 HND HQ [He He1] Hp].
  assert (Hr : 0 <= gamma / 2 /\ gamma / 2 < delta).
  { pose proof (Qdiv_2 gamma). set (q := gamma / 2) in *. lra. }
  unfold mult_weight_upd.
  rewrite mult_weight_upd_loop_eq by (auto; lia).
  assert (Hmu : (1 <= mu_of k)%Z) by (unfold mu_of; lia).
  assert (HNp : (1 <= N)%nat) by lia.
  assert (HkN' : (kis_total kis < N)%nat) by congruence.
  destruct (isolated_loop run_query get_counts_in_range argpartition
              Hrq Hcnt Hap Stochastic gen gamma (mu_of k)
              (scaled_epsilon epsilon) epsilon features colors kis N
              (eq_sym HF) HC HQ HND HkN' Hmu HS HNp delta Hiso Hr
              (passes (raw_T math_log N k epsilon * percent)) 0 None
              (start_state gen N) (initial_state_good N _ _ HNp))
    as (ex & E & Hex).
  rewrite E. cbn [bind].
  pose proof (for_range_exit run_query get_counts_in_range argpartition
                Stochastic gen gamma (mu_of k) (scaled_epsilon epsilon)
                epsilon features colors kis (start_state gen N) _ 0
                (start_state gen N) ex eq_refl E) as Hx.
  destruct ex as [last st|u st|u]; cbn [finish].
  - destruct Hx as [_ ->].
    destruct (passes (raw_T math_log N k epsilon * percent)); [lia|].
    simpl. eauto.
  - eauto.
  - exfalso. now apply (Hex u).
Qed.

Lemma decay_bound (fe : Q) (n : nat) :
  0 < fe /\ fe < 1 ->
  forall gamma,
    0 < gamma ->
    0 < decay fe gamma n /\ decay fe gamma n <= gamma /\
    decay fe gamma n * (1 + inject_Z (Z.of_nat n) * fe) <= gamma.
Proof.
  intros Hfe. induction n as [|n IH]; intros gamma Hg.
  - cbn [decay Z.of_nat]. change (inject_Z 0) with 0.
    repeat split; lra.
  - cbn [decay].
    assert (Hg' : 0 < gamma * (1 - fe) /\ gamma * (1 - fe) < gamma) by nra.
    destruct (IH _ (proj1 Hg')) as (D0 & D1 & D2).
    rewrite Nat2Z.inj_succ. unfold Z.succ. rewrite inject_Z_plus.
    change (inject_Z 1) with 1.
    set (d := decay fe (gamma * (1 - fe)) n) in *.
    set (m := inject_Z (Z.of_nat n)) in *.
    assert (Hm : 0 <= m).
    { unfold m. change 0 with (inject_Z 0). apply inject_Z_le. lia. }
    repeat split; try lra. nra.
Qed.

(** The geometric falloff gets below any positive bound. *)
Lemma decay_reaches (fe gamma bound : Q) :
  0 < fe /\ fe < 1 -> 0 < gamma -> 0 < bound ->
  exists n, decay fe gamma n < bound.
Proof.
  intros Hfe Hg Hb.
  set (q := gamma / (bound * fe)).
  assert (Hbf : 0 < bound * fe) by (apply Qmult_lt_0_compat; tauto).
  assert (Hq : 0 < q) by (apply Qlt_shift_div_l; lra).
  exists (Z.to_nat (Qceiling q)).
  destruct (decay_bound fe (Z.to_nat (Qceiling q)) Hfe gamma Hg)
    as (D0 & _ & D2).
  assert (HZ : (0 <= Qceiling q)%Z).
  { pose proof (Qle_ceiling q) as HC.
    assert (Hz : (0 < Qceiling q)%Z)
      by (rewrite Zlt_Qlt; change (inject_Z 0) with 0; lra).
    lia. }
  rewrite Z2Nat.id in D2 by exact HZ.
  pose proof (Qle_ceiling q) as HC.
  set (m := inject_Z (Qceiling q)) in *.
  set (d := decay fe gamma (Z.to_nat (Qceiling q))) in *.
  assert (Hqm : gamma <= m * (bound * fe)).
  { assert (E : gamma == q * (bound * fe)).
    { unfold q. field. lra. }
    rewrite E. apply Qmult_le_compat_r; [exact HC|lra]. }
  apply Qnot_le_lt. intros Hc.
  assert (bound * (1 + m * fe) <= d * (1 + m * fe)).
  { apply Qmult_le_compat_r; [exact Hc|]. nra. }
  nra.
Qed.

Section Terminates.

Variable math_log : nat -> Q.
Variable run_query : list point -> Q -> vec -> vec.
Variable get_counts_in_range : list point -> list point -> Q -> list nat.
Variable argpartition : vec -> nat -> list nat.
Variable default_rng : nat -> nat -> nat.
Variables (features : list point) (colors : list string).
Variable kis : list (string * nat).
Variables (mwu_epsilon falloff_epsilon percent : Q).

Let call_solver :=
  solve math_log run_query get_counts_in_range argpartition default_rng
        features colors kis mwu_epsilon percent.

Hypothesis falloff_range : 0 < falloff_epsilon /\ falloff_epsilon < 1.
Hypothesis raises_nothing :
  forall call gamma,
    0 < gamma ->
    call_solver call gamma = Ok None \/
    exists X, call_solver call gamma = Ok (Some X).
Variable small : Q.
Hypothesis feasible_below :
  forall call gamma,
    0 < gamma -> gamma < small ->
    exists X, call_solver call gamma = Ok (Some X).

Lemma falloff_while_finds (n : nat) :
  forall call gamma X,
    0 < gamma ->
    decay falloff_epsilon gamma n < small ->
    (gamma < small -> X <> None) ->
    exists gamma' X',
      snd (falloff_while math_log run_query get_counts_in_range argpartition
                         default_rng features colors kis mwu_epsilon
                         falloff_epsilon percent n call gamma X)
      = Found gamma' X'.
Proof.
  induction n as [|n IH]; intros call gamma X Hg Hd HX.
  - simpl in Hd. destruct X as [X|]; [simpl; eauto|].
    exfalso. now apply HX.
  - destruct X as [X|]; [simpl; eauto|].
    cbn [falloff_while]. fold call_solver.
    assert (Hg' : 0 < gamma * (1 - falloff_epsilon)) by nra.
    cbn [decay] in Hd.
    destruct (raises_nothing call _ Hg') as [E|[X' E]]; rewrite E.
    + destruct (IH (S call) (gamma * (1 - falloff_epsilon)) None Hg' Hd)
        as (g & Xf & Ef).
      { intros Hs. destruct (feasible_below call _ Hg' Hs) as [X' E'].
        congruence. }
      destruct (falloff_while _ _ _ _ _ _ _ _ _ _ _ n (S call) _ None).
      simpl in *. eauto.
    + destruct (IH (S call) (gamma * (1 - falloff_epsilon)) (Some X') Hg' Hd)
        as (g & Xf & Ef); [discriminate|].
      destruct (falloff_while _ _ _ _ _ _ _ _ _ _ _ n (S call) _ (Some X')).
      simpl in *. eauto.
Qed.

Lemma epsilon_falloff_finds (gamma_upper : Q) :
  0 < gamma_upper -> 0 < small ->
  exists fuel gamma X,
    snd (epsilon_falloff math_log run_query get_counts_in_range argpartition
                         default_rng features colors kis mwu_epsilon
                         falloff_epsilon percent fuel gamma_upper)
    = Found gamma X.
Proof.
  intros Hg Hs.
  destruct (decay_reaches falloff_epsilon gamma_upper small falloff_range
              Hg Hs) as [n Hn].
  exists n. unfold epsilon_falloff. fold call_solver.
  destruct (raises_nothing 0%nat gamma_upper Hg) as [E|[X E]]; rewrite E.
  - destruct (falloff_while_finds n 1 gamma_upper None Hg Hn)
      as (g & Xf & Ef).
    { intros Hsm. destruct (feasible_below 0%nat _ Hg Hsm) as [X' E'].
      congruence. }
    destruct (falloff_while _ _ _ _ _ _ _ _ _ _ _ n 1 gamma_upper None).
    simpl in *. eauto.
  - destruct (falloff_while_finds n 1 gamma_upper (Some X) Hg Hn)
      as (g & Xf & Ef); [discriminate|].
    destruct (falloff_while _ _ _ _ _ _ _ _ _ _ _ n 1 gamma_upper (Some X)).
    simpl in *. eauto.
Qed.

End Terminates.

(** C2, as the code allows it.  Let the input be valid with [k < N], and
    let the points be such that below some radius [delta > 0] every ball
    holds its centre only.  Then for [gamma_upper > 0] and
    [0 < falloff_epsilon < 1] the [while] loop of the driver ends after
    finitely many steps with a vector from the solver.  (With [k = N] it
    never does; coincident points are not covered.) *)
Theorem falloff_terminates_when_a_point_is_left_out
        (math_log : nat -> Q) (run_query : list point -> Q -> vec -> vec)
        (get_counts_in_range : list point -> list point -> Q -> list nat)
        (argpartition : vec -> nat -> list nat)
        (default_rng : nat -> nat -> nat)
        (features : list point) (colors : list string)
        (kis : list (string * nat))
        (mwu_epsilon falloff_epsilon percent gamma_upper delta : Q) :
  log_ok math_log -> run_query_ok run_query ->
  counts_ok get_counts_in_range -> argpartition_ok argpartition ->
  valid_input (length features) (kis_total kis) features colors kis
              mwu_epsilon percent ->
  (kis_total kis < length features)%nat ->
  0 < delta -> isolating run_query features delta ->
  0 < gamma_upper -> 0 < falloff_epsilon /\ falloff_epsilon < 1 ->
  exists fuel gamma X,
    snd (epsilon_falloff math_log run_query get_counts_in_range argpartition
                         default_rng features colors kis mwu_epsilon
                         falloff_epsilon percent fuel gamma_upper)
    = Found gamma X.
Proof.
  intros Hlog Hrq Hcnt Hap Hvalid HkN Hd Hiso Hg Hfe.
  apply (epsilon_falloff_finds math_log run_query get_counts_in_range
           argpartition default_rng features colors kis mwu_epsilon
           falloff_epsilon percent Hfe) with (small := 2 * delta).
  - intros call gamma Hgam. unfold solve.
    exact (proj1
      (solver_raises_nothing
         math_log run_query get_counts_in_range argpartition
         Hlog Hrq Hcnt Hap (default_rng call) gamma (length features)
         (kis_total kis) features colors kis mwu_epsilon percent Hvalid)).
  - intros call gamma Hgam Hsmall. unfold solve.
    now apply (solver_feasible_when_isolated
                 math_log run_query get_counts_in_range argpartition
                 (default_rng call) gamma (length features) (kis_total kis)
                 features colors kis mwu_epsilon percent delta).
  - exact Hg.
  - lra.
Qed.

Lemma within_far (r : Q) (p q : point) :
  r * r < sqdist p q -> within r p q = false.
Proof.
  intros H. unfold within. apply andb_false_intro2.
  destruct (Qle_bool (sqdist p q) (r * r)) eqn:E; [|reflexivity].
  apply Qle_bool_iff in E. lra.
Qed.

(** The three far-apart points are at least 10 from one another. *)
Lemma ball_sum_isolating_features3 : isolating ball_sum features3 10.
Proof.
  intros r w Hr Hrd HL.
  destruct w as [|a [|b [|c [|]]]]; simpl in HL; try discriminate.
  assert (Hrr : r * r < 100) by nra.
  assert (W00 : within r [0; 0] [0; 0] = true) by now apply within_self.
  assert (W11 : within r [10; 0] [10; 0] = true) by now apply within_self.
  assert (W22 : within r [0; 10] [0; 10] = true) by now apply within_self.
  assert (W01 : within r [0; 0] [10; 0] = false).
  { apply within_far. assert (E : sqdist [0; 0] [10; 0] == 100) by reflexivity.
    rewrite E. exact Hrr. }
  assert (W02 : within r [0; 0] [0; 10] = false).
  { apply within_far. assert (E : sqdist [0; 0] [0; 10] == 100) by reflexivity.
    rewrite E. exact Hrr. }
  assert (W10 : within r [10; 0] [0; 0] = false).
  { apply within_far. assert (E : sqdist [10; 0] [0; 0] == 100) by reflexivity.
    rewrite E. exact Hrr. }
  assert (W12 : within r [10; 0] [0; 10] = false).
  { apply within_far. assert (E : sqdist [10; 0] [0; 10] == 200) by reflexivity.
    rewrite E. lra. }
  assert (W20 : within r [0; 10] [0; 0] = false).
  { apply within_far. assert (E : sqdist [0; 10] [0; 0] == 100) by reflexivity.
    rewrite E. exact Hrr. }
  assert (W21 : within r [0; 10] [10; 0] = false).
  { apply within_far. assert (E : sqdist [0; 10] [10; 0] == 200) by reflexivity.
    rewrite E. lra. }
  unfold ball_sum, features3. cbn [map combine filter fst].
  rewrite W00, W11, W22, W01, W02, W10, W12, W20, W21.
  cbn [map snd np_sum fold_right].
  repeat constructor; ring.
Qed.

(** The three far-apart points, two wanted, starting from [gamma = 40]. *)
Lemma falloff_terminates_when_a_point_is_left_out_witness :
  exists fuel gamma X,
    snd (falloff_concrete features3 colors3 kis3 (1 # 2) (1 # 10) (1 # 100)
                          fuel 40)
    = Found gamma X.
Proof.
  assert (Hp : 0 < 1 # 100 /\ 1 # 100 <= 1)
    by (split; [reflexivity|discriminate]).
  assert (Hk : (kis_total kis3 < length features3)%nat)
    by (unfold kis_total; simpl; lia).
  assert (Hd : 0 < 10) by reflexivity.
  assert (Hg : 0 < 40) by reflexivity.
  assert (Hfe : 0 < 1 # 10 /\ 1 # 10 < 1) by (split; reflexivity).
  exact (falloff_terminates_when_a_point_is_left_out
           ln_approx ball_sum ball_count numpy_argpartition (constant_rng 0)
           features3 colors3 kis3 (1 # 2) (1 # 10) (1 # 100) 40 10
           ln_approx_ok ball_sum_ok ball_count_ok numpy_argpartition_ok
           (valid3 (1 # 100) Hp) Hk Hd ball_sum_isolating_features3 Hg Hfe).
Defined.

(** ** The early-stop test on a long run

    The three far-apart points with [epsilon = 1/10] at the full
    theoretical limit: 924 passes.  Every query on [X / (t + 1)] at radius
    1/2 would answer with [X / (t + 1)] itself, whose entries are at most
    one, so a test made at any pass would end the loop there; yet the loop
    is not left through [break]. *)

Lemma any_above_unit (v w : vec) (bound : Q) :
  Forall2 Qeq v w -> entries_within 0 1 w -> 1 <= bound ->
  any_above v bound = false.
Proof.
  intros H Hw Hb. unfold any_above.
  induction H as [|x y v w Hxy _ IH]; [reflexivity|].
  inversion Hw as [|? ? [_ Hy] Hw']; subst. simpl.
  rewrite IH by exact Hw'.
  assert (Hx : Qle_bool x bound = true) by (apply Qle_bool_iff; lra).
  now rewrite Hx.
Qed.

Lemma early_stop_skipped_on_long_run :
  passes (raw_T ln_approx 3 2 (1 # 10) * 1) = 924%nat /\
  leaves_by_break
    (mwu_loop_concrete (fun _ => O) 1 3 2 features3 colors3 kis3 (1 # 10) 1)
  = false /\
  forall X t,
    length X = 3%nat ->
    entries_within 0 (inject_Z (Z.of_nat t) + 1) X ->
    any_above (ball_sum features3 (1 / 2) (scale_down X t))
              (1 + (1 # 10)) = false.
Proof.
  split; [vm_compute; reflexivity|]. split.
  - apply mult_weight_upd_loop_never_breaks.
  - intros X t LX HX.
    apply any_above_unit with (w := scale_down X t).
    + apply ball_sum_isolating_features3.
      * discriminate.
      * reflexivity.
      * unfold scale_down. rewrite length_map. exact LX.
    + now apply scale_down_unit.
    + discriminate.
Qed.

(** * Further properties of the code *)

(** ** The prologue of the solver *)

Lemma scaled_epsilon_zero (epsilon : Q) :
  ~ 1 + epsilon / 4 == 0 ->
  (scaled_epsilon epsilon == 0 <-> epsilon == 0).
Proof.
  intros Hd. unfold scaled_epsilon.
  remember (1 + epsilon / 4) as d eqn:Ed. clear Ed. split.
  - intros H.
    assert (E : epsilon == epsilon / d * d) by (field; exact Hd).
    rewrite E, H. ring.
  - intros H. rewrite H. unfold Qdiv. ring.
Qed.

Lemma one_plus_quarter_zero (epsilon : Q) :
  1 + epsilon / 4 == 0 <-> epsilon == -4.
Proof.
  pose proof (Qdiv_4 epsilon) as Hq. set (q := epsilon / 4) in *.
  split; intros H; lra.
Qed.

Lemma square_zero (x : Q) : x * x == 0 <-> x == 0.
Proof.
  split; intros H; [|rewrite H; ring].
  destruct (Qeq_dec x 0) as [E|E]; [exact E|].
  exfalso. assert (0 < x * x) by nra. lra.
Qed.

Lemma inject_nat_zero (n : nat) : inject_Z (Z.of_nat n) == 0 <-> n = O.
Proof.
  split.
  - intros H. destruct n as [|n]; [reflexivity|]. exfalso.
    assert (0 < inject_Z (Z.of_nat (S n))) by (apply inject_Z_pos; lia).
    lra.
  - intros ->. reflexivity.
Qed.

(** X1.  The prologue of [mult_weight_upd], in both files.  With [k = 0]
    the assertion fails before anything else is computed.  With [k > 0]
    a [ZeroDivisionError] is raised when [epsilon = -4] (line 50),
    [N = 0] (line 55) or [epsilon = 0] (line 58); in every other case the
    prologue raises nothing and the loop is entered with the named
    quantities. *)
Theorem prologue_errors
        (math_log : nat -> Q) (run_query : list point -> Q -> vec -> vec)
        (get_counts_in_range : list point -> list point -> Q -> list nat)
        (argpartition : vec -> nat -> list nat)
        (gen : nat -> nat) (gamma : Q) (N k : nat)
        (features : list point) (colors : list string)
        (kis : list (string * nat)) (epsilon percent : Q) :
  (mult_weight_upd math_log run_query get_counts_in_range argpartition
                   gen gamma N 0 features colors kis epsilon percent
   = Raise AssertionError
   /\ multweights_mult_weight_upd math_log run_query get_counts_in_range
                                  argpartition gamma N 0 features colors kis
                                  epsilon
      = Raise AssertionError)
  /\ ((1 <= k)%nat ->
      (epsilon == -4 \/ N = 0%nat \/ epsilon == 0 ->
       mult_weight_upd math_log run_query get_counts_in_range argpartition
                       gen gamma N k features colors kis epsilon percent
       = Raise ZeroDivisionError
       /\ multweights_mult_weight_upd math_log run_query get_counts_in_range
                                      argpartition gamma N k features colors
                                      kis epsilon
          = Raise ZeroDivisionError)
      /\ (~ epsilon == -4 -> N <> 0%nat -> ~ epsilon == 0 ->
          mult_weight_upd_loop math_log run_query get_counts_in_range
                               argpartition gen gamma N k features colors
                               kis epsilon percent
          = for_range run_query get_counts_in_range argpartition Stochastic
                      gen gamma (mu_of k) (scaled_epsilon epsilon) epsilon
                      features colors kis
                      (passes (raw_T math_log N k epsilon * percent)) 0 None
                      (start_state gen N)
          /\ multweights_mult_weight_upd_loop math_log run_query
                                              get_counts_in_range
                                              argpartition gamma N k features
                                              colors kis epsilon
             = for_range run_query get_counts_in_range argpartition Every50
                         (fun _ => O) gamma (mu_of k)
                         (scaled_epsilon epsilon) epsilon features colors kis
                         (passes (raw_T math_log N k epsilon)) 0 None
                         (multweights_start_state N))).
Proof.
  split; [split; reflexivity|].
  intros Hk.
  unfold mult_weight_upd, multweights_mult_weight_upd,
    mult_weight_upd_loop, multweights_mult_weight_upd_loop.
  replace (0 <? k)%nat with true by (symmetry; apply Nat.ltb_lt; lia).
  split.
  - intros H.
    destruct (Qeq_dec epsilon (-4)) as [E4|E4].
    { rewrite (pydiv_zero epsilon (1 + epsilon / 4))
        by now apply one_plus_quarter_zero.
      split; reflexivity. }
    rewrite (pydiv_Ok epsilon (1 + epsilon / 4))
      by (intros HC; now apply one_plus_quarter_zero in HC).
    cbn [bind].
    destruct (Nat.eq_dec N 0) as [EN|EN].
    { rewrite (pydiv_zero 1 (inject_Z (Z.of_nat N)))
        by now apply inject_nat_zero.
      split; reflexivity. }
    rewrite (pydiv_Ok 1 (inject_Z (Z.of_nat N)))
      by (intros HC; now apply inject_nat_zero in HC).
    cbn [bind].
    destruct H as [H|[H|H]]; [contradiction|contradiction|].
    unfold theoretical_T. rewrite pydiv_zero.
    + split; reflexivity.
    + apply square_zero. fold (scaled_epsilon epsilon).
      apply scaled_epsilon_zero; [|exact H].
      intros HC. now apply one_plus_quarter_zero in HC.
  - intros E4 EN E0.
    assert (Hd : ~ 1 + epsilon / 4 == 0)
      by (intros HC; now apply one_plus_quarter_zero in HC).
    rewrite (pydiv_Ok epsilon (1 + epsilon / 4)) by exact Hd.
    cbn [bind].
    rewrite (pydiv_Ok 1 (inject_Z (Z.of_nat N)))
      by (intros HC; now apply inject_nat_zero in HC).
    cbn [bind]. unfold theoretical_T. rewrite pydiv_Ok.
    + split; reflexivity.
    + fold (scaled_epsilon epsilon). intros HC.
      apply (proj1 (square_zero _)) in HC.
      apply (proj1 (scaled_epsilon_zero epsilon Hd)) in HC. contradiction.
Qed.

Lemma prologue_errors_witness :
  mwu_concrete (fun _ => O) 1 0 2 [] [] kis3 (1 # 2) 1
  = Raise ZeroDivisionError
  /\ mwu_concrete (fun _ => O) 1 3 2 features3 colors3 kis3 0 1
     = Raise ZeroDivisionError.
Proof.
  assert (Hk : (1 <= 2)%nat) by lia.
  split.
  - apply (proj1 (proj2 (prologue_errors
             ln_approx ball_sum ball_count numpy_argpartition (fun _ => O)
             1 0 2 [] [] kis3 (1 # 2) 1) Hk)).
    right. left. reflexivity.
  - apply (proj1 (proj2 (prologue_errors
             ln_approx ball_sum ball_count numpy_argpartition (fun _ => O)
             1 3 2 features3 colors3 kis3 0 1) Hk)).
    right. right. reflexivity.
Defined.

(** ** Quotas outside [1 .. |I_c|] *)








Section Unmeetable.

Variable run_query : list point -> Q -> vec -> vec.
Variable get_counts_in_range : list point -> list point -> Q -> list nat.
Variable argpartition : vec -> nat -> list nat.
Hypothesis run_query_contract : run_query_ok run_query.
Hypothesis argpartition_contract : argpartition_ok argpartition.

Variables (cad : cadence) (gen : nat -> nat).
Variables (gamma : Q) (mu : Z) (scaled_eps epsilon : Q).
Variables (features : list point) (colors : list string).
Variables (pre post : list (string * nat)) (c : string) (ki : nat).

Hypothesis features_length : length features = length colors.
Hypothesis pre_ok : quotas_ok colors pre.
Hypothesis too_many : (length (nonzero_eq c colors) < ki)%nat.


End Unmeetable.



(** ** What a pass adds to [X] *)

Lemma sum_at_cons (w : vec) (i : nat) (idx : list nat) :
  sum_at w (i :: idx) = nth i w 0 + sum_at w idx.
Proof. reflexivity. Qed.

Lemma inject_nat_succ (n : nat) :
  inject_Z (Z.of_nat (S n)) == inject_Z (Z.of_nat n) + 1.
Proof.
  rewrite Nat2Z.inj_succ. unfold Z.succ. rewrite inject_Z_plus. reflexivity.
Qed.

Lemma inject_nat_add (a b : nat) :
  inject_Z (Z.of_nat (a + b))
  == inject_Z (Z.of_nat a) + inject_Z (Z.of_nat b).
Proof. rewrite Nat2Z.inj_add, inject_Z_plus. reflexivity. Qed.

(** Over any list of positions, [X[idx] += 1] raises the sum by the
    number of listed positions that are in [idx]. *)
Lemma sum_at_add_one (X : vec) (sel : list nat) (X' : vec) (J : list nat) :
  add_one_at X sel = Ok X' ->
  Forall (fun i => (i < length X)%nat) J ->
  sum_at X' J
  == sum_at X J
     + inject_Z (Z.of_nat
                   (length (filter (fun i => existsb (Nat.eqb i) sel) J))).
Proof.
  intros HX. induction 1 as [|i J Hi _ IH].
  - unfold sum_at. simpl. ring.
  - rewrite !sum_at_cons, IH, (add_one_at_nth _ _ _ _ HX Hi).
    cbn [filter].
    destruct (existsb (Nat.eqb i) sel).
    + cbn [length]. rewrite inject_nat_succ. ring.
    + ring.
Qed.

Lemma filter_mem_length (sel J : list nat) :
  NoDup sel -> NoDup J -> incl sel J ->
  length (filter (fun i => existsb (Nat.eqb i) sel) J) = length sel.
Proof.
  intros Hs HJ Hincl. apply Permutation_length.
  apply NoDup_Permutation.
  - now apply NoDup_filter.
  - exact Hs.
  - intros i. rewrite filter_In, existsb_eqb_In. split.
    + tauto.
    + intros Hi. split; [now apply Hincl|exact Hi].
Qed.

Lemma filter_mem_none (sel J : list nat) :
  (forall i, In i J -> ~ In i sel) ->
  filter (fun i => existsb (Nat.eqb i) sel) J = [].
Proof.
  induction J as [|i J IH]; intros H; [reflexivity|].
  cbn [filter].
  destruct (existsb (Nat.eqb i) sel) eqn:E.
  - apply existsb_eqb_In in E. exfalso. apply (H i); [now left|exact E].
  - apply IH. intros j Hj. apply H. now right.
Qed.

(** Over a dictionary, the color loop adds one to an entry of [X] or
    leaves it as it is. *)
Lemma color_loop_step_or_stay (argpartition : vec -> nat -> list nat)
      (features : list point) (colors : list string) (w_sums : vec)
      (kis : list (string * nat)) :
  NoDup (map fst kis) ->
  forall (X : vec) (Sr : list point) (W : Q)
         (X' : vec) (Sr' : list point) (W' : Q),
    color_loop argpartition features colors w_sums kis (X, Sr, W)
    = Ok (X', Sr', W') ->
    forall i, (i < length X)%nat ->
              nth i X' 0 = nth i X 0 \/ nth i X' 0 = nth i X 0 + 1.
Proof.
  induction kis as [|e rest IH]; cbn [color_loop];
    intros ND X Sr W X' Sr' W' E i Hi.
  - inversion E; subst. now left.
  - destruct (color_step argpartition features colors w_sums (X, Sr, W) e)
      as [[[X1 S1] W1]|] eqn:E1; cbn [bind] in E; [|discriminate].
    inversion ND as [|? ? Hnot ND']; subst.
    destruct (color_step_effect _ _ _ _ _ _ _ _ _ _ _ E1) as [L1 Q1].
    assert (Hi1 : (i < length X1)%nat) by congruence.
    destruct (Q1 i Hi) as [Q|[Q Qc]].
    + rewrite <- Q. now apply (IH ND' X1 S1 W1 X' Sr' W' E).
    + right. rewrite <- Q.
      destruct (color_loop_effect _ _ _ _ _ _ _ _ _ _ _ E) as [L2 P2].
      destruct (P2 i Hi1) as (_ & _ & P3).
      apply P3. now rewrite Qc.
Qed.

Section Mass.

Variable argpartition : vec -> nat -> list nat.
Variables (features : list point) (colors : list string) (w_sums : vec).
Hypothesis argpartition_contract : argpartition_ok argpartition.
Hypothesis features_length : length features = length colors.
Hypothesis w_sums_long : (length colors <= length w_sums)%nat.

(** What a step of the color loop computes, for a quota that can be
    met. *)
Lemma color_step_chosen (X : vec) (Sr : list point) (W : Q)
      (e : string * nat) (X' : vec) (Sr' : list point) (W' : Q) :
  (1 <= snd e <= length (nonzero_eq (fst e) colors))%nat ->
  color_step argpartition features colors w_sums (X, Sr, W) e
  = Ok (X', Sr', W') ->
  add_one_at X (chosen argpartition w_sums colors (fst e) (snd e)) = Ok X' /\
  Sr' = Sr ++ map (fun i => nth i features [])
                  (chosen argpartition w_sums colors (fst e) (snd e)) /\
  W' = W + sum_at w_sums (chosen argpartition w_sums colors (fst e) (snd e)).
Proof.
  intros Hk. unfold color_step.
  rewrite (min_indecies_chosen _ argpartition_contract _ _ w_sums_long _ _ Hk).
  cbn [bind].
  set (sel := chosen argpartition w_sums colors (fst e) (snd e)).
  assert (Hsel : Forall (fun i => (i < length colors)%nat) sel).
  { apply Forall_forall. intros i Hi.
    now apply (chosen_color _ argpartition_contract _ _ w_sums_long _ _ Hk)
      in Hi. }
  destruct (add_one_at X sel) as [X1|] eqn:EX; cbn [bind]; [|discriminate].
  rewrite (take_Ok point (@nil Q) features sel)
    by (eapply Forall_impl; [|exact Hsel]; simpl; intros; lia).
  cbn [bind].
  rewrite (take_Ok Q 0 w_sums sel)
    by (eapply Forall_impl; [|exact Hsel]; simpl; intros; lia).
  cbn [bind]. intros H. inversion H; subst. auto.
Qed.

(** A step adds [K(c)] to the sum of [X], all of it on the positions of
    its own color. *)
Lemma color_step_mass (X : vec) (Sr : list point) (W : Q)
      (e : string * nat) (X' : vec) (Sr' : list point) (W' : Q) :
  length X = length colors ->
  (1 <= snd e <= length (nonzero_eq (fst e) colors))%nat ->
  color_step argpartition features colors w_sums (X, Sr, W) e
  = Ok (X', Sr', W') ->
  length X' = length X /\
  np_sum X' == np_sum X + inject_Z (Z.of_nat (snd e)) /\
  forall c,
    sum_at X' (nonzero_eq c colors)
    == sum_at X (nonzero_eq c colors)
       + (if String.eqb c (fst e) then inject_Z (Z.of_nat (snd e)) else 0).
Proof.
  intros LX Hk H.
  destruct (color_step_chosen X Sr W e X' Sr' W' Hk H) as (HA & _ & _).
  set (sel := chosen argpartition w_sums colors (fst e) (snd e)) in *.
  pose proof (chosen_NoDup _ argpartition_contract _ _ w_sums_long _ _ Hk)
    as ND.
  pose proof (chosen_length _ argpartition_contract _ _ w_sums_long _ _ Hk)
    as LS.
  pose proof (chosen_incl _ argpartition_contract _ _ w_sums_long _ _ Hk)
    as HI.
  pose proof (add_one_at_length _ _ _ HA) as LX'.
  fold sel in ND, LS, HI.
  split; [exact LX'|]. split.
  - rewrite <- (sum_at_seq X'), <- (sum_at_seq X), LX'.
    rewrite (sum_at_add_one X sel X' _ HA).
    + rewrite filter_mem_length; [now rewrite LS|exact ND|apply seq_NoDup|].
      intros i Hi. apply HI, nonzero_eq_In in Hi. apply in_seq. lia.
    + apply Forall_forall. intros i Hi. apply in_seq in Hi. lia.
  - intros c. rewrite (sum_at_add_one X sel X' _ HA).
    + destruct (String.eqb c (fst e)) eqn:Ec.
      * apply String.eqb_eq in Ec. subst c.
        rewrite filter_mem_length;
          [now rewrite LS|exact ND|apply nonzero_eq_NoDup|exact HI].
      * rewrite filter_mem_none; [reflexivity|].
        intros i Hi Hs. apply nonzero_eq_In in Hi. apply HI in Hs.
        apply nonzero_eq_In in Hs. apply String.eqb_neq in Ec.
        apply Ec. destruct Hi as [_ <-]. destruct Hs as [_ <-]. reflexivity.
    + apply Forall_forall. intros i Hi. apply nonzero_eq_In in Hi. lia.
Qed.

(** The loop over the colors: [k] is added to the sum of [X], [K(c)] on
    the positions of each color [c] of the dictionary, and [S] receives
    the features of the chosen indices, color after color. *)
Lemma color_loop_mass (kis : list (string * nat)) :
  quotas_ok colors kis ->
  forall (X : vec) (Sr : list point) (W : Q)
         (X' : vec) (Sr' : list point) (W' : Q),
    length X = length colors ->
    color_loop argpartition features colors w_sums kis (X, Sr, W)
    = Ok (X', Sr', W') ->
    length X' = length X /\
    np_sum X' == np_sum X + inject_Z (Z.of_nat (kis_total kis)) /\
    Sr' = Sr ++ map (fun i => nth i features [])
                    (chosen_all argpartition colors w_sums kis) /\
    (forall c, ~ In c (map fst kis) ->
               sum_at X' (nonzero_eq c colors)
               == sum_at X (nonzero_eq c colors)) /\
    (NoDup (map fst kis) ->
     forall c K, In (c, K) kis ->
                 sum_at X' (nonzero_eq c colors)
                 == sum_at X (nonzero_eq c colors) + inject_Z (Z.of_nat K)).
Proof.
  induction 1 as [|e rest He _ IH]; cbn [color_loop];
    intros X Sr W X' Sr' W' LX H.
  - inversion H; subst. split; [reflexivity|].
    split; [unfold kis_total; simpl; ring|].
    split; [simpl; now rewrite app_nil_r|].
    split; [reflexivity|]. intros _ c K [].
  - destruct (color_step argpartition features colors w_sums (X, Sr, W) e)
      as [[[X1 S1] W1]|] eqn:E1; cbn [bind] in H; [|discriminate].
    destruct (color_step_chosen _ _ _ _ _ _ _ He E1) as (_ & ES & _).
    destruct (color_step_mass _ _ _ _ _ _ _ LX He E1) as (L1 & T1 & C1).
    destruct (IH X1 S1 W1 X' Sr' W') as (L2 & T2 & ES2 & N2 & C2);
      [congruence|exact H|].
    split; [congruence|]. split; [|split; [|split]].
    + rewrite T2, T1.
      change (kis_total (e :: rest)) with (snd e + kis_total rest)%nat.
      rewrite inject_nat_add. ring.
    + rewrite ES2, ES.
      change (chosen_all argpartition colors w_sums (e :: rest))
        with (chosen argpartition w_sums colors (fst e) (snd e)
                ++ chosen_all argpartition colors w_sums rest).
      now rewrite map_app, app_assoc.
    + intros c Hc. rewrite N2 by (intros Hin; apply Hc; now right).
      rewrite C1.
      replace (String.eqb c (fst e)) with false; [ring|].
      symmetry. apply String.eqb_neq. intros ->. apply Hc. now left.
    + intros ND c K Hin. inversion ND as [|? ? Hnot ND']; subst.
      destruct Hin as [->|Hin].
      * cbn [fst snd] in *. rewrite N2 by exact Hnot. rewrite C1.
        cbn [fst snd]. now rewrite String.eqb_refl.
      * rewrite (C2 ND' c K Hin), C1.
        replace (String.eqb c (fst e)) with false; [ring|].
        symmetry. apply String.eqb_neq. intros ->. apply Hnot.
        apply in_map_iff. exists (fst e, K). split; [reflexivity|exact Hin].
Qed.

End Mass.

(** ** The selection of a pass, as a whole *)

(** X4.  The selection of one pass (lines 68-94) on an input whose
    quotas can be met: it raises nothing; [S], the list handed to
    [BallTree.create], holds the features of the chosen indices, color
    after color in dictionary order, exactly [k] rows at [k] distinct
    indices; [W] is the sum of [w_sums] over these indices; and the sum
    of [X] grows by exactly [k]. *)
Theorem selection_of_a_pass
        (run_query : list point -> Q -> vec -> vec)
        (argpartition : vec -> nat -> list nat)
        (gamma : Q) (features : list point) (colors : list string)
        (kis : list (string * nat)) (h X : vec) :
  run_query_ok run_query -> argpartition_ok argpartition ->
  length features = length colors -> length X = length colors ->
  quotas_ok colors kis -> NoDup (map fst kis) ->
  exists X' Sr W,
    selection run_query argpartition gamma features colors kis h X
    = Ok (X', Sr, W) /\
    Sr = map (fun i => nth i features [])
             (chosen_all argpartition colors
                         (run_query features (gamma / 2) h) kis) /\
    length Sr = kis_total kis /\
    NoDup (chosen_all argpartition colors
                      (run_query features (gamma / 2) h) kis) /\
    W == round_weight run_query argpartition gamma features colors kis h /\
    length X' = length X /\
    np_sum X' == np_sum X + inject_Z (Z.of_nat (kis_total kis)).
Proof.
  intros Hrq Hap LF LX HQ ND. unfold selection, round_weight.
  set (w_sums := run_query features (gamma / 2) h).
  assert (Lw : (length colors <= length w_sums)%nat).
  { unfold w_sums. rewrite Hrq. lia. }
  destruct (color_loop_Ok argpartition features colors w_sums Hap LF Lw
              kis HQ X [] 0 LX) as (X' & Sr & W & E & HW).
  destruct (color_loop_mass argpartition features colors w_sums Hap LF Lw
              kis HQ X [] 0 X' Sr W LX E) as (L & T & ES & _ & _).
  exists X', Sr, W. split; [exact E|]. cbn [app] in ES.
  split; [exact ES|]. split; [|split; [|split; [|split]]].
  - rewrite ES, length_map. now apply chosen_all_length.
  - now apply chosen_all_NoDup.
  - rewrite HW. ring.
  - exact L.
  - exact T.
Qed.

(** The three far-apart points under uniform weights. *)
Lemma selection_of_a_pass_witness :
  exists X' Sr W,
    selection ball_sum numpy_argpartition 1 features3 colors3 kis3
              [1 # 3; 1 # 3; 1 # 3] [0; 0; 0]
    = Ok (X', Sr, W) /\
    length Sr = kis_total kis3 /\
    np_sum X' == np_sum [0; 0; 0] + inject_Z (Z.of_nat (kis_total kis3)).
Proof.
  destruct (selection_of_a_pass ball_sum numpy_argpartition 1 features3
              colors3 kis3 [1 # 3; 1 # 3; 1 # 3] [0; 0; 0]
              ball_sum_ok numpy_argpartition_ok eq_refl eq_refl quotas3_ok)
    as (X' & Sr & W & E & _ & LS & _ & _ & _ & T).
  - repeat constructor. simpl. tauto.
  - exists X', Sr, W. auto.
Defined.

(** ** The accumulator along a run *)

Lemma sum_at_scale_down (X : vec) (t : nat) (J : list nat) :
  Forall (fun i => (i < length X)%nat) J ->
  sum_at (scale_down X t) J == sum_at X J / inject_Z (Z.of_nat t + 1).
Proof.
  induction 1 as [|i J Hi _ IH].
  - unfold sum_at, Qdiv. simpl. ring.
  - rewrite !sum_at_cons, IH. unfold scale_down at 1.
    rewrite (nth_indep _ 0 ((fun x => x / inject_Z (Z.of_nat t + 1)) 0))
      by now rewrite length_map.
    rewrite (map_nth (fun x => x / inject_Z (Z.of_nat t + 1))).
    unfold Qdiv. ring.
Qed.

Lemma sum_at_zeros (N : nat) (J : list nat) : sum_at (repeat 0 N) J == 0.
Proof.
  induction J as [|i J IH]; [reflexivity|].
  rewrite sum_at_cons, IH, nth_repeat. ring.
Qed.

Lemma counts_upto_nth (n : nat) (X : vec) :
  counts_upto n X <->
  forall i, (i < length X)%nat ->
            exists m : nat, (m <= n)%nat /\ nth i X 0 == inject_Z (Z.of_nat m).
Proof.
  unfold counts_upto. rewrite Forall_forall. split.
  - intros H i Hi. apply H. now apply nth_In.
  - intros H x Hx. destruct (In_nth _ _ 0 Hx) as (i & Hi & <-). auto.
Qed.

Section Counts.

Variable run_query : list point -> Q -> vec -> vec.
Variable get_counts_in_range : list point -> list point -> Q -> list nat.
Variable argpartition : vec -> nat -> list nat.
Variables (cad : cadence) (gen : nat -> nat).
Variables (gamma : Q) (mu : Z) (scaled_eps epsilon : Q).
Variables (features : list point) (colors : list string).
Variable kis : list (string * nat).
Hypothesis keys_distinct : NoDup (map fst kis).

Let pass :=
  body run_query get_counts_in_range argpartition cad gen gamma mu
       scaled_eps epsilon features colors kis.
Let at_pass :=
  state_at run_query get_counts_in_range argpartition cad gen gamma mu
           scaled_eps epsilon features colors kis.

(** The [X] a pass hands on is the one its selection produced. *)
Lemma pass_selection (t : nat) (st st' : state) :
  pass t st = Ok (Continue st') \/ pass t st = Ok (Break st') ->
  exists Sr W,
    selection run_query argpartition gamma features colors kis
              (st_h st) (st_X st) = Ok (st_X st', Sr, W).
Proof.
  intros Hp.
  assert (Hfl : exists fl, pass t st = Ok fl /\
                           (fl = Continue st' \/ fl = Break st'))
    by (destruct Hp; eauto).
  destruct Hfl as (fl & Efl & Hfl).
  destruct (body_inv _ _ _ _ _ _ _ _ _ _ _ _ _ _ _ Efl)
    as (X' & Sr & W & E & [[_ ->]|(_ & M & h' & _ & _ & Es)]).
  { destruct Hfl; discriminate. }
  destruct (early_stop_keeps run_query cad gen gamma epsilon features t
              (mkState h' X' (st_wait st) (st_drawn st)))
    as (s & Hs & _ & EX).
  assert (s = st').
  { rewrite Es in Hfl. destruct Hs as [Hs|Hs]; rewrite Hs in Hfl;
      destruct Hfl as [Hfl|Hfl]; congruence. }
  subst s. cbn [st_X] in EX. rewrite EX. eauto.
Qed.

(** A pass that goes on adds one to some entries of [X] and leaves the
    others as they are. *)
Lemma pass_counts (t : nat) (st st' : state) (n : nat) :
  counts_upto n (st_X st) ->
  pass t st = Ok (Continue st') \/ pass t st = Ok (Break st') ->
  counts_upto (S n) (st_X st').
Proof.
  intros HX Hp. destruct (pass_selection t st st' Hp) as (Sr & W & E).
  unfold selection in E.
  destruct (color_loop_effect _ _ _ _ _ _ _ _ _ _ _ E) as [L _].
  apply counts_upto_nth. intros i Hi. rewrite L in Hi.
  destruct (proj1 (counts_upto_nth n (st_X st)) HX i Hi) as (m & Hm & Em).
  destruct (color_loop_step_or_stay _ _ _ _ kis keys_distinct
                                    _ _ _ _ _ _ E i Hi) as [Hs|Hs];
    rewrite Hs.
  - exists m. split; [lia|exact Em].
  - exists (S m). split; [lia|]. now rewrite Em, inject_nat_succ.
Qed.

Variables (N : nat) (st0 : state).
Hypothesis start_X : st_X st0 = repeat 0 N.

(** When pass [t] starts, [X] holds natural numbers up to [t]. *)
Lemma counts_at (t : nat) (st : state) :
  at_pass t st0 = Some st -> counts_upto t (st_X st).
Proof.
  revert st. induction t as [|t IH]; intros st H.
  - inversion H; subst. rewrite start_X.
    apply Forall_forall. intros x Hx. apply repeat_spec in Hx. subst.
    exists O. split; [lia|reflexivity].
  - unfold at_pass in H. cbn [state_at] in H. fold at_pass in H.
    destruct (at_pass t st0) as [s|] eqn:Es; [|discriminate].
    fold pass in H.
    destruct (pass t s) as [[st'|st'|]|] eqn:Ep; try discriminate.
    inversion H; subst st'.
    apply (pass_counts t s st t (IH s eq_refl)). now left.
Qed.

Lemma scale_down_fractions (X : vec) (t : nat) :
  counts_upto (S t) X -> fractions_of (S t) (scale_down X t).
Proof.
  intros Hc. unfold fractions_of, scale_down.
  apply Forall_forall. intros y Hy.
  apply in_map_iff in Hy. destruct Hy as (x & <- & Hx).
  unfold counts_upto in Hc. rewrite Forall_forall in Hc.
  destruct (Hc x Hx) as (m & Hm & Em).
  exists m. split; [exact Hm|]. rewrite Em.
  replace (Z.of_nat (S t)) with (Z.of_nat t + 1)%Z by lia. reflexivity.
Qed.

End Counts.

Section MassRun.

Variable run_query : list point -> Q -> vec -> vec.
Variable get_counts_in_range : list point -> list point -> Q -> list nat.
Variable argpartition : vec -> nat -> list nat.
Hypothesis run_query_contract : run_query_ok run_query.
Hypothesis argpartition_contract : argpartition_ok argpartition.

Variables (cad : cadence) (gen : nat -> nat).
Variables (gamma : Q) (mu : Z) (scaled_eps epsilon : Q).
Variables (features : list point) (colors : list string).
Variable kis : list (string * nat).
Variable N : nat.

Hypothesis features_N : length features = N.
Hypothesis colors_N : length colors = N.
Hypothesis quotas : quotas_ok colors kis.
Hypothesis keys_distinct : NoDup (map fst kis).

Let pass :=
  body run_query get_counts_in_range argpartition cad gen gamma mu
       scaled_eps epsilon features colors kis.
Let at_pass :=
  state_at run_query get_counts_in_range argpartition cad gen gamma mu
           scaled_eps epsilon features colors kis.

(** A pass that goes on adds [k] to the sum of [X], and [K(c)] on the
    positions of each color. *)
Lemma pass_mass (t : nat) (st st' : state) :
  length (st_X st) = N ->
  pass t st = Ok (Continue st') \/ pass t st = Ok (Break st') ->
  length (st_X st') = N /\
  np_sum (st_X st')
  == np_sum (st_X st) + inject_Z (Z.of_nat (kis_total kis)) /\
  forall c K, In (c, K) kis ->
              sum_at (st_X st') (nonzero_eq c colors)
              == sum_at (st_X st) (nonzero_eq c colors)
                 + inject_Z (Z.of_nat K).
Proof.
  intros LX Hp.
  destruct (pass_selection run_query get_counts_in_range argpartition cad
              gen gamma mu scaled_eps epsilon features colors kis t st st'
              Hp) as (Sr & W & E).
  unfold selection in E.
  set (w_sums := run_query features (gamma / 2) (st_h st)) in *.
  assert (Lw : (length colors <= length w_sums)%nat).
  { unfold w_sums. rewrite run_query_contract. lia. }
  assert (LF : length features = length colors) by congruence.
  assert (LX' : length (st_X st) = length colors) by congruence.
  destruct (color_loop_mass argpartition features colors w_sums
              argpartition_contract LF Lw kis quotas
              (st_X st) [] 0 (st_X st') Sr W LX' E)
    as (L & T & _ & _ & C).
  split; [congruence|]. split; [exact T|]. now apply C.
Qed.

Variable st0 : state.
Hypothesis start_X : st_X st0 = repeat 0 N.

(** When pass [t] starts, the entries of [X] add up to [t * k], and to
    [t * K(c)] over the positions of color [c]. *)
Lemma mass_at (t : nat) (st : state) :
  at_pass t st0 = Some st ->
  length (st_X st) = N /\
  np_sum (st_X st)
  == inject_Z (Z.of_nat t) * inject_Z (Z.of_nat (kis_total kis)) /\
  forall c K, In (c, K) kis ->
              sum_at (st_X st) (nonzero_eq c colors)
              == inject_Z (Z.of_nat t) * inject_Z (Z.of_nat K).
Proof.
  revert st. induction t as [|t IH]; intros st H.
  - inversion H; subst. rewrite start_X, repeat_length.
    split; [reflexivity|]. split.
    + rewrite np_sum_repeat. simpl. ring.
    + intros c K _. rewrite sum_at_zeros. simpl. ring.
  - unfold at_pass in H. cbn [state_at] in H. fold at_pass in H.
    destruct (at_pass t st0) as [s|] eqn:Es; [|discriminate].
    destruct (IH s eq_refl) as (L & T & C). fold pass in H.
    destruct (pass t s) as [[st'|st'|]|] eqn:Ep; try discriminate.
    inversion H; subst st'.
    destruct (pass_mass t s st L (or_introl Ep)) as (L' & T' & C').
    split; [exact L'|]. split.
    + rewrite T', T, inject_nat_succ. ring.
    + intros c K Hin. rewrite (C' c K Hin), (C c K Hin), inject_nat_succ.
      ring.
Qed.

(** The vector a run returns adds up to [k], and to [K(c)] over the
    positions of color [c]. *)
Lemma run_returns_mass (n : nat) (R : vec) :
  (ex <- for_range run_query get_counts_in_range argpartition cad gen gamma
                   mu scaled_eps epsilon features colors kis n 0 None st0 ;;
   finish ex) = Ok (Some R) ->
  np_sum R == inject_Z (Z.of_nat (kis_total kis)) /\
  forall c K, In (c, K) kis ->
              sum_at R (nonzero_eq c colors) == inject_Z (Z.of_nat K).
Proof.
  intros HR.
  destruct (run_returns_scaled run_query get_counts_in_range argpartition
              cad gen gamma mu scaled_eps epsilon features colors kis
              keys_distinct N st0 start_X n R HR)
    as (t & st_t & st & Ht & Hst & Hp & -> & _ & _).
  destruct (mass_at t st_t Hst) as (L & T & C).
  assert (Hp' : pass t st_t = Ok (Continue st) \/ pass t st_t = Ok (Break st))
    by (destruct Hp as [Hp|[Hp _]]; auto).
  destruct (pass_mass t st_t st L Hp') as (L' & T' & C').
  assert (Hpos : 0 < inject_Z (Z.of_nat t + 1)) by (apply inject_Z_pos; lia).
  assert (Ht1 : inject_Z (Z.of_nat t + 1) == inject_Z (Z.of_nat t) + 1)
    by (rewrite inject_Z_plus; reflexivity).
  split.
  - unfold scale_down. rewrite np_sum_div, T', T, Ht1. field.
    rewrite <- Ht1. lra.
  - intros c K Hin. rewrite sum_at_scale_down.
    + rewrite (C' c K Hin), (C c K Hin), Ht1. field. rewrite <- Ht1. lra.
    + apply Forall_forall. intros i Hi. apply nonzero_eq_In in Hi. lia.
Qed.

End MassRun.

(** X5.  On a valid input the vector either variant returns meets the
    quotas exactly: its entries add up to [k], and over the positions of
    each color [c] of the dictionary they add up to [K(c)].  (Each pass
    selects exactly [K(c)] distinct points of color [c], and the counts
    are divided by the number of passes.) *)
Theorem returned_vector_meets_quotas
        (math_log : nat -> Q) (run_query : list point -> Q -> vec -> vec)
        (get_counts_in_range : list point -> list point -> Q -> list nat)
        (argpartition : vec -> nat -> list nat)
        (gen : nat -> nat) (gamma : Q) (N k : nat)
        (features : list point) (colors : list string)
        (kis : list (string * nat)) (epsilon percent : Q) (R : vec) :
  run_query_ok run_query -> argpartition_ok argpartition ->
  valid_input N k features colors kis epsilon percent ->
  mult_weight_upd math_log run_query get_counts_in_range argpartition
                  gen gamma N k features colors kis epsilon percent
  = Ok (Some R)
  \/ multweights_mult_weight_upd math_log run_query get_counts_in_range
                                 argpartition gamma N k features colors kis
                                 epsilon
     = Ok (Some R) ->
  np_sum R == inject_Z (Z.of_nat k) /\
  forall c K, In (c, K) kis ->
              sum_at R (nonzero_eq c colors) == inject_Z (Z.of_nat K).
Proof.
  intros Hrq Hap Hvalid HR.
  pose proof (valid_N_ge_2 N k features colors kis epsilon percent Hvalid)
    as HN.
  destruct Hvalid as [HF HC Hk Hk2 HND HQ [He He1] Hp].
  unfold mult_weight_upd, multweights_mult_weight_upd in HR.
  rewrite mult_weight_upd_loop_eq, multweights_loop_eq in HR
    by (auto; lia).
  rewrite Hk.
  destruct HR as [HR|HR].
  - destruct (run_returns_mass run_query get_counts_in_range argpartition
                Hrq Hap Stochastic gen gamma (mu_of k)
                (scaled_epsilon epsilon) epsilon features colors kis N
                (eq_sym HF) HC HQ HND (start_state gen N) eq_refl _ R HR)
      as (T & C).
    split; assumption.
  - destruct (run_returns_mass run_query get_counts_in_range argpartition
                Hrq Hap Every50 (fun _ => O) gamma (mu_of k)
                (scaled_epsilon epsilon) epsilon features colors kis N
                (eq_sym HF) HC HQ HND (multweights_start_state N) eq_refl
                _ R HR)
      as (T & C).
    split; assumption.
Qed.

(** The three far-apart points, one pass: the first two are chosen. *)
Lemma returned_vector_meets_quotas_witness :
  np_sum [1; 1; 0] == inject_Z (Z.of_nat 2) /\
  forall c K, In (c, K) kis3 ->
              sum_at [1; 1; 0] (nonzero_eq c colors3)
              == inject_Z (Z.of_nat K).
Proof.
  assert (Hp : 0 < 1 # 100 /\ 1 # 100 <= 1)
    by (split; [reflexivity|discriminate]).
  apply (returned_vector_meets_quotas
           ln_approx ball_sum ball_count numpy_argpartition
           (fun _ => O) 1 3 2 features3 colors3 kis3 (1 # 2) (1 # 100)
           [1; 1; 0] ball_sum_ok numpy_argpartition_ok
           (valid3 (1 # 100) Hp)).
  left. vm_compute. reflexivity.
Defined.

(** ** How many passes a returned vector took *)

(** X6.  In fmmdmwu_nyoom.py a vector is returned only after the whole
    budget: with [n] the number of passes of the range, the ceiling of
    [T * percent_theoretical_limit], the result is [X / n] for the
    accumulator [X] after all [n] passes, so every entry is a natural
    number of at most [n] divided by [n].  ([kis] is a dictionary: its
    keys are distinct.) *)
Theorem nyoom_returns_after_full_budget
        (math_log : nat -> Q) (run_query : list point -> Q -> vec -> vec)
        (get_counts_in_range : list point -> list point -> Q -> list nat)
        (argpartition : vec -> nat -> list nat)
        (gen : nat -> nat) (gamma : Q) (N k : nat)
        (features : list point) (colors : list string)
        (kis : list (string * nat)) (epsilon percent : Q) (R : vec) :
  NoDup (map fst kis) ->
  mult_weight_upd math_log run_query get_counts_in_range argpartition
                  gen gamma N k features colors kis epsilon percent
  = Ok (Some R) ->
  (1 <= passes (raw_T math_log N k epsilon * percent))%nat /\
  (exists st,
      mwu_state_at run_query get_counts_in_range argpartition gen gamma N k
                   features colors kis epsilon
                   (passes (raw_T math_log N k epsilon * percent))
      = Some st /\
      R = scale_down (st_X st)
                     (passes (raw_T math_log N k epsilon * percent) - 1)) /\
  fractions_of (passes (raw_T math_log N k epsilon * percent)) R.
Proof.
  intros ND. unfold mult_weight_upd.
  pose proof (mult_weight_upd_loop_never_breaks
                math_log run_query get_counts_in_range argpartition gen
                gamma N k features colors kis epsilon percent) as HB.
  destruct (mult_weight_upd_loop _ _ _ _ _ _ _ _ _ _ _ _ _) as [ex|] eqn:E;
    cbn [bind]; [|discriminate].
  apply mult_weight_upd_loop_inv in E.
  set (n := passes (raw_T math_log N k epsilon * percent)) in *.
  pose proof (for_range_exit run_query get_counts_in_range argpartition
                Stochastic gen gamma (mu_of k) (scaled_epsilon epsilon)
                epsilon features colors kis (start_state gen N) n 0
                (start_state gen N) ex eq_refl E) as Hex.
  destruct ex as [[t|] st|t st|t]; cbn [finish]; intros HR;
    try discriminate.
  destruct Hex as [Hst Hlast]. cbn [Nat.add] in Hst, Hlast.
  destruct n as [|n']; [discriminate|]. cbn [last_of] in Hlast.
  inversion Hlast; subst t. inversion HR; subst R.
  split; [lia|]. split.
  - exists st. split; [exact Hst|].
    now replace (S n' - 1)%nat with n' by lia.
  - apply scale_down_fractions.
    apply (counts_at run_query get_counts_in_range argpartition Stochastic
             gen gamma (mu_of k) (scaled_epsilon epsilon) epsilon features
             colors kis ND N (start_state gen N) eq_refl (S n') st Hst).
Qed.

(** The three far-apart points, one percent of the limit: one pass. *)
Lemma nyoom_returns_after_full_budget_witness :
  (1 <= passes (raw_T ln_approx 3 2 (1 # 2) * (1 # 100)))%nat /\
  fractions_of (passes (raw_T ln_approx 3 2 (1 # 2) * (1 # 100))) [1; 1; 0].
Proof.
  assert (ND : NoDup (map fst kis3)) by (repeat constructor; simpl; tauto).
  assert (E : mwu_concrete (fun _ => O) 1 3 2 features3 colors3 kis3 (1 # 2)
                           (1 # 100) = Ok (Some [1; 1; 0]))
    by (vm_compute; reflexivity).
  destruct (nyoom_returns_after_full_budget
              ln_approx ball_sum ball_count numpy_argpartition (fun _ => O)
              1 3 2 features3 colors3 kis3 (1 # 2) (1 # 100) [1; 1; 0]
              ND E) as (H1 & _ & H2).
  split; assumption.
Defined.

(** ** The cadence of multweights.py *)

(** Whenever the loop of multweights.py is left normally, it was run with
    the named quantities and the prologue raised nothing. *)
Lemma multweights_loop_inv
      (math_log : nat -> Q) (run_query : list point -> Q -> vec -> vec)
      (get_counts_in_range : list point -> list point -> Q -> list nat)
      (argpartition : vec -> nat -> list nat)
      (gamma : Q) (N k : nat)
      (features : list point) (colors : list string)
      (kis : list (string * nat)) (epsilon : Q) (ex : loop_exit) :
  multweights_mult_weight_upd_loop math_log run_query get_counts_in_range
                                   argpartition gamma N k features colors
                                   kis epsilon
  = Ok ex ->
  for_range run_query get_counts_in_range argpartition Every50 (fun _ => O)
            gamma (mu_of k) (scaled_epsilon epsilon) epsilon
            features colors kis
            (passes (raw_T math_log N k epsilon)) 0 None
            (multweights_start_state N)
  = Ok ex /\
  (0 <? k)%nat = true /\
  pydiv epsilon (1 + epsilon / 4) = Ok (scaled_epsilon epsilon) /\
  pydiv 1 (inject_Z (Z.of_nat N)) = Ok (1 / inject_Z (Z.of_nat N)) /\
  theoretical_T math_log N (mu_of k) (scaled_epsilon epsilon)
  = Ok (raw_T math_log N k epsilon).
Proof.
  unfold multweights_mult_weight_upd_loop.
  destruct (0 <? k)%nat; [|discriminate].
  destruct (pydiv epsilon (1 + epsilon / 4)) as [se|] eqn:E1;
    cbn [bind]; [|discriminate].
  destruct (pydiv 1 (inject_Z (Z.of_nat N))) as [invN|] eqn:E2;
    cbn [bind]; [|discriminate].
  unfold theoretical_T.
  destruct (pydiv (inject_Z (8 * (Z.of_nat k - 1))) (se * se)) as [T|] eqn:E3;
    cbn [bind]; [|discriminate].
  apply pydiv_inv in E1; subst se.
  apply pydiv_inv in E2; subst invN.
  fold (scaled_epsilon epsilon) in *. fold (mu_of k) in *.
  rewrite E3. cbn [bind].
  apply pydiv_inv in E3; subst T.
  intros H. repeat split. exact H.
Qed.

(** A [break] of the every-50 cadence: the pass is a multiple of 50 and
    the query on [X / (t + 1)] found no entry above [1 + epsilon]. *)
Lemma every50_break (run_query : list point -> Q -> vec -> vec)
      (get_counts_in_range : list point -> list point -> Q -> list nat)
      (argpartition : vec -> nat -> list nat) (gen : nat -> nat)
      (gamma : Q) (mu : Z) (scaled_eps epsilon : Q)
      (features : list point) (colors : list string)
      (kis : list (string * nat)) (t : nat) (st st' : state) :
  body run_query get_counts_in_range argpartition Every50 gen gamma mu
       scaled_eps epsilon features colors kis t st = Ok (Break st') ->
  (t mod 50 = 0)%nat /\
  any_above (run_query features (gamma / 2) (scale_down (st_X st') t))
            (1 + epsilon) = false.
Proof.
  intros H.
  destruct (body_inv _ _ _ _ _ _ _ _ _ _ _ _ _ _ _ H)
    as (X' & Sr & W & _ & [[_ ?]|(_ & M & h' & _ & _ & Es)]);
    [discriminate|].
  unfold early_stop in Es. cbn [check_due st_X st_wait] in Es.
  destruct (t mod 50 =? 0)%nat eqn:Et; [|discriminate].
  destruct (any_above _ (1 + epsilon)) eqn:Ea; cbn [negb] in Es;
    [discriminate|].
  inversion Es; subst st'. cbn [st_X].
  split; [now apply Nat.eqb_eq|exact Ea].
Qed.

(** X7.  When multweights.py returns a vector [R], it is [X / (t + 1)]
    for the last pass [t] that ran, each entry a natural number of at
    most [t + 1] divided by [t + 1]; and either all passes of the range
    ran, or [t] is a multiple of 50 (the first pass included) and [R]
    itself passed the test: the query on it has no entry above
    [1 + epsilon]. *)
Theorem multweights_returns_checked_or_exhausted
        (math_log : nat -> Q) (run_query : list point -> Q -> vec -> vec)
        (get_counts_in_range : list point -> list point -> Q -> list nat)
        (argpartition : vec -> nat -> list nat)
        (gamma : Q) (N k : nat)
        (features : list point) (colors : list string)
        (kis : list (string * nat)) (epsilon : Q) (R : vec) :
  NoDup (map fst kis) ->
  multweights_mult_weight_upd math_log run_query get_counts_in_range
                              argpartition gamma N k features colors kis
                              epsilon
  = Ok (Some R) ->
  exists t st,
    (t < passes (raw_T math_log N k epsilon))%nat /\
    R = scale_down (st_X st) t /\
    fractions_of (S t) R /\
    (S t = passes (raw_T math_log N k epsilon)
     \/ ((t mod 50 = 0)%nat /\
         any_above (run_query features (gamma / 2) R) (1 + epsilon)
         = false)).
Proof.
  intros ND. unfold multweights_mult_weight_upd.
  destruct (multweights_mult_weight_upd_loop _ _ _ _ _ _ _ _ _ _ _)
    as [ex|] eqn:E; cbn [bind]; [|discriminate].
  apply multweights_loop_inv in E. destruct E as [E _]. intros HR.
  destruct (run_returns_scaled run_query get_counts_in_range argpartition
              Every50 (fun _ => O) gamma (mu_of k) (scaled_epsilon epsilon)
              epsilon features colors kis ND N (multweights_start_state N)
              eq_refl (passes (raw_T math_log N k epsilon)) R)
    as (t & st_t & st & Ht & Hst & Hp & ER & _ & _).
  { rewrite E. exact HR. }
  exists t, st. split; [exact Ht|]. split; [exact ER|]. split.
  - rewrite ER. apply scale_down_fractions.
    apply (pass_counts run_query get_counts_in_range argpartition Every50
             (fun _ => O) gamma (mu_of k) (scaled_epsilon epsilon) epsilon
             features colors kis ND t st_t st t).
    + apply (counts_at run_query get_counts_in_range argpartition Every50
               (fun _ => O) gamma (mu_of k) (scaled_epsilon epsilon) epsilon
               features colors kis ND N (multweights_start_state N) eq_refl
               t st_t Hst).
    + destruct Hp as [Hp|[Hp _]]; auto.
  - destruct Hp as [Hp|[_ Hn]]; [right|now left].
    rewrite ER. now apply every50_break in Hp.
Qed.

(** The three far-apart points: the test at the first pass succeeds. *)
Lemma multweights_returns_checked_or_exhausted_witness :
  exists t st,
    (t < passes (raw_T ln_approx 3 2 (1 # 2)))%nat /\
    [1; 1; 0] = scale_down (st_X st) t /\
    fractions_of (S t) [1; 1; 0] /\
    (S t = passes (raw_T ln_approx 3 2 (1 # 2))
     \/ ((t mod 50 = 0)%nat /\
         any_above (ball_sum features3 (1 / 2) [1; 1; 0]) (1 + (1 # 2))
         = false)).
Proof.
  apply (multweights_returns_checked_or_exhausted
           ln_approx ball_sum ball_count numpy_argpartition 1 3 2 features3
           colors3 kis3 (1 # 2) [1; 1; 0]).
  - repeat constructor. simpl. tauto.
  - vm_compute. reflexivity.
Defined.

Section FirstPassBreak.

Variable run_query : list point -> Q -> vec -> vec.
Variable get_counts_in_range : list point -> list point -> Q -> list nat.
Variable argpartition : vec -> nat -> list nat.
Hypothesis run_query_contract : run_query_ok run_query.
Hypothesis counts_contract : counts_ok get_counts_in_range.
Hypothesis argpartition_contract : argpartition_ok argpartition.

Variable gen : nat -> nat.
Variables (gamma : Q) (mu : Z) (scaled_eps epsilon : Q).
Variables (features : list point) (colors : list string).
Variable kis : list (string * nat).
Variable N : nat.

Hypothesis features_N : length features = N.
Hypothesis colors_N : length colors = N.
Hypothesis quotas : quotas_ok colors kis.
Hypothesis keys_distinct : NoDup (map fst kis).
Hypothesis some_left_out : (kis_total kis < N)%nat.
Hypothesis mu_pos : (1 <= mu)%Z.
Hypothesis scaled_eps_range : 0 <= scaled_eps /\ scaled_eps < 4.
Hypothesis N_pos : (1 <= N)%nat.
Hypothesis epsilon_nonneg : 0 <= epsilon.

Variable delta : Q.
Hypothesis isolated : isolating run_query features delta.
Hypothesis radius_small : 0 <= gamma / 2 /\ gamma / 2 < delta.

(** At a radius that isolates the points, the first pass of the every-50
    cadence ends in [break]. *)
Lemma first_pass_breaks (st : state) :
  good_state N st -> st_X st = repeat 0 N ->
  exists st',
    body run_query get_counts_in_range argpartition Every50 gen gamma mu
         scaled_eps epsilon features colors kis 0 st = Ok (Break st').
Proof.
  intros Hgood HX0.
  destruct (body_progress run_query get_counts_in_range argpartition
              run_query_contract counts_contract argpartition_contract
              Every50 gen gamma mu scaled_eps epsilon features colors kis N
              features_N colors_N quotas mu_pos scaled_eps_range N_pos
              0 st Hgood) as [[Hw _]|(_ & st' & Hp & _)].
  { exfalso. destruct Hgood as (Lh & _ & Ph & Sh).
    pose proof (isolated_weight run_query argpartition run_query_contract
                  argpartition_contract gen gamma scaled_eps features colors
                  kis N features_N colors_N quotas keys_distinct
                  some_left_out scaled_eps_range N_pos delta isolated
                  radius_small (st_h st) Lh Ph Sh).
    lra. }
  exists st'. destruct Hp as [Hp|Hp]; [exfalso|exact Hp].
  assert (HB : entries_within 0 (0 + 1) (st_X st')).
  { apply (pass_adds_at_most_one run_query get_counts_in_range argpartition
             Every50 gen gamma mu scaled_eps epsilon features colors kis
             keys_distinct 0 st st' 0 (or_introl Hp)).
    rewrite HX0. apply Forall_forall. intros x Hx.
    apply repeat_spec in Hx. subst. split; apply Qle_refl. }
  assert (LX : length (st_X st') = N).
  { destruct (pass_adds_at_most_one run_query get_counts_in_range
                argpartition Every50 gen gamma mu scaled_eps epsilon
                features colors kis keys_distinct 0 st st' 0
                (or_introl Hp)) as [L _].
    - rewrite HX0. apply Forall_forall. intros x Hx.
      apply repeat_spec in Hx. subst. split; apply Qle_refl.
    - rewrite L. destruct Hgood as (_ & LX0 & _). exact LX0. }
  destruct (body_inv _ _ _ _ _ _ _ _ _ _ _ _ _ _ _ Hp)
    as (X' & Sr & W & _ & [[_ ?]|(_ & M & h' & _ & _ & Es)]);
    [discriminate|].
  unfold early_stop in Es. cbn [check_due st_X st_wait] in Es.
  change (0 mod 50 =? 0)%nat with true in Es. cbv iota in Es.
  destruct (any_above _ (1 + epsilon)) eqn:Ea; cbn [negb] in Es;
    [|discriminate].
  inversion Es; subst st'. cbn [st_X] in *.
  rewrite (any_above_unit _ (scale_down X' 0)) in Ea; [discriminate| | |].
  - apply isolated; try tauto.
    unfold scale_down. rewrite length_map. congruence.
  - apply scale_down_unit. exact HB.
  - lra.
Qed.

End FirstPassBreak.

(** With [k < N] and points isolated at the radius [gamma / 2], the
    loop of multweights.py is left in its first pass. *)
Lemma multweights_first_pass_exit
      (math_log : nat -> Q) (run_query : list point -> Q -> vec -> vec)
      (get_counts_in_range : list point -> list point -> Q -> list nat)
      (argpartition : vec -> nat -> list nat)
      (gamma : Q) (N k : nat)
      (features : list point) (colors : list string)
      (kis : list (string * nat)) (epsilon percent delta : Q) :
  log_ok math_log -> run_query_ok run_query ->
  counts_ok get_counts_in_range -> argpartition_ok argpartition ->
  valid_input N k features colors kis epsilon percent ->
  (k < N)%nat ->
  isolating run_query features delta ->
  0 < gamma -> gamma < 2 * delta ->
  exists st,
    multweights_mult_weight_upd_loop math_log run_query get_counts_in_range
                                     argpartition gamma N k features colors
                                     kis epsilon
    = Ok (Broke 0 st) /\
    multweights_mult_weight_upd math_log run_query get_counts_in_range
                                argpartition gamma N k features colors kis
                                epsilon
    = Ok (Some (scale_down (st_X st) 0)) /\
    counts_upto 1 (st_X st).
Proof.
  intros Hlog Hrq Hcnt Hap Hvalid HkN Hiso Hg Hgd.
  pose proof (valid_N_ge_2 N k features colors kis epsilon percent Hvalid)
    as HN.
  pose proof (valid_passes math_log Hlog N k features colors kis epsilon
                percent Hvalid) as [_ HP].
  pose proof (valid_scaled_eps N k features colors kis epsilon percent Hvalid)
    as HS.
  destruct Hvalid as [HF HC Hk Hk2 HND HQ [He He1] Hp].
  assert (Hr : 0 <= gamma / 2 /\ gamma / 2 < delta).
  { pose proof (Qdiv_2 gamma). set (q := gamma / 2) in *. lra. }
  assert (Hmu : (1 <= mu_of k)%Z) by (unfold mu_of; lia).
  assert (HNp : (1 <= N)%nat) by lia.
  assert (HkN' : (kis_total kis < N)%nat) by congruence.
  assert (He0 : 0 <= epsilon) by lra.
  unfold multweights_mult_weight_upd.
  rewrite multweights_loop_eq by (auto; lia).
  destruct (passes (raw_T math_log N k epsilon)) as [|n]; [lia|].
  cbn [for_range].
  destruct (first_pass_breaks run_query get_counts_in_range argpartition
              Hrq Hcnt Hap (fun _ => O) gamma (mu_of k)
              (scaled_epsilon epsilon) epsilon features colors kis N
              (eq_sym HF) HC HQ HND HkN' Hmu HS HNp He0 delta Hiso Hr
              (multweights_start_state N)
              (initial_state_good N _ _ HNp) eq_refl) as [st Hb].
  rewrite Hb. cbn [bind finish]. exists st.
  split; [reflexivity|]. split; [reflexivity|].
  apply (pass_counts run_query get_counts_in_range argpartition Every50
           (fun _ => O) gamma (mu_of k) (scaled_epsilon epsilon) epsilon
           features colors kis HND 0 (multweights_start_state N) st 0).
  - apply Forall_forall. intros x Hx. apply repeat_spec in Hx. subst.
    exists O. split; [lia|reflexivity].
  - now right.
Qed.

(** X8.  On a valid input with [k < N] whose points are isolated at the
    radius [gamma / 2], multweights.py leaves its loop through [break] in
    the very first pass, whatever the number of passes of the range: the
    test is due at [t = 0], and the selection of one pass, a 0/1 vector,
    passes it and is returned. *)
Theorem multweights_stops_after_first_pass
        (math_log : nat -> Q) (run_query : list point -> Q -> vec -> vec)
        (get_counts_in_range : list point -> list point -> Q -> list nat)
        (argpartition : vec -> nat -> list nat)
        (gamma : Q) (N k : nat)
        (features : list point) (colors : list string)
        (kis : list (string * nat)) (epsilon percent delta : Q) :
  log_ok math_log -> run_query_ok run_query ->
  counts_ok get_counts_in_range -> argpartition_ok argpartition ->
  valid_input N k features colors kis epsilon percent ->
  (k < N)%nat ->
  isolating run_query features delta ->
  0 < gamma -> gamma < 2 * delta ->
  exists ex R,
    multweights_mult_weight_upd_loop math_log run_query get_counts_in_range
                                     argpartition gamma N k features colors
                                     kis epsilon
    = Ok ex /\
    leaves_by_break (Ok ex) = true /\
    iterations_run ex = 1%nat /\
    multweights_mult_weight_upd math_log run_query get_counts_in_range
                                argpartition gamma N k features colors kis
                                epsilon
    = Ok (Some R) /\
    fractions_of 1 R.
Proof.
  intros Hlog Hrq Hcnt Hap Hvalid HkN Hiso Hg Hgd.
  destruct (multweights_first_pass_exit
              math_log run_query get_counts_in_range argpartition gamma N k
              features colors kis epsilon percent delta
              Hlog Hrq Hcnt Hap Hvalid HkN Hiso Hg Hgd)
    as (st & EL & ER & Hc).
  exists (Broke 0 st), (scale_down (st_X st) 0).
  split; [exact EL|]. split; [reflexivity|]. split; [reflexivity|].
  split; [exact ER|]. now apply scale_down_fractions.
Qed.

(** The three far-apart points at [gamma = 1]. *)
Lemma multweights_stops_after_first_pass_witness :
  exists ex R,
    multweights_mult_weight_upd_loop ln_approx ball_sum ball_count
                                     numpy_argpartition 1 3 2 features3
                                     colors3 kis3 (1 # 2)
    = Ok ex /\
    iterations_run ex = 1%nat /\
    fractions_of 1 R.
Proof.
  assert (Hp : 0 < 1 /\ 1 <= 1) by (split; [reflexivity|discriminate]).
  assert (Hk : (2 < 3)%nat) by lia.
  assert (Hg : 0 < 1) by reflexivity.
  assert (Hgd : 1 < 2 * 10) by reflexivity.
  destruct (multweights_stops_after_first_pass
              ln_approx ball_sum ball_count numpy_argpartition 1 3 2
              features3 colors3 kis3 (1 # 2) 1 10
              ln_approx_ok ball_sum_ok ball_count_ok numpy_argpartition_ok
              (valid3 1 Hp) Hk ball_sum_isolating_features3 Hg Hgd)
    as (ex & R & E & _ & Hi & _ & HR).
  exists ex, R. auto.
Defined.

(** ** The two variants side by side *)

Lemma passes_le (T T' : Q) : T <= T' -> (passes T <= passes T')%nat.
Proof.
  intros H. unfold passes. pose proof (Qceiling_resp_le _ _ H). lia.
Qed.

Lemma passes_nonpos (T : Q) : T <= 0 -> passes T = O.
Proof.
  intros H. unfold passes. pose proof (Qceiling_resp_le _ _ H) as HC.
  change (Qceiling 0) with 0%Z in HC. lia.
Qed.

(** What a pass that gets past the weight test evaluates to. *)
Lemma body_goes_on (run_query : list point -> Q -> vec -> vec)
      (get_counts_in_range : list point -> list point -> Q -> list nat)
      (argpartition : vec -> nat -> list nat)
      (cad : cadence) (gen : nat -> nat)
      (gamma : Q) (mu : Z) (scaled_eps epsilon : Q)
      (features : list point) (colors : list string)
      (kis : list (string * nat)) (t : nat) (st : state)
      (X' : vec) (Sr : list point) (W : Q) (M h' : vec) :
  selection run_query argpartition gamma features colors kis
            (st_h st) (st_X st) = Ok (X', Sr, W) ->
  ~ 1 <= W ->
  compute_M (length (st_h st)) mu
            (get_counts_in_range Sr features (gamma / 2)) = Ok M ->
  update_h scaled_eps (st_h st) M = Ok h' ->
  body run_query get_counts_in_range argpartition cad gen gamma mu
       scaled_eps epsilon features colors kis t st
  = Ok (early_stop run_query cad gen gamma epsilon features t
                   (mkState h' X' (st_wait st) (st_drawn st))).
Proof.
  intros ES HW EM EH. unfold body. rewrite ES. cbn [bind].
  destruct (Qle_bool 1 W) eqn:EW.
  - apply Qle_bool_iff in EW. contradiction.
  - rewrite EM. cbn [bind]. rewrite EH. reflexivity.
Qed.

Section TwoCadences.

Variable run_query : list point -> Q -> vec -> vec.
Variable get_counts_in_range : list point -> list point -> Q -> list nat.
Variable argpartition : vec -> nat -> list nat.
Variables (gen gen' : nat -> nat).
Variables (gamma : Q) (mu : Z) (scaled_eps epsilon : Q).
Variables (features : list point) (colors : list string).
Variable kis : list (string * nat).

Variables (st0 st0' : state).
Hypothesis same_h : st_h st0' = st_h st0.
Hypothesis same_X : st_X st0' = st_X st0.
Hypothesis first_wait : (st_wait st0' <= 100)%Z.

(** As long as the every-50 cadence goes on, the stochastic one goes
    along with the same [h] and [X]. *)
Lemma stochastic_follows (t : nat) (st : state) :
  state_at run_query get_counts_in_range argpartition Every50 gen gamma mu
           scaled_eps epsilon features colors kis t st0 = Some st ->
  exists st',
    state_at run_query get_counts_in_range argpartition Stochastic gen'
             gamma mu scaled_eps epsilon features colors kis t st0'
    = Some st' /\
    st_h st' = st_h st /\ st_X st' = st_X st.
Proof.
  revert st. induction t as [|t IH]; intros st H.
  - inversion H; subst. exists st0'. auto.
  - cbn [state_at] in H.
    destruct (state_at _ _ _ Every50 _ _ _ _ _ _ _ _ t st0) as [s|] eqn:Es;
      [|discriminate].
    destruct (IH s eq_refl) as (s' & Es' & Eh & EX).
    destruct (body _ _ _ Every50 _ _ _ _ _ _ _ _ t s) as [[s2|s2|]|] eqn:Ep;
      try discriminate.
    inversion H; subst s2.
    destruct (body_inv _ _ _ _ _ _ _ _ _ _ _ _ _ _ _ Ep)
      as (X' & Sr & W & ESel & [[_ ?]|(HW & M & h' & EM & EH & Es2)]);
      [discriminate|].
    destruct (early_stop_keeps run_query Every50 gen gamma epsilon features
                t (mkState h' X' (st_wait s) (st_drawn s)))
      as (u & Hu & Euh & EuX).
    assert (u = st)
      by (destruct Hu as [Hu|Hu]; rewrite Hu in Es2; congruence).
    subst u. cbn [st_h st_X] in Euh, EuX.
    rewrite <- Eh, <- EX in ESel. rewrite <- Eh in EM, EH.
    pose proof (body_goes_on run_query get_counts_in_range argpartition
                  Stochastic gen' gamma mu scaled_eps epsilon features
                  colors kis t s' X' Sr W M h' ESel HW EM EH) as Ep'.
    destruct (stochastic_wait run_query get_counts_in_range argpartition
                gen' gamma mu scaled_eps epsilon features colors kis st0'
                first_wait t s' Es') as [Hw _].
    destruct (stochastic_pass run_query get_counts_in_range argpartition
                gen' gamma mu scaled_eps epsilon features colors kis st0'
                first_wait t s' _ Hw Ep') as [Hn|(s2' & E2 & _)].
    + destruct (early_stop_keeps run_query Stochastic gen' gamma epsilon
                  features t (mkState h' X' (st_wait s') (st_drawn s')))
        as (v & [Hv|Hv] & _); rewrite Hv in Hn; discriminate.
    + destruct (early_stop_keeps run_query Stochastic gen' gamma epsilon
                  features t (mkState h' X' (st_wait s') (st_drawn s')))
        as (v & Hv & Evh & EvX).
      assert (v = s2')
        by (destruct Hv as [Hv|Hv]; rewrite Hv in E2; congruence).
      subst v. cbn [st_h st_X] in Evh, EvX.
      exists s2'. cbn [state_at]. rewrite Es', Ep', E2.
      split; [reflexivity|]. split; congruence.
Qed.

End TwoCadences.

(** X9.  The early stop of multweights.py can only turn an infeasible
    answer into a feasible one.  Whenever multweights.py answers [None],
    fmmdmwu_nyoom.py, called with the same arguments and a
    [percent_theoretical_limit] of at least one (the default is 1.0),
    answers [None] as well: as long as both loops go on they carry the
    same [h] and [X], and the stochastic cadence never leaves early. *)
Theorem multweights_None_implies_nyoom_None
        (math_log : nat -> Q) (run_query : list point -> Q -> vec -> vec)
        (get_counts_in_range : list point -> list point -> Q -> list nat)
        (argpartition : vec -> nat -> list nat)
        (gen : nat -> nat) (gamma : Q) (N k : nat)
        (features : list point) (colors : list string)
        (kis : list (string * nat)) (epsilon percent : Q) :
  1 <= percent ->
  multweights_mult_weight_upd math_log run_query get_counts_in_range
                              argpartition gamma N k features colors kis
                              epsilon
  = Ok None ->
  mult_weight_upd math_log run_query get_counts_in_range argpartition
                  gen gamma N k features colors kis epsilon percent
  = Ok None.
Proof.
  intros Hp. unfold multweights_mult_weight_upd, mult_weight_upd.
  destruct (multweights_mult_weight_upd_loop _ _ _ _ _ _ _ _ _ _ _)
    as [ex|] eqn:E; cbn [bind]; [|discriminate].
  apply multweights_loop_inv in E. destruct E as (E & Ek & E1 & E2 & E3).
  intros HR.
  destruct ex as [[t|] st|t st|u]; cbn [finish] in HR; try discriminate.
  clear HR.
  pose proof (for_range_exit run_query get_counts_in_range argpartition
                Every50 (fun _ => O) gamma (mu_of k) (scaled_epsilon epsilon)
                epsilon features colors kis (multweights_start_state N) _ 0
                (multweights_start_state N) _ eq_refl E)
    as (Hu & st_u & Hst & Hb).
  destruct (stochastic_follows run_query get_counts_in_range argpartition
              (fun _ => O) gen gamma (mu_of k) (scaled_epsilon epsilon)
              epsilon features colors kis (multweights_start_state N)
              (start_state gen N) eq_refl eq_refl) with (t := u) (st := st_u)
    as (st_u' & Hst' & Eh & EX).
  { pose proof (integers_range 9 29 (gen O)).
    unfold start_state, initial_state, getNextSolutionCheckWait.
    cbn [st_wait]. lia. }
  { exact Hst. }
  assert (Hb' : body run_query get_counts_in_range argpartition Stochastic
                     gen gamma (mu_of k) (scaled_epsilon epsilon) epsilon
                     features colors kis u st_u' = Ok ReturnNone).
  { apply body_ReturnNone_iff. apply body_ReturnNone_iff in Hb.
    rewrite Eh, EX. exact Hb. }
  assert (HT : 0 < raw_T math_log N k epsilon).
  { apply Qnot_le_lt. intros HC. apply passes_nonpos in HC. lia. }
  assert (Hn : (passes (raw_T math_log N k epsilon)
                <= passes (raw_T math_log N k epsilon * percent))%nat)
    by (apply passes_le; nra).
  unfold mult_weight_upd_loop. rewrite Ek, E1. cbn [bind].
  rewrite E2. cbn [bind]. fold (mu_of k). rewrite E3. cbn [bind].
  fold (start_state gen N).
  rewrite (for_range_ReturnedNone run_query get_counts_in_range argpartition
             Stochastic gen gamma (mu_of k) (scaled_epsilon epsilon) epsilon
             features colors kis (start_state gen N) _ 0 (start_state gen N)
             None u st_u' eq_refl); [reflexivity|lia|exact Hst'|exact Hb'].
Qed.

(** Two points, both wanted: both variants answer [None]. *)
Lemma multweights_None_implies_nyoom_None_witness :
  mwu_concrete (fun _ => O) 1 2 2 features2 colors2 kis2 (1 # 2) 1 = Ok None.
Proof.
  apply (multweights_None_implies_nyoom_None
           ln_approx ball_sum ball_count numpy_argpartition (fun _ => O)
           1 2 2 features2 colors2 kis2 (1 # 2) 1).
  - discriminate.
  - vm_compute. reflexivity.
Defined.

(** ** No passes at all *)

(** X10.  A [percent_theoretical_limit] of zero or less leaves no pass to
    run: [math.ceil(T)] is at most zero, the range is empty, and the
    final [X / (t + 1)] reads a loop variable that was never bound. *)
Theorem no_budget_raises_UnboundLocalError
        (math_log : nat -> Q) (run_query : list point -> Q -> vec -> vec)
        (get_counts_in_range : list point -> list point -> Q -> list nat)
        (argpartition : vec -> nat -> list nat)
        (gen : nat -> nat) (gamma : Q) (N k : nat)
        (features : list point) (colors : list string)
        (kis : list (string * nat)) (epsilon percent : Q) :
  log_ok math_log -> (1 <= N)%nat -> (1 <= k)%nat -> 0 < epsilon ->
  percent <= 0 ->
  mult_weight_upd math_log run_query get_counts_in_range argpartition
                  gen gamma N k features colors kis epsilon percent
  = Raise UnboundLocalError.
Proof.
  intros [Hlog1 Hlog] HN Hk He Hp.
  assert (HL : 0 <= math_log N).
  { destruct (Nat.eq_dec N 1) as [->|Hne]; [rewrite Hlog1; apply Qle_refl|].
    apply Qlt_le_weak, Hlog. lia. }
  assert (HT : 0 <= raw_T math_log N k epsilon).
  { unfold raw_T. destruct (scaled_epsilon_range epsilon He) as [Hs _].
    apply Qmult_le_0_compat; [|exact HL].
    apply Qle_shift_div_l.
    - now apply Qmult_lt_0_compat.
    - rewrite Qmult_0_l. change 0 with (inject_Z 0). apply inject_Z_le.
      unfold mu_of. lia. }
  unfold mult_weight_upd.
  rewrite mult_weight_upd_loop_eq by (auto; lia).
  rewrite passes_nonpos by nra. reflexivity.
Qed.

Lemma no_budget_raises_UnboundLocalError_witness :
  mwu_concrete (fun _ => O) 1 3 2 features3 colors3 kis3 (1 # 2) 0
  = Raise UnboundLocalError.
Proof.
  apply (no_budget_raises_UnboundLocalError
           ln_approx ball_sum ball_count numpy_argpartition (fun _ => O)
           1 3 2 features3 colors3 kis3 (1 # 2) 0 ln_approx_ok).
  - lia.
  - lia.
  - reflexivity.
  - discriminate.
Defined.

(** ** The search for [gamma] *)

Section Search.

Variable solver : nat -> Q -> res (option vec).
Variable falloff_epsilon : Q.

Lemma falloff_loop_outcome (fuel : nat) :
  forall (call : nat) (gamma : Q) (Xo : option vec),
    match snd (falloff_loop solver falloff_epsilon fuel call gamma Xo) with
    | Found gamma' X =>
        (Xo = Some X /\ gamma' = gamma) \/
        (Xo = None /\
         exists m, (m < fuel)%nat /\
                   gamma' = decay falloff_epsilon gamma (S m) /\
                   solver (call + m)%nat gamma' = Ok (Some X) /\
                   forall i, (i < m)%nat ->
                             solver (call + i)%nat
                                    (decay falloff_epsilon gamma (S i))
                             = Ok None)
    | Failed e =>
        Xo = None /\
        exists m, (m < fuel)%nat /\
                  solver (call + m)%nat (decay falloff_epsilon gamma (S m))
                  = Raise e /\
                  forall i, (i < m)%nat ->
                            solver (call + i)%nat
                                   (decay falloff_epsilon gamma (S i))
                            = Ok None
    | OutOfFuel =>
        Xo = None /\
        forall i, (i < fuel)%nat ->
                  solver (call + i)%nat (decay falloff_epsilon gamma (S i))
                  = Ok None
    end.
Proof.
  induction fuel as [|fuel IH]; intros call gamma Xo.
  - destruct Xo as [X|]; cbn [falloff_loop snd]; [now left|].
    split; [reflexivity|]. intros i Hi. lia.
  - destruct Xo as [X|]; cbn [falloff_loop]; [cbn [snd]; now left|].
    destruct (solver call (gamma * (1 - falloff_epsilon))) as [X'|e] eqn:Es.
    + specialize (IH (S call) (gamma * (1 - falloff_epsilon)) X').
      destruct (falloff_loop solver falloff_epsilon fuel (S call)
                             (gamma * (1 - falloff_epsilon)) X')
        as [tried ex].
      cbn [snd] in *.
      destruct ex as [g X|e|].
      * right. split; [reflexivity|].
        destruct IH as [[-> ->]|(-> & m & Hm & Eg & Esm & Hi)].
        -- exists O. rewrite Nat.add_0_r. cbn [decay].
           repeat split; [lia|exact Es|intros i Hi; lia].
        -- exists (S m). rewrite Nat.add_succ_r. cbn [decay] in *.
           repeat split; [lia|exact Eg|exact Esm|].
           intros i Hlt. destruct i as [|i].
           ++ rewrite Nat.add_0_r. exact Es.
           ++ rewrite Nat.add_succ_r. apply Hi. lia.
      * split; [reflexivity|].
        destruct IH as (-> & m & Hm & Esm & Hi).
        exists (S m). rewrite Nat.add_succ_r. cbn [decay] in *.
        repeat split; [lia|exact Esm|].
        intros i Hlt. destruct i as [|i].
        -- rewrite Nat.add_0_r. exact Es.
        -- rewrite Nat.add_succ_r. apply Hi. lia.
      * split; [reflexivity|]. destruct IH as (-> & Hi).
        intros i Hlt. destruct i as [|i].
        -- rewrite Nat.add_0_r. exact Es.
        -- rewrite Nat.add_succ_r. cbn [decay] in *. apply Hi. lia.
    + cbn [snd]. split; [reflexivity|].
      exists O. rewrite Nat.add_0_r. cbn [decay].
      repeat split; [lia|exact Es|intros i Hi; lia].
Qed.

(** The outcome of a search describes the calls that led to it. *)
Lemma falloff_search_outcome (fuel : nat) (gamma_upper : Q) :
  search_outcome solver falloff_epsilon gamma_upper fuel
                 (snd (falloff_search solver falloff_epsilon fuel
                                      gamma_upper)).
Proof.
  unfold falloff_search.
  destruct (solver 0%nat gamma_upper) as [Xo|e] eqn:E0.
  - pose proof (falloff_loop_outcome fuel 1 gamma_upper Xo) as H.
    destruct (falloff_loop solver falloff_epsilon fuel 1 gamma_upper Xo)
      as [tried ex].
    cbn [snd] in *. destruct ex as [g X|e|]; cbn [search_outcome].
    + destruct H as [[-> ->]|(-> & m & Hm & Eg & Esm & Hi)].
      * exists O. cbn [decay]. repeat split; try lia; try exact E0.
        discriminate.
      * exists (S m). repeat split; try lia; try assumption.
        -- rewrite <- Eg. exact Esm.
        -- discriminate.
        -- intros i Hlt. destruct i as [|i]; [exact E0|]. apply Hi. lia.
    + destruct H as (-> & m & Hm & Esm & Hi).
      exists (S m). repeat split; try lia; try assumption.
      * discriminate.
      * intros i Hlt. destruct i as [|i]; [exact E0|]. apply Hi. lia.
    + destruct H as (-> & Hi).
      intros i Hle. destruct i as [|i]; [exact E0|]. apply Hi. lia.
  - cbn [snd search_outcome]. exists O. cbn [decay].
    repeat split; try lia; try exact E0. discriminate.
Qed.

(** The calls determine the outcome: there is one first answer at
    most. *)
Lemma first_answer_unique (gamma_upper : Q) (n n' : nat)
      (a a' : res (option vec)) :
  first_answer solver falloff_epsilon gamma_upper n a ->
  first_answer solver falloff_epsilon gamma_upper n' a' ->
  n = n' /\ a = a'.
Proof.
  intros (E & Hne & Hi) (E' & Hne' & Hi').
  destruct (Nat.lt_total n n') as [Hlt|[Heq|Hlt]].
  - exfalso. apply Hne. rewrite <- E. now apply Hi'.
  - subst n'. split; [reflexivity|congruence].
  - exfalso. apply Hne'. rewrite <- E'. now apply Hi.
Qed.

Lemma falloff_search_first_answer (fuel : nat) (gamma_upper : Q) (n : nat)
      (a : res (option vec)) :
  (n <= fuel)%nat ->
  first_answer solver falloff_epsilon gamma_upper n a ->
  match a with
  | Ok (Some X) =>
      snd (falloff_search solver falloff_epsilon fuel gamma_upper)
      = Found (decay falloff_epsilon gamma_upper n) X
  | Ok None => False
  | Raise e =>
      snd (falloff_search solver falloff_epsilon fuel gamma_upper) = Failed e
  end.
Proof.
  intros Hn Ha.
  pose proof (falloff_search_outcome fuel gamma_upper) as H.
  destruct (snd (falloff_search solver falloff_epsilon fuel gamma_upper))
    as [g X|e|]; cbn [search_outcome] in H.
  - destruct H as (n' & _ & -> & Ha').
    destruct (first_answer_unique gamma_upper n n' _ _ Ha Ha') as [-> ->].
    reflexivity.
  - destruct H as (n' & _ & Ha').
    destruct (first_answer_unique gamma_upper n n' _ _ Ha Ha') as [-> ->].
    reflexivity.
  - destruct Ha as (E & Hne & _). exfalso. apply Hne. rewrite <- E.
    now apply H.
Qed.

Lemma falloff_search_Found (fuel : nat) (gamma_upper gamma : Q) (X : vec) :
  snd (falloff_search solver falloff_epsilon fuel gamma_upper)
  = Found gamma X
  <-> exists n, (n <= fuel)%nat /\
                gamma = decay falloff_epsilon gamma_upper n /\
                first_answer solver falloff_epsilon gamma_upper n
                             (Ok (Some X)).
Proof.
  split.
  - intros H. pose proof (falloff_search_outcome fuel gamma_upper) as Ho.
    rewrite H in Ho. exact Ho.
  - intros (n & Hn & -> & Ha).
    exact (falloff_search_first_answer fuel gamma_upper n _ Hn Ha).
Qed.

Lemma falloff_search_Failed (fuel : nat) (gamma_upper : Q) (e : exn) :
  snd (falloff_search solver falloff_epsilon fuel gamma_upper) = Failed e
  <-> exists n, (n <= fuel)%nat /\
                first_answer solver falloff_epsilon gamma_upper n (Raise e).
Proof.
  split.
  - intros H. pose proof (falloff_search_outcome fuel gamma_upper) as Ho.
    rewrite H in Ho. exact Ho.
  - intros (n & Hn & Ha).
    exact (falloff_search_first_answer fuel gamma_upper n _ Hn Ha).
Qed.

Lemma falloff_search_OutOfFuel (fuel : nat) (gamma_upper : Q) :
  snd (falloff_search solver falloff_epsilon fuel gamma_upper) = OutOfFuel
  <-> forall i, (i <= fuel)%nat ->
                solver i (decay falloff_epsilon gamma_upper i) = Ok None.
Proof.
  split.
  - intros H. pose proof (falloff_search_outcome fuel gamma_upper) as Ho.
    rewrite H in Ho. exact Ho.
  - intros Hall.
    pose proof (falloff_search_outcome fuel gamma_upper) as H.
    destruct (snd (falloff_search solver falloff_epsilon fuel gamma_upper))
      as [g X|e|]; cbn [search_outcome] in H; [| |reflexivity].
    + destruct H as (n & Hn & _ & E & _). rewrite Hall in E by exact Hn.
      discriminate.
    + destruct H as (n & Hn & E & _). rewrite Hall in E by exact Hn.
      discriminate.
Qed.

Lemma answers_below (gamma_upper : Q) (n : nat) :
  (forall i, (i < n)%nat ->
     solver i (decay falloff_epsilon gamma_upper i) = Ok None \/
     exists X, solver i (decay falloff_epsilon gamma_upper i)
               = Ok (Some X)) ->
  (forall i, (i < n)%nat ->
     solver i (decay falloff_epsilon gamma_upper i) = Ok None)
  \/ exists j X, (j < n)%nat /\
                 solver j (decay falloff_epsilon gamma_upper j)
                 = Ok (Some X).
Proof.
  induction n as [|n IH]; intros Hall.
  - left. intros i Hi. lia.
  - destruct IH as [Hn|(j & X & Hj & H)].
    + intros i Hi. apply Hall. lia.
    + destruct (Hall n) as [H|[X H]]; [lia| |].
      * left. intros i Hi.
        destruct (Nat.eq_dec i n) as [->|Hne]; [exact H|]. apply Hn. lia.
      * right. exists n, X. split; [lia|exact H].
    + right. exists j, X. split; [lia|exact H].
Qed.

(** If no call raises and some call is answered with a vector, there is
    a first such call. *)
Lemma first_answer_exists (gamma_upper : Q) (n : nat) :
  forall X,
    (forall i, (i < n)%nat ->
       solver i (decay falloff_epsilon gamma_upper i) = Ok None \/
       exists X', solver i (decay falloff_epsilon gamma_upper i)
                  = Ok (Some X')) ->
    solver n (decay falloff_epsilon gamma_upper n) = Ok (Some X) ->
    exists m X', (m <= n)%nat /\
                 first_answer solver falloff_epsilon gamma_upper m
                              (Ok (Some X')).
Proof.
  induction n as [n IH] using lt_wf_ind. intros X Hall HX.
  destruct (answers_below gamma_upper n Hall) as [Hnone|(j & X' & Hj & H)].
  - exists n, X. repeat split; [lia|exact HX|discriminate|exact Hnone].
  - destruct (IH j Hj X') as (m & X2 & Hm & Hfa).
    + intros i Hi. apply Hall. lia.
    + exact H.
    + exists m, X2. split; [lia|exact Hfa].
Qed.

End Search.

(** The two drivers are searches over their solvers. *)
Lemma epsilon_falloff_search
      (math_log : nat -> Q) (run_query : list point -> Q -> vec -> vec)
      (get_counts_in_range : list point -> list point -> Q -> list nat)
      (argpartition : vec -> nat -> list nat)
      (default_rng : nat -> nat -> nat)
      (features : list point) (colors : list string)
      (kis : list (string * nat))
      (mwu_epsilon falloff_epsilon percent : Q)
      (fuel : nat) (gamma_upper : Q) :
  epsilon_falloff math_log run_query get_counts_in_range argpartition
                  default_rng features colors kis mwu_epsilon falloff_epsilon
                  percent fuel gamma_upper
  = falloff_search
      (solve math_log run_query get_counts_in_range argpartition default_rng
             features colors kis mwu_epsilon percent)
      falloff_epsilon fuel gamma_upper.
Proof.
  unfold epsilon_falloff, falloff_search.
  destruct (solve _ _ _ _ _ _ _ _ _ _ 0%nat gamma_upper) as [X|e];
    [|reflexivity].
  f_equal. generalize 1%nat. revert gamma_upper X.
  induction fuel as [|fuel IH]; intros gamma X call;
    destruct X as [X|]; cbn [falloff_while falloff_loop]; try reflexivity.
  destruct (solve _ _ _ _ _ _ _ _ _ _ call _) as [X'|e]; [|reflexivity].
  now rewrite IH.
Qed.

Lemma multweights_epsilon_falloff_search
      (math_log : nat -> Q) (run_query : list point -> Q -> vec -> vec)
      (get_counts_in_range : list point -> list point -> Q -> list nat)
      (argpartition : vec -> nat -> list nat)
      (features : list point) (colors : list string)
      (kis : list (string * nat))
      (mwu_epsilon falloff_epsilon : Q)
      (fuel : nat) (gamma_upper : Q) :
  multweights_epsilon_falloff math_log run_query get_counts_in_range
                              argpartition features colors kis mwu_epsilon
                              falloff_epsilon fuel gamma_upper
  = falloff_search
      (fun _ => multweights_solve math_log run_query get_counts_in_range
                                  argpartition features colors kis
                                  mwu_epsilon)
      falloff_epsilon fuel gamma_upper.
Proof.
  unfold multweights_epsilon_falloff, falloff_search.
  destruct (multweights_solve _ _ _ _ _ _ _ _ gamma_upper) as [X|e];
    [|reflexivity].
  f_equal. generalize 1%nat. revert gamma_upper X.
  induction fuel as [|fuel IH]; intros gamma X call;
    destruct X as [X|]; cbn [multweights_falloff_while falloff_loop];
    try reflexivity.
  destruct (multweights_solve _ _ _ _ _ _ _ _ _) as [X'|e]; [|reflexivity].
  now rewrite (IH _ _ (S call)).
Qed.

(** X11.  The driver of fmmdmwu_nyoom.py hands [gamma] and [X] on to the
    rounding exactly when [gamma] is the first value of the sequence
    [gamma_upper * (1 - falloff_epsilon)^n] for which the solver returns
    a vector, [X] is that vector, and every earlier value was answered
    with [None]: no feasible value is skipped and none is tried after
    it. *)
Theorem driver_returns_first_feasible
        (math_log : nat -> Q) (run_query : list point -> Q -> vec -> vec)
        (get_counts_in_range : list point -> list point -> Q -> list nat)
        (argpartition : vec -> nat -> list nat)
        (default_rng : nat -> nat -> nat)
        (features : list point) (colors : list string)
        (kis : list (string * nat))
        (mwu_epsilon falloff_epsilon percent : Q)
        (fuel : nat) (gamma_upper gamma : Q) (X : vec) :
  snd (epsilon_falloff math_log run_query get_counts_in_range argpartition
                       default_rng features colors kis mwu_epsilon
                       falloff_epsilon percent fuel gamma_upper)
  = Found gamma X
  <-> exists n,
        (n <= fuel)%nat /\
        gamma = decay falloff_epsilon gamma_upper n /\
        first_answer
          (solve math_log run_query get_counts_in_range argpartition
                 default_rng features colors kis mwu_epsilon percent)
          falloff_epsilon gamma_upper n (Ok (Some X)).
Proof.
  rewrite epsilon_falloff_search.
  exact (falloff_search_Found _ falloff_epsilon fuel gamma_upper gamma X).
Qed.

(** The three far-apart points from [gamma_upper = 21]: at a radius of
    10.5 two of the balls hold two points and the call is infeasible;
    the next value, 18.9, is feasible. *)
Lemma driver_returns_first_feasible_witness :
  exists n,
    (n <= 5)%nat /\
    21 * (1 - (1 # 10)) = decay (1 # 10) 21 n /\
    first_answer
      (solve ln_approx ball_sum ball_count numpy_argpartition
             (constant_rng 0) features3 colors3 kis3 (1 # 2) (1 # 100))
      (1 # 10) 21 n (Ok (Some [1; 1; 0])).
Proof.
  apply (proj1 (driver_returns_first_feasible
                  ln_approx ball_sum ball_count numpy_argpartition
                  (constant_rng 0) features3 colors3 kis3 (1 # 2) (1 # 10)
                  (1 # 100) 5 21 (21 * (1 - (1 # 10))) [1; 1; 0])).
  vm_compute. reflexivity.
Defined.

(** X12.  The driver of fmmdmwu_nyoom.py has no handler: it fails with an
    exception exactly when the first solver call that is not answered
    with [None] raises it.  And its loop is still running after [fuel]
    reductions of [gamma] exactly when all calls so far were answered
    with [None]. *)
Theorem driver_fails_with_first_exception
        (math_log : nat -> Q) (run_query : list point -> Q -> vec -> vec)
        (get_counts_in_range : list point -> list point -> Q -> list nat)
        (argpartition : vec -> nat -> list nat)
        (default_rng : nat -> nat -> nat)
        (features : list point) (colors : list string)
        (kis : list (string * nat))
        (mwu_epsilon falloff_epsilon percent : Q)
        (fuel : nat) (gamma_upper : Q) (e : exn) :
  (snd (epsilon_falloff math_log run_query get_counts_in_range argpartition
                        default_rng features colors kis mwu_epsilon
                        falloff_epsilon percent fuel gamma_upper)
   = Failed e
   <-> exists n,
         (n <= fuel)%nat /\
         first_answer
           (solve math_log run_query get_counts_in_range argpartition
                  default_rng features colors kis mwu_epsilon percent)
           falloff_epsilon gamma_upper n (Raise e))
  /\ (snd (epsilon_falloff math_log run_query get_counts_in_range
                           argpartition default_rng features colors kis
                           mwu_epsilon falloff_epsilon percent fuel
                           gamma_upper)
      = OutOfFuel
      <-> forall i,
            (i <= fuel)%nat ->
            solve math_log run_query get_counts_in_range argpartition
                  default_rng features colors kis mwu_epsilon percent i
                  (decay falloff_epsilon gamma_upper i)
            = Ok None).
Proof.
  rewrite epsilon_falloff_search. split.
  - exact (falloff_search_Failed _ falloff_epsilon fuel gamma_upper e).
  - exact (falloff_search_OutOfFuel _ falloff_epsilon fuel gamma_upper).
Qed.

(** An empty dictionary of quotas: [k = 0], and the assertion of the
    first solver call fails. *)
Lemma driver_fails_with_first_exception_witness :
  snd (falloff_concrete features3 colors3 [] (1 # 2) (1 # 10) 1 5 21)
  = Failed AssertionError.
Proof.
  apply (proj2 (proj1 (driver_fails_with_first_exception
                         ln_approx ball_sum ball_count numpy_argpartition
                         (constant_rng 0) features3 colors3 [] (1 # 2)
                         (1 # 10) 1 5 21 AssertionError))).
  exists O. split; [lia|]. split; [reflexivity|].
  split; [discriminate|]. intros i Hi. lia.
Defined.

(** X13.  The driver of multweights.py behaves in the same way: it hands
    on the first [gamma] of the sequence at which its solver returns a
    vector, and fails with the exception of the first call that is not
    answered with [None]. *)
Theorem multweights_driver_first_answer
        (math_log : nat -> Q) (run_query : list point -> Q -> vec -> vec)
        (get_counts_in_range : list point -> list point -> Q -> list nat)
        (argpartition : vec -> nat -> list nat)
        (features : list point) (colors : list string)
        (kis : list (string * nat))
        (mwu_epsilon falloff_epsilon : Q)
        (fuel : nat) (gamma_upper : Q) :
  (forall gamma X,
      snd (multweights_epsilon_falloff math_log run_query get_counts_in_range
                                       argpartition features colors kis
                                       mwu_epsilon falloff_epsilon fuel
                                       gamma_upper)
      = Found gamma X
      <-> exists n,
            (n <= fuel)%nat /\
            gamma = decay falloff_epsilon gamma_upper n /\
            first_answer
              (fun _ => multweights_solve math_log run_query
                                          get_counts_in_range argpartition
                                          features colors kis mwu_epsilon)
              falloff_epsilon gamma_upper n (Ok (Some X)))
  /\ (forall e,
         snd (multweights_epsilon_falloff math_log run_query
                                          get_counts_in_range argpartition
                                          features colors kis mwu_epsilon
                                          falloff_epsilon fuel gamma_upper)
         = Failed e
         <-> exists n,
               (n <= fuel)%nat /\
               first_answer
                 (fun _ => multweights_solve math_log run_query
                                             get_counts_in_range
                                             argpartition features colors
                                             kis mwu_epsilon)
                 falloff_epsilon gamma_upper n (Raise e)).
Proof.
  rewrite multweights_epsilon_falloff_search. split.
  - intros gamma X.
    exact (falloff_search_Found _ falloff_epsilon fuel gamma_upper gamma X).
  - intros e.
    exact (falloff_search_Failed _ falloff_epsilon fuel gamma_upper e).
Qed.

(** The three far-apart points from [gamma_upper = 21]. *)
Lemma multweights_driver_first_answer_witness :
  exists n,
    (n <= 5)%nat /\
    21 * (1 - (1 # 10)) = decay (1 # 10) 21 n /\
    first_answer
      (fun _ => multweights_solve ln_approx ball_sum ball_count
                                  numpy_argpartition features3 colors3 kis3
                                  (1 # 2))
      (1 # 10) 21 n (Ok (Some [1; 1; 0])).
Proof.
  apply (proj1 (proj1 (multweights_driver_first_answer
                         ln_approx ball_sum ball_count numpy_argpartition
                         features3 colors3 kis3 (1 # 2) (1 # 10) 5 21)
                      (21 * (1 - (1 # 10))) [1; 1; 0])).
  vm_compute. reflexivity.
Defined.

(** ** Searches that never end, and searches that do *)

(** With [k = N] multweights.py answers [None] at every [gamma >= 0]. *)
Lemma multweights_None_when_all_wanted
      (math_log : nat -> Q) (run_query : list point -> Q -> vec -> vec)
      (get_counts_in_range : list point -> list point -> Q -> list nat)
      (argpartition : vec -> nat -> list nat)
      (gamma : Q) (N k : nat)
      (features : list point) (colors : list string)
      (kis : list (string * nat)) (epsilon percent : Q) :
  log_ok math_log -> run_query_ok run_query ->
  run_query_covers_self run_query -> counts_ok get_counts_in_range ->
  argpartition_ok argpartition ->
  valid_input N k features colors kis epsilon percent ->
  k = N -> 0 <= gamma ->
  multweights_mult_weight_upd math_log run_query get_counts_in_range
                              argpartition gamma N k features colors kis
                              epsilon
  = Ok None.
Proof.
  intros Hlog Hrq Hself Hcnt Hap Hvalid HkN Hgamma.
  pose proof (valid_N_ge_2 N k features colors kis epsilon percent Hvalid)
    as HN.
  pose proof (valid_passes math_log Hlog N k features colors kis epsilon
                percent Hvalid) as [_ HP].
  pose proof (valid_scaled_eps N k features colors kis epsilon percent Hvalid)
    as HS.
  destruct Hvalid as [HF HC Hk Hk2 HND HQ [He He1] Hp].
  unfold multweights_mult_weight_upd.
  rewrite multweights_loop_eq by (auto; lia).
  destruct (passes (raw_T math_log N k epsilon)) as [|n]; [lia|].
  cbn [for_range].
  rewrite (all_chosen_pass run_query get_counts_in_range argpartition
             Hrq Hself Hcnt Hap Every50 (fun _ => O) gamma (mu_of k)
             (scaled_epsilon epsilon) epsilon features colors kis N).
  - reflexivity.
  - congruence.
  - exact HC.
  - exact HQ.
  - exact HND.
  - congruence.
  - unfold mu_of. lia.
  - exact HS.
  - lia.
  - exact Hgamma.
  - apply initial_state_good. lia.
Qed.

(** X14.  When every point is wanted ([k = N]) on an otherwise valid
    input, and every ball of the index holds its own centre, the solver
    answers [None] at every positive [gamma], so the [while X is None]
    loop of either driver never ends, whatever [gamma_upper > 0] and
    [0 < falloff_epsilon < 1] are. *)
Theorem search_never_ends_when_all_wanted
        (math_log : nat -> Q) (run_query : list point -> Q -> vec -> vec)
        (get_counts_in_range : list point -> list point -> Q -> list nat)
        (argpartition : vec -> nat -> list nat)
        (default_rng : nat -> nat -> nat)
        (features : list point) (colors : list string)
        (kis : list (string * nat))
        (mwu_epsilon falloff_epsilon percent gamma_upper : Q) :
  log_ok math_log -> run_query_ok run_query ->
  run_query_covers_self run_query -> counts_ok get_counts_in_range ->
  argpartition_ok argpartition ->
  valid_input (length features) (kis_total kis) features colors kis
              mwu_epsilon percent ->
  kis_total kis = length features ->
  0 < gamma_upper -> 0 < falloff_epsilon /\ falloff_epsilon < 1 ->
  never_found
    (fun fuel =>
       epsilon_falloff math_log run_query get_counts_in_range argpartition
                       default_rng features colors kis mwu_epsilon
                       falloff_epsilon percent fuel gamma_upper)
  /\ never_found
       (fun fuel =>
          multweights_epsilon_falloff math_log run_query get_counts_in_range
                                      argpartition features colors kis
                                      mwu_epsilon falloff_epsilon fuel
                                      gamma_upper).
Proof.
  intros Hlog Hrq Hself Hcnt Hap Hvalid HkN Hg Hfe. split.
  - apply epsilon_falloff_never; [exact Hfe| |exact Hg].
    intros call gamma Hgam. unfold solve.
    apply solver_None_when_all_wanted; auto. lra.
  - intros fuel. rewrite multweights_epsilon_falloff_search.
    apply falloff_search_OutOfFuel. intros i _. unfold multweights_solve.
    destruct (decay_bound falloff_epsilon i Hfe gamma_upper Hg) as (D0 & _).
    apply (multweights_None_when_all_wanted
             math_log run_query get_counts_in_range argpartition _ _ _
             features colors kis mwu_epsilon percent); auto. lra.
Qed.

(** Two points of one color, both wanted. *)
Lemma search_never_ends_when_all_wanted_witness :
  never_found
    (fun fuel => falloff_concrete features2 colors2 kis2 (1 # 2) (1 # 10) 1
                                  fuel 2)
  /\ never_found
       (fun fuel =>
          multweights_epsilon_falloff ln_approx ball_sum ball_count
                                      numpy_argpartition features2 colors2
                                      kis2 (1 # 2) (1 # 10) fuel 2).
Proof.
  assert (Hg : 0 < 2) by reflexivity.
  assert (Hfe : 0 < 1 # 10 /\ 1 # 10 < 1) by (split; reflexivity).
  exact (search_never_ends_when_all_wanted
           ln_approx ball_sum ball_count numpy_argpartition (constant_rng 0)
           features2 colors2 kis2 (1 # 2) (1 # 10) 1 2
           ln_approx_ok ball_sum_ok ball_sum_covers_self ball_count_ok
           numpy_argpartition_ok valid2 eq_refl Hg Hfe).
Defined.

(** X15.  The driver of multweights.py terminates under the conditions
    under which the one of fmmdmwu_nyoom.py does: a valid input with
    [k < N] whose points are isolated below some radius [delta > 0].  The
    [gamma] it ends with is positive and at most [gamma_upper]. *)
Theorem multweights_falloff_terminates
        (math_log : nat -> Q) (run_query : list point -> Q -> vec -> vec)
        (get_counts_in_range : list point -> list point -> Q -> list nat)
        (argpartition : vec -> nat -> list nat)
        (features : list point) (colors : list string)
        (kis : list (string * nat))
        (mwu_epsilon falloff_epsilon percent gamma_upper delta : Q) :
  log_ok math_log -> run_query_ok run_query ->
  counts_ok get_counts_in_range -> argpartition_ok argpartition ->
  valid_input (length features) (kis_total kis) features colors kis
              mwu_epsilon percent ->
  (kis_total kis < length features)%nat ->
  0 < delta -> isolating run_query features delta ->
  0 < gamma_upper -> 0 < falloff_epsilon /\ falloff_epsilon < 1 ->
  exists fuel gamma X,
    snd (multweights_epsilon_falloff math_log run_query get_counts_in_range
                                     argpartition features colors kis
                                     mwu_epsilon falloff_epsilon fuel
                                     gamma_upper)
    = Found gamma X /\
    0 < gamma /\ gamma <= gamma_upper.
Proof.
  intros Hlog Hrq Hcnt Hap Hvalid HkN Hd Hiso Hg Hfe.
  set (solver := fun _ : nat =>
                   multweights_solve math_log run_query get_counts_in_range
                                     argpartition features colors kis
                                     mwu_epsilon).
  assert (Hd2 : 0 < 2 * delta) by lra.
  destruct (decay_reaches falloff_epsilon gamma_upper (2 * delta) Hfe Hg Hd2)
    as [n Hn].
  assert (Hpos : forall i, 0 < decay falloff_epsilon gamma_upper i
                           /\ decay falloff_epsilon gamma_upper i
                              <= gamma_upper).
  { intros i.
    destruct (decay_bound falloff_epsilon i Hfe gamma_upper Hg)
      as (D0 & D1 & _). split; assumption. }
  destruct (multweights_first_pass_exit
              math_log run_query get_counts_in_range argpartition
              (decay falloff_epsilon gamma_upper n) (length features)
              (kis_total kis) features colors kis mwu_epsilon percent delta
              Hlog Hrq Hcnt Hap Hvalid HkN Hiso (proj1 (Hpos n)) Hn)
    as (st & _ & Esome & _).
  destruct (first_answer_exists solver falloff_epsilon gamma_upper n
              (scale_down (st_X st) 0)) as (m & X & Hm & Hfa).
  - intros i _. unfold solver, multweights_solve.
    exact (proj2 (solver_raises_nothing
                    math_log run_query get_counts_in_range argpartition
                    Hlog Hrq Hcnt Hap (fun _ => O)
                    (decay falloff_epsilon gamma_upper i)
                    (length features) (kis_total kis) features colors kis
                    mwu_epsilon percent Hvalid)).
  - exact Esome.
  - exists m, (decay falloff_epsilon gamma_upper m), X.
    split; [|apply Hpos].
    rewrite multweights_epsilon_falloff_search.
    apply falloff_search_Found. exists m.
    split; [lia|]. split; [reflexivity|exact Hfa].
Qed.

(** The three far-apart points, two wanted, starting from [gamma = 40]. *)
Lemma multweights_falloff_terminates_witness :
  exists fuel gamma X,
    snd (multweights_epsilon_falloff ln_approx ball_sum ball_count
                                     numpy_argpartition features3 colors3
                                     kis3 (1 # 2) (1 # 10) fuel 40)
    = Found gamma X /\
    0 < gamma /\ gamma <= 40.
Proof.
  assert (Hp : 0 < 1 /\ 1 <= 1) by (split; [reflexivity|discriminate]).
  assert (Hk : (kis_total kis3 < length features3)%nat)
    by (unfold kis_total; simpl; lia).
  assert (Hd : 0 < 10) by reflexivity.
  assert (Hg : 0 < 40) by reflexivity.
  assert (Hfe : 0 < 1 # 10 /\ 1 # 10 < 1) by (split; reflexivity).
  exact (multweights_falloff_terminates
           ln_approx ball_sum ball_count numpy_argpartition
           features3 colors3 kis3 (1 # 2) (1 # 10) 1 40 10
           ln_approx_ok ball_sum_ok ball_count_ok numpy_argpartition_ok
           (valid3 1 Hp) Hk Hd ball_sum_isolating_features3 Hg Hfe).
Defined.

(** ** What the driver hands on to the rounding *)

(** The shape of a vector either solver returns on a valid input. *)
Lemma solver_vector_shape
      (math_log : nat -> Q) (run_query : list point -> Q -> vec -> vec)
      (get_counts_in_range : list point -> list point -> Q -> list nat)
      (argpartition : vec -> nat -> list nat)
      (gen : nat -> nat) (gamma : Q) (N k : nat)
      (features : list point) (colors : list string)
      (kis : list (string * nat)) (epsilon percent : Q) (R : vec) :
  run_query_ok run_query -> argpartition_ok argpartition ->
  valid_input N k features colors kis epsilon percent ->
  mult_weight_upd math_log run_query get_counts_in_range argpartition
                  gen gamma N k features colors kis epsilon percent
  = Ok (Some R)
  \/ multweights_mult_weight_upd math_log run_query get_counts_in_range
                                 argpartition gamma N k features colors kis
                                 epsilon
     = Ok (Some R) ->
  length R = N /\
  entries_within 0 1 R /\
  np_sum R == inject_Z (Z.of_nat k) /\
  forall c K, In (c, K) kis ->
              sum_at R (nonzero_eq c colors) == inject_Z (Z.of_nat K).
Proof.
  intros Hrq Hap Hvalid HR.
  pose proof (valid_N_ge_2 N k features colors kis epsilon percent Hvalid)
    as HN.
  destruct Hvalid as [HF HC Hk Hk2 HND HQ [He He1] Hp].
  unfold mult_weight_upd, multweights_mult_weight_upd in HR.
  rewrite mult_weight_upd_loop_eq, multweights_loop_eq in HR
    by (auto; lia).
  rewrite Hk.
  destruct HR as [HR|HR].
  - destruct (run_returns_mass run_query get_counts_in_range argpartition
                Hrq Hap Stochastic gen gamma (mu_of k)
                (scaled_epsilon epsilon) epsilon features colors kis N
                (eq_sym HF) HC HQ HND (start_state gen N) eq_refl _ R HR)
      as (T & C).
    destruct (run_returns_scaled run_query get_counts_in_range argpartition
                Stochastic gen gamma (mu_of k) (scaled_epsilon epsilon)
                epsilon features colors kis HND N (start_state gen N)
                eq_refl _ R HR)
      as (t & st_t & st & _ & _ & _ & _ & L & B).
    repeat split; assumption.
  - destruct (run_returns_mass run_query get_counts_in_range argpartition
                Hrq Hap Every50 (fun _ => O) gamma (mu_of k)
                (scaled_epsilon epsilon) epsilon features colors kis N
                (eq_sym HF) HC HQ HND (multweights_start_state N) eq_refl
                _ R HR)
      as (T & C).
    destruct (run_returns_scaled run_query get_counts_in_range argpartition
                Every50 (fun _ => O) gamma (mu_of k)
                (scaled_epsilon epsilon) epsilon features colors kis HND N
                (multweights_start_state N) eq_refl _ R HR)
      as (t & st_t & st & _ & _ & _ & _ & L & B).
    repeat split; assumption.
Qed.

(** X16.  What either driver passes to [rand_round] on a valid input: a
    [gamma] with [0 < gamma <= gamma_upper] (the radius is [gamma / 2])
    and a vector with one entry per point, each between 0 and 1, whose
    entries add up to [k] and, over the points of each color [c] of the
    dictionary, to [K(c)]. *)
Theorem driver_hands_on_fractional_solution
        (math_log : nat -> Q) (run_query : list point -> Q -> vec -> vec)
        (get_counts_in_range : list point -> list point -> Q -> list nat)
        (argpartition : vec -> nat -> list nat)
        (default_rng : nat -> nat -> nat)
        (features : list point) (colors : list string)
        (kis : list (string * nat))
        (mwu_epsilon falloff_epsilon percent : Q)
        (fuel : nat) (gamma_upper gamma : Q) (X : vec) :
  run_query_ok run_query -> argpartition_ok argpartition ->
  valid_input (length features) (kis_total kis) features colors kis
              mwu_epsilon percent ->
  0 < gamma_upper -> 0 < falloff_epsilon /\ falloff_epsilon < 1 ->
  snd (epsilon_falloff math_log run_query get_counts_in_range argpartition
                       default_rng features colors kis mwu_epsilon
                       falloff_epsilon percent fuel gamma_upper)
  = Found gamma X
  \/ snd (multweights_epsilon_falloff math_log run_query get_counts_in_range
                                      argpartition features colors kis
                                      mwu_epsilon falloff_epsilon fuel
                                      gamma_upper)
     = Found gamma X ->
  0 < gamma /\ gamma <= gamma_upper /\
  length X = length features /\
  entries_within 0 1 X /\
  np_sum X == inject_Z (Z.of_nat (kis_total kis)) /\
  forall c K, In (c, K) kis ->
              sum_at X (nonzero_eq c colors) == inject_Z (Z.of_nat K).
Proof.
  intros Hrq Hap Hvalid Hg Hfe HF.
  assert (Hcall :
    exists n call,
      gamma = decay falloff_epsilon gamma_upper n /\
      (solve math_log run_query get_counts_in_range argpartition default_rng
             features colors kis mwu_epsilon percent call gamma
       = Ok (Some X)
       \/ multweights_solve math_log run_query get_counts_in_range
                            argpartition features colors kis mwu_epsilon
                            gamma
          = Ok (Some X))).
  { destruct HF as [HF|HF].
    - rewrite epsilon_falloff_search in HF.
      apply falloff_search_Found in HF.
      destruct HF as (n & _ & -> & E & _). exists n, n. auto.
    - rewrite multweights_epsilon_falloff_search in HF.
      apply falloff_search_Found in HF.
      destruct HF as (n & _ & -> & E & _). exists n, n. auto. }
  destruct Hcall as (n & call & -> & Hs).
  destruct (decay_bound falloff_epsilon n Hfe gamma_upper Hg)
    as (D0 & D1 & _).
  split; [exact D0|]. split; [exact D1|].
  unfold solve, multweights_solve in Hs.
  exact (solver_vector_shape
           math_log run_query get_counts_in_range argpartition
           (default_rng call) _ _ _ features colors kis mwu_epsilon percent
           X Hrq Hap Hvalid Hs).
Qed.

(** The three far-apart points from [gamma_upper = 21]. *)
Lemma driver_hands_on_fractional_solution_witness :
  0 < 21 * (1 - (1 # 10)) /\ 21 * (1 - (1 # 10)) <= 21 /\
  length [1; 1; 0] = length features3 /\
  entries_within 0 1 [1; 1; 0] /\
  np_sum [1; 1; 0] == inject_Z (Z.of_nat (kis_total kis3)) /\
  forall c K, In (c, K) kis3 ->
              sum_at [1; 1; 0] (nonzero_eq c colors3)
              == inject_Z (Z.of_nat K).
Proof.
  assert (Hp : 0 < 1 # 100 /\ 1 # 100 <= 1)
    by (split; [reflexivity|discriminate]).
  assert (Hg : 0 < 21) by reflexivity.
  assert (Hfe : 0 < 1 # 10 /\ 1 # 10 < 1) by (split; reflexivity).
  apply (driver_hands_on_fractional_solution
           ln_approx ball_sum ball_count numpy_argpartition (constant_rng 0)
           features3 colors3 kis3 (1 # 2) (1 # 10) (1 # 100) 5 21
           (21 * (1 - (1 # 10))) [1; 1; 0]
           ball_sum_ok numpy_argpartition_ok (valid3 (1 # 100) Hp) Hg Hfe).
  left. vm_compute. reflexivity.
Defined.

(** ** The direction of the weight update *)

(** The entry of [M] for a point with count [c]. *)
Lemma compute_M_nth (n : nat) (mu : Z) (Cs : list nat) (M : vec) (i : nat) :
  compute_M n mu Cs = Ok M -> (i < length Cs)%nat ->
  (length Cs <= n)%nat /\
  length M = n /\
  nth i M 0
  = 1 / inject_Z mu * (inject_Z (-1 * Z.of_nat (nth i Cs O)) + 1).
Proof.
  unfold compute_M. destruct Cs as [|c Cs]; [simpl; lia|].
  remember (c :: Cs) as L eqn:EL.
  destruct (pydiv 1 (inject_Z mu)) as [inv_mu|] eqn:Ed; cbn [bind];
    [|discriminate].
  apply pydiv_inv in Ed. subst inv_mu.
  destruct (n <? length L)%nat eqn:E; [discriminate|].
  apply Nat.ltb_ge in E. intros H Hi. injection H as <-.
  split; [exact E|]. split.
  - rewrite length_app, length_map, repeat_length. lia.
  - rewrite app_nth1 by now rewrite length_map.
    set (f := fun c0 : nat =>
                1 / inject_Z mu * (inject_Z (-1 * Z.of_nat c0) + 1)).
    rewrite (nth_indep (map f L) 0 (f O)) by now rewrite length_map.
    now rewrite (map_nth f).
Qed.

(** The entry of the updated [h] for a point, with the positive
    normalizer made explicit. *)
Lemma update_h_nth (scaled_eps : Q) (h M h' : vec) :
  0 <= scaled_eps -> scaled_eps < 4 ->
  Forall (fun x => 0 < x) h -> h <> [] ->
  length M = length h -> Forall (fun m => m <= 1) M ->
  update_h scaled_eps h M = Ok h' ->
  exists total,
    0 < total /\
    forall i, (i < length h)%nat ->
              nth i h' 0
              = nth i h 0 * (1 - scaled_eps / 4 * nth i M 0) / total.
Proof.
  intros Hs0 Hs4 Hh Hne HL HM. unfold update_h.
  set (f := fun hm : Q * Q => fst hm * (1 - scaled_eps / 4 * snd hm)).
  set (h1 := map f (combine h M)).
  assert (L1 : length h1 = length h).
  { unfold h1. rewrite length_map, length_combine. lia. }
  assert (P1 : Forall (fun x => 0 < x) h1).
  { apply Forall_forall. intros y Hy. apply in_map_iff in Hy.
    destruct Hy as ([x m] & <- & Hin). unfold f. simpl.
    pose proof (in_combine_l _ _ _ _ Hin) as Hx.
    pose proof (in_combine_r _ _ _ _ Hin) as Hm.
    rewrite Forall_forall in Hh, HM.
    specialize (Hh _ Hx). specialize (HM _ Hm). simpl in Hh, HM.
    pose proof (Qdiv_4 scaled_eps) as Hq. set (q := scaled_eps / 4) in *.
    assert (q * m < 1).
    { assert (0 <= q * (1 - m)) by (apply Qmult_le_0_compat; lra).
      lra. }
    apply Qmult_lt_0_compat; lra. }
  assert (T1 : 0 < np_sum h1).
  { apply np_sum_pos; [exact P1|]. destruct h1; [|congruence].
    destruct h; [congruence|discriminate]. }
  destruct (Qeq_bool (np_sum h1) 0) eqn:E.
  { apply Qeq_bool_iff in E. lra. }
  intros H. injection H as <-.
  exists (np_sum h1). split; [exact T1|]. intros i Hi.
  set (g := fun x : Q => x / np_sum h1).
  rewrite (nth_indep (map g h1) 0 (g 0)) by now rewrite length_map, L1.
  rewrite (map_nth g). unfold g. f_equal. unfold h1.
  rewrite (nth_indep (map f (combine h M)) 0 (f (0, 0)))
    by (rewrite length_map, length_combine; lia).
  rewrite (map_nth f), combine_nth by (symmetry; exact HL).
  reflexivity.
Qed.

(** X17.  The update of [h] (lines 101-111) moves weight towards the
    points whose balls hold more of the points just selected: for two
    points [i] and [j] with counts [c_i <= c_j], the weight of [i] grows
    by no larger a factor than the weight of [j], [h'_i / h_i <= h'_j /
    h_j] (stated without the divisions).  Here [mu >= 1],
    [0 <= scaled_eps < 4] and [h] is positive. *)
Theorem weights_shift_to_crowded_points
        (n : nat) (mu : Z) (Cs : list nat) (scaled_eps : Q)
        (h M h' : vec) (i j : nat) :
  (1 <= mu)%Z -> 0 <= scaled_eps /\ scaled_eps < 4 ->
  length h = n -> Forall (fun x => 0 < x) h ->
  compute_M n mu Cs = Ok M ->
  update_h scaled_eps h M = Ok h' ->
  (i < length Cs)%nat -> (j < length Cs)%nat ->
  (nth i Cs O <= nth j Cs O)%nat ->
  nth i h' 0 * nth j h 0 <= nth j h' 0 * nth i h 0.
Proof.
  intros Hmu [Hs0 Hs4] Lh Ph EM Eh Hi Hj Hc.
  destruct (compute_M_nth n mu Cs M i EM Hi) as (LC & LM & Mi).
  destruct (compute_M_nth n mu Cs M j EM Hj) as (_ & _ & Mj).
  destruct (compute_M_inv n mu Cs M Hmu EM) as [_ HM].
  destruct (update_h_nth scaled_eps h M h' Hs0 Hs4 Ph) as (total & HT & Hn);
    try assumption; try congruence.
  { intros Hnil. rewrite Hnil in Lh. simpl in Lh. lia. }
  rewrite (Hn i), (Hn j) by lia. rewrite Mi, Mj.
  assert (Hpi : 0 < nth i h 0).
  { rewrite Forall_forall in Ph. apply Ph, nth_In. lia. }
  assert (Hpj : 0 < nth j h 0).
  { rewrite Forall_forall in Ph. apply Ph, nth_In. lia. }
  assert (Hpos : 0 < inject_Z mu) by (apply inject_Z_pos; lia).
  assert (Ha : 0 < 1 / inject_Z mu) by (apply Qlt_shift_div_l; lra).
  assert (Hcc : inject_Z (-1 * Z.of_nat (nth j Cs O))
                <= inject_Z (-1 * Z.of_nat (nth i Cs O)))
    by (apply inject_Z_le; lia).
  pose proof (Qdiv_4 scaled_eps) as Hq.
  set (q := scaled_eps / 4) in *.
  set (a := 1 / inject_Z mu) in *.
  set (ci := inject_Z (-1 * Z.of_nat (nth i Cs O))) in *.
  set (cj := inject_Z (-1 * Z.of_nat (nth j Cs O))) in *.
  set (x := nth i h 0) in *. set (y := nth j h 0) in *.
  assert (Hf : 1 - q * (a * (ci + 1)) <= 1 - q * (a * (cj + 1))).
  { assert (0 <= q * a * (ci - cj)).
    { apply Qmult_le_0_compat; [apply Qmult_le_0_compat|]; lra. }
    lra. }
  set (fi := 1 - q * (a * (ci + 1))) in *.
  set (fj := 1 - q * (a * (cj + 1))) in *.
  assert (Hit : 0 < / total) by now apply Qinv_lt_0_compat.
  unfold Qdiv. set (it := / total) in *.
  assert (Hxy : 0 <= x * y * it).
  { apply Qmult_le_0_compat; [apply Qmult_le_0_compat|]; lra. }
  assert (E1 : x * fi * it * y == fi * (x * y * it)) by ring.
  assert (E2 : y * fj * it * x == fj * (x * y * it)) by ring.
  rewrite E1, E2. apply Qmult_le_compat_r; assumption.
Qed.

(** Three points with uniform weights and counts 0, 1 and 2. *)
Lemma weights_shift_to_crowded_points_witness :
  exists M h',
    compute_M 3 1 [0; 1; 2]%nat = Ok M /\
    update_h (1 # 2) [1 # 3; 1 # 3; 1 # 3] M = Ok h' /\
    nth 0 h' 0 * nth 2 [1 # 3; 1 # 3; 1 # 3] 0
    <= nth 2 h' 0 * nth 0 [1 # 3; 1 # 3; 1 # 3] 0.
Proof.
  eexists. eexists.
  split; [vm_compute; reflexivity|]. split; [vm_compute; reflexivity|].
  refine (weights_shift_to_crowded_points
            3 1 [0; 1; 2]%nat (1 # 2) [1 # 3; 1 # 3; 1 # 3] _ _ 0%nat 2%nat
            _ _ _ _ _ _ _ _ _).
  - lia.
  - split; [discriminate|reflexivity].
  - reflexivity.
  - repeat constructor.
  - vm_compute. reflexivity.
  - vm_compute. reflexivity.
  - simpl. lia.
  - simpl. lia.
  - simpl. lia.
Defined.

(** ** More color labels than points *)

Lemma take_out_of_range (A : Type) (a : list A) (idx : list nat) :
  Exists (fun i => (length a <= i)%nat) idx -> take a idx = Raise IndexError.
Proof.
  induction 1 as [i idx Hi|i idx _ IH]; cbn [take].
  - apply nth_error_None in Hi. now rewrite Hi.
  - destruct (nth_error a i); [|reflexivity]. now rewrite IH.
Qed.

(** X18.  When [colors] is longer than [features] and a point beyond the
    last feature carries the first color of the dictionary, the solver
    raises [IndexError] in its first pass, at [w_sums[color_sums_ind]]:
    the index answers with one value per feature.  Both source files
    behave alike. *)
Theorem color_beyond_features_raises_IndexError
        (math_log : nat -> Q) (run_query : list point -> Q -> vec -> vec)
        (get_counts_in_range : list point -> list point -> Q -> list nat)
        (argpartition : vec -> nat -> list nat)
        (gen : nat -> nat) (gamma : Q) (N k : nat)
        (features : list point) (colors : list string)
        (c : string) (ki : nat) (post : list (string * nat))
        (epsilon percent : Q) (i : nat) :
  log_ok math_log -> run_query_ok run_query ->
  length features = N ->
  (2 <= N)%nat -> (2 <= k)%nat -> 0 < epsilon -> 0 < percent ->
  (N <= i < length colors)%nat -> nth i colors EmptyString = c ->
  mult_weight_upd math_log run_query get_counts_in_range argpartition
                  gen gamma N k features colors ((c, ki) :: post)
                  epsilon percent
  = Raise IndexError
  /\ multweights_mult_weight_upd math_log run_query get_counts_in_range
                                 argpartition gamma N k features colors
                                 ((c, ki) :: post) epsilon
     = Raise IndexError.
Proof.
  intros [_ Hlog] Hrq LF HN Hk He Hp Hi Hc.
  assert (HT : 0 < raw_T math_log N k epsilon)
    by (apply raw_T_pos; auto).
  assert (HP1 : (1 <= passes (raw_T math_log N k epsilon * percent))%nat)
    by (apply passes_pos; now apply Qmult_lt_0_compat).
  assert (HP2 : (1 <= passes (raw_T math_log N k epsilon))%nat)
    by now apply passes_pos.
  assert (Hbody : forall cad g mu se t st,
    body run_query get_counts_in_range argpartition cad g gamma mu se
         epsilon features colors ((c, ki) :: post) t st
    = Raise IndexError).
  { intros cad g mu se t st. unfold body, selection.
    cbn [color_loop]. unfold color_step, min_indecies. cbn [fst snd].
    rewrite take_out_of_range; [reflexivity|].
    apply Exists_exists. exists i. split.
    - apply nonzero_eq_In. split; [lia|exact Hc].
    - rewrite Hrq. lia. }
  unfold mult_weight_upd, multweights_mult_weight_upd.
  rewrite mult_weight_upd_loop_eq, multweights_loop_eq by (auto; lia).
  destruct (passes (raw_T math_log N k epsilon * percent)) as [|n1]; [lia|].
  destruct (passes (raw_T math_log N k epsilon)) as [|n2]; [lia|].
  cbn [for_range]. rewrite !Hbody. split; reflexivity.
Qed.

(** Three points and four labels, all "a". *)
Lemma color_beyond_features_raises_IndexError_witness :
  mwu_concrete (fun _ => O) 1 3 2 features3
               ["a"%string; "a"%string; "a"%string; "a"%string]
               kis3 (1 # 2) 1
  = Raise IndexError.
Proof.
  refine (proj1 (color_beyond_features_raises_IndexError
                   ln_approx ball_sum ball_count numpy_argpartition
                   (fun _ => O) 1 3 2 features3
                   ["a"%string; "a"%string; "a"%string; "a"%string]
                   "a"%string 2 [] (1 # 2) 1 3
                   ln_approx_ok ball_sum_ok eq_refl _ _ _ _ _ eq_refl)).
  - lia.
  - lia.
  - reflexivity.
  - reflexivity.
  - simpl. lia.
Defined.
